(** * RAGScope: relation resolution and entailment-graph engine

    A shallow embedding of the relation-resolution core of the RAGScope
    front end, and the proofs of its specified properties.

    The first half of the file holds the definitions, in the order of the
    sources:

    - the JavaScript values and built-ins that the code relies on
      (property reads, [String], [trim], [toLowerCase], [JSON.stringify],
      [JSON.parse]);
    - [src/frontend/src/utils/relations.ts]: [relAt],
      [isIrrelevantFromCounts], [isIrrelevantFromSets];
    - [src/frontend/src/components/QuestionInspector.tsx]:
      [extractClaims], [mapRelToStatus], [mapDirectStatuses],
      [chunkStatusForSets], [usageStatusForSets], [getClaimSetsForChunk],
      the chunk summary counts, the chunk filter flags and the
      [supportedByChunk] scan; then [toggleChunkExpanded], [gtCounts],
      [respCounts] and the claim filters;
    - [src/frontend/src/components/ClaimChunkOverlay.tsx]: the two loops
      that fill [pathsOut], the three hover selectors registered
      through [attachHover] and the effect that highlights the hovered
      items;
    - the chunk analysis, which calls [isIrrelevantFromCounts] on the
      counters it has clamped, and its bound on the number of rows.

    The second half holds the facts, with one theorem for each claim
    C1 to C10, followed by further properties of the same functions.

    Conventions of the embedding.  A JavaScript value is a [jsval]: numbers
    are the integers (array lengths, indices and counts; the code never
    does fractional arithmetic on them), strings are Rocq byte strings read
    as UTF-8 text, arrays are lists and plain objects are association lists
    from property names to values; no value is a function, as in data read
    from JSON.  A JSON text with a number that is not an integer is outside
    the embedding: [JSON_parse] does not read it.  A function body that
    uses [return] and may throw runs in the [flow] monad; code that may
    throw without an early [return] gives an [option], [None] standing for
    the exception; a [try]/[catch] is the [match] on the outcome. *)

From Stdlib Require Import List ZArith Lia Bool String Ascii Arith.
From Stdlib Require Import DecimalString.
Import ListNotations.

Set Implicit Arguments.

(* ===================================================================== *)
(** * JavaScript values *)
(* ===================================================================== *)

Unset Elimination Schemes.

Inductive jsval : Type :=
| JUndefined
| JNull
| JBool (b : bool)
| JNum (n : Z)
| JStr (s : string)
| JArr (items : list jsval)
| JObj (fields : list (string * jsval)).

Set Elimination Schemes.

(** [Array.isArray(v)]. *)
Definition Array_isArray (v : jsval) : bool :=
  match v with JArr _ => true | _ => false end.

(** [typeof v === 'number'], [typeof v === 'string'], [typeof v === 'object']
    (the last one is also true of [null] and of arrays). *)
Definition typeof_number (v : jsval) : bool :=
  match v with JNum _ => true | _ => false end.

Definition typeof_string (v : jsval) : bool :=
  match v with JStr _ => true | _ => false end.

Definition typeof_object (v : jsval) : bool :=
  match v with JNull | JArr _ | JObj _ => true | _ => false end.

(** ToBoolean: the falsy values are [undefined], [null], [false], [0] and
    the empty string. *)
Definition truthy (v : jsval) : bool :=
  match v with
  | JUndefined | JNull => false
  | JBool b => b
  | JNum n => negb (n =? 0)%Z
  | JStr s => negb (String.eqb s "")
  | JArr _ | JObj _ => true
  end.

(** [a ?? b] and [a || b]. *)
Definition nullish (v : jsval) : bool :=
  match v with JUndefined | JNull => true | _ => false end.

Definition coalesce (a b : jsval) : jsval := if nullish a then b else a.

Definition js_or (a b : jsval) : jsval := if truthy a then a else b.

(** [a === b].  Arrays and objects compare by reference in JavaScript; two
    values of the embedding that were built apart are never the same
    reference, so the comparison is [false] on them. *)
Definition strict_eq (a b : jsval) : bool :=
  match a, b with
  | JUndefined, JUndefined => true
  | JNull, JNull => true
  | JBool x, JBool y => Bool.eqb x y
  | JNum x, JNum y => (x =? y)%Z
  | JStr x, JStr y => String.eqb x y
  | _, _ => false
  end.

(** The decimal form of an integer: [String(n)] and the property name that
    an integer index stands for. *)
Definition string_of_Z (n : Z) : string :=
  NilEmpty.string_of_int (Z.to_int n).

(** Lookup in an association list of properties. *)
Fixpoint assoc (key : string) (fields : list (string * jsval)) : option jsval :=
  match fields with
  | [] => None
  | (k, v) :: rest => if String.eqb k key then Some v else assoc key rest
  end.

(** [a[i]] on an array: holes and out-of-range or negative positions read
    as [undefined]. *)
Definition arr_get (items : list jsval) (i : Z) : jsval :=
  if (i <? 0)%Z then JUndefined else nth (Z.to_nat i) items JUndefined.

Definition str_get (s : string) (i : Z) : jsval :=
  if (i <? 0)%Z then JUndefined
  else match String.get (Z.to_nat i) s with
       | Some c => JStr (String c EmptyString)
       | None => JUndefined
       end.

(* ===================================================================== *)
(** * Control flow: [return] and exceptions *)
(* ===================================================================== *)

(** The outcome of running a piece of a function body: it falls through
    with a value, it executed a [return], or it threw. *)
Inductive flow (A : Type) : Type :=
| Next (a : A)
| Return (v : jsval)
| Throw.

Arguments Next {A} a.
Arguments Return {A} v.
Arguments Throw {A}.

Definition bind {A B : Type} (m : flow A) (k : A -> flow B) : flow B :=
  match m with
  | Next a => k a
  | Return v => Return v
  | Throw => Throw
  end.

Notation "'let*' x ':=' m 'in' k" := (bind m (fun x => k))
  (at level 10, x name, m at level 100, k at level 200).
Notation "s1 ';;' s2" := (bind s1 (fun _ => s2))
  (at level 100, s2 at level 200, right associativity).

(** [if (c) return e;] *)
Definition return_if (c : bool) (e : flow jsval) : flow unit :=
  if c then let* v := e in Return v else Next tt.

(** The value a call produces when its body is wrapped in
    [try { ... } catch { return onThrow; }]; a body that runs off its end
    returns [undefined]. *)
Definition call_catching (body : flow unit) (onThrow : jsval) : jsval :=
  match body with
  | Next _ => JUndefined
  | Return v => v
  | Throw => onThrow
  end.

(** Code that may throw but has no early [return] is written with
    [option]: [None] stands for the exception.  [traverse f l] runs [f] on
    the elements of [l] in turn, as a loop or a [map] does whose body may
    throw; [flat_traverse] appends the lists that the turns produce. *)
Section Traverse.

Context {A B : Type}.
Variable f : A -> option B.

Fixpoint traverse (l : list A) : option (list B) :=
  match l with
  | [] => Some []
  | x :: rest =>
      match f x with
      | Some y =>
          match traverse rest with
          | Some ys => Some (y :: ys)
          | None => None
          end
      | None => None
      end
  end.

End Traverse.

Section FlatTraverse.

Context {A B : Type}.
Variable f : A -> option (list B).

Fixpoint flat_traverse (l : list A) : option (list B) :=
  match l with
  | [] => Some []
  | x :: rest =>
      match f x with
      | Some ys =>
          match flat_traverse rest with
          | Some zs => Some (ys ++ zs)
          | None => None
          end
      | None => None
      end
  end.

End FlatTraverse.

(** [v[i]] for an integer [i]: a TypeError on [undefined] and [null]. *)
Definition js_index (v : jsval) (i : Z) : flow jsval :=
  match v with
  | JUndefined | JNull => Throw
  | JArr items => Next (arr_get items i)
  | JStr s => Next (str_get s i)
  | JObj fields =>
      Next (match assoc (string_of_Z i) fields with Some x => x | None => JUndefined end)
  | JBool _ | JNum _ => Next JUndefined
  end.

(** [v?.[i]] *)
Definition js_index_opt (v : jsval) (i : Z) : flow jsval :=
  if nullish v then Next JUndefined else js_index v i.

(** [v.length].  The length of a string is taken in bytes; the code asks
    for the length of arrays only. *)
Definition js_length (v : jsval) : flow jsval :=
  match v with
  | JUndefined | JNull => Throw
  | JArr items => Next (JNum (Z.of_nat (List.length items)))
  | JStr s => Next (JNum (Z.of_nat (String.length s)))
  | JObj fields =>
      Next (match assoc "length" fields with Some x => x | None => JUndefined end)
  | JBool _ | JNum _ => Next JUndefined
  end.

(** [a > i] where [i] is a number and [a] is an array length. *)
Definition js_gt (a : jsval) (i : Z) : bool :=
  match a with JNum n => (i <? n)%Z | _ => false end.

(* ===================================================================== *)
(** * utils/relations.ts *)
(* ===================================================================== *)

(** The body of [relAt], statement by statement.  [chunkCount] and
    [claimCount] are optional: an absent count is [JUndefined]. *)
Definition relAt_body (matrix : jsval) (chunkIdx claimIdx : Z)
    (chunkCount claimCount : jsval) : flow unit :=
  return_if (negb (Array_isArray matrix)) (Next JUndefined) ;;
  let* outer := js_length matrix in
  (if typeof_number chunkCount && strict_eq outer chunkCount then
     let* row := js_index matrix chunkIdx in
     return_if (Array_isArray row) (js_index row claimIdx)
   else Next tt) ;;
  (if typeof_number claimCount && strict_eq outer claimCount then
     let* row := js_index matrix claimIdx in
     return_if (Array_isArray row) (js_index row chunkIdx)
   else Next tt) ;;
  let* first := js_index matrix 0 in
  (if Array_isArray first then
     let* firstLen := js_length first in
     (if typeof_number claimCount && strict_eq firstLen claimCount then
        let* row := js_index matrix chunkIdx in
        return_if (Array_isArray row) (js_index row claimIdx)
      else Next tt) ;;
     (if typeof_number chunkCount && strict_eq firstLen chunkCount then
        let* row := js_index matrix claimIdx in
        return_if (Array_isArray row) (js_index row chunkIdx)
      else Next tt)
   else Next tt) ;;
  let* byChunk :=
    (let* probe := js_index_opt matrix chunkIdx in
     if Array_isArray probe then js_index matrix chunkIdx else Next JUndefined) in
  (if Array_isArray byChunk then
     let* len := js_length byChunk in
     return_if (js_gt len claimIdx) (js_index byChunk claimIdx)
   else Next tt) ;;
  let* byClaim :=
    (let* probe := js_index_opt matrix claimIdx in
     if Array_isArray probe then js_index matrix claimIdx else Next JUndefined) in
  (if Array_isArray byClaim then
     let* len := js_length byClaim in
     return_if (js_gt len chunkIdx) (js_index byClaim chunkIdx)
   else Next tt) ;;
  Return JUndefined.

Definition relAt (matrix : jsval) (chunkIdx claimIdx : Z)
    (chunkCount claimCount : jsval) : jsval :=
  call_catching (relAt_body matrix chunkIdx claimIdx chunkCount claimCount) JUndefined.

(** A rectangular matrix given by its rows, its cell at a position, and its
    transpose. *)
Definition matrix_of (rows : list (list jsval)) : jsval := JArr (map JArr rows).

Definition cell (rows : list (list jsval)) (i j : nat) : jsval :=
  nth j (nth i rows []) JUndefined.

Definition shaped (r c : nat) (rows : list (list jsval)) : Prop :=
  List.length rows = r /\ Forall (fun row => List.length row = c) rows.

Definition transpose (c : nat) (rows : list (list jsval)) : list (list jsval) :=
  map (fun j => map (fun row => nth j row JUndefined) rows) (seq 0 c).

(** The relation labels supplied by the upstream evaluation tool
    ([type Rel = 'Entailment' | 'Neutral' | 'Contradiction' | undefined]). *)
Definition Entailment : jsval := JStr "Entailment".
Definition Contradiction : jsval := JStr "Contradiction".
Definition Neutral : jsval := JStr "Neutral".

(** The row-then-column read [m[a][b]] that every branch of [relAt]
    performs: it succeeds when [m[a]] is an array. *)
Definition read2 (m : list jsval) (a b : Z) : option jsval :=
  match arr_get m a with
  | JArr row => Some (arr_get row b)
  | _ => None
  end.

(** [m[a]] is an array of more than [b] elements. *)
Definition longer_row (m : list jsval) (a b : Z) : bool :=
  match arr_get m a with
  | JArr row => (b <? Z.of_nat (List.length row))%Z
  | _ => false
  end.

(** The length of the first row equals the given count. *)
Definition first_len_is (m : list jsval) (count : jsval) : bool :=
  match arr_get m 0 with
  | JArr first => typeof_number count && strict_eq (JNum (Z.of_nat (List.length first))) count
  | _ => false
  end.

Definition outer_is (m : list jsval) (count : jsval) : bool :=
  typeof_number count && strict_eq (JNum (Z.of_nat (List.length m))) count.

Definition first_some (candidates : list (bool * option jsval)) : jsval :=
  match
    find (fun c => fst c && match snd c with Some _ => true | None => false end) candidates
  with
  | Some (_, Some v) => v
  | _ => JUndefined
  end.


(** [(a, b)] addresses a cell of an [r x c] matrix. *)
Definition in_range (r c : nat) (a b : Z) : Prop :=
  (0 <= a < Z.of_nat r)%Z /\ (0 <= b < Z.of_nat c)%Z.

(** The degenerate inputs of [relAt]: a matrix that is not an array (this
    includes [null] and [undefined]); an empty array; a coordinate outside
    a well-formed matrix whose swapped pair is outside it as well, whatever
    the counts are; and, when the chunk count is the number of rows, a
    valid chunk index with a claim index outside the row, whatever the
    claim count is. *)
Inductive degenerate : jsval -> Z -> Z -> jsval -> jsval -> Prop :=
| degenerate_not_array matrix i j cc kc :
    Array_isArray matrix = false -> degenerate matrix i j cc kc
| degenerate_empty i j cc kc :
    degenerate (JArr []) i j cc kc
| degenerate_both_outside m r c i j cc kc :
    shaped r c m ->
    ~ in_range r c i j ->
    ~ in_range r c j i ->
    degenerate (matrix_of m) i j cc kc
| degenerate_claim_outside m r c i j kc :
    shaped r c m ->
    (0 <= i < Z.of_nat r)%Z ->
    ~ (0 <= j < Z.of_nat c)%Z ->
    degenerate (matrix_of m) i j (JNum (Z.of_nat r)) kc.

(** The out-of-range coordinates that are left when the counts are the
    dimensions of the matrix: the chunk index is past the last row and the
    swapped pair addresses a cell. *)
Definition swapped_escape (r c : nat) (i j : Z) : Prop :=
  (Z.of_nat r <= i)%Z /\ in_range r c j i.

(** Small relation matrices used in the examples below: two chunks
    against three claims, two chunks against two claims, and three chunks
    against two claims. *)
Definition matrix_2x3 : list (list jsval) :=
  [[Entailment; Neutral; Contradiction]; [Neutral; Neutral; Entailment]].

Definition matrix_2x2 : list (list jsval) :=
  [[Entailment; Neutral]; [Contradiction; Neutral]].

Definition matrix_3x2 : list (list jsval) :=
  [[Entailment; Neutral]; [Neutral; Contradiction]; [Neutral; Entailment]].

(* ===================================================================== *)
(** * String built-ins *)
(* ===================================================================== *)

Open Scope string_scope.

(** A string is the byte string of its UTF-8 encoding.  The built-ins that
    the code calls are modelled on that encoding.  [toLowerCase] folds the
    ASCII letters only.  The code compares its result with the literals
    'entailment' and 'contradiction' and nothing else; the one character
    outside ASCII that lower-cases to an ASCII letter is the Kelvin sign
    (to 'k'), and neither literal has a 'k', so those comparisons come out
    as in JavaScript. *)

Definition code (c : ascii) : N := N_of_ascii c.

Definition char_newline : ascii := "010"%char.
Definition char_dquote : ascii := "034"%char.
Definition char_backslash : ascii := "092"%char.

Definition str1 (c : ascii) : string := String c EmptyString.

(** [String(v)]: ToString on the values of the embedding.  An array is
    joined with commas, [undefined] and [null] elements giving the empty
    string.  An object is converted by its [toString] method, then by
    [valueOf]: a plain object inherits both and gives ['[object Object]'],
    but an own property named [toString] hides the inherited method, and as
    no value of the embedding is a function, none of the two conversions
    gives a primitive: a TypeError is thrown ([None]). *)
Fixpoint String_of (v : jsval) : option string :=
  match v with
  | JUndefined => Some "undefined"
  | JNull => Some "null"
  | JBool true => Some "true"
  | JBool false => Some "false"
  | JNum n => Some (string_of_Z n)
  | JStr s => Some s
  | JArr items =>
      option_map (String.concat ",")
        (traverse (fun x => match x with
                            | JUndefined | JNull => Some EmptyString
                            | _ => String_of x
                            end) items)
  | JObj fields =>
      match assoc "toString" fields with
      | Some _ => None
      | None => Some "[object Object]"
      end
  end.

(** [String(v)] returns. *)
Definition printable (v : jsval) : bool :=
  match String_of v with Some _ => true | None => false end.

(** The values that [String] cannot convert, by their shape: an object
    with an own [toString] property, and an array that holds such a value,
    directly or inside further arrays. *)
Fixpoint unconvertible (v : jsval) : bool :=
  match v with
  | JObj fields =>
      match assoc "toString" fields with
      | Some _ => true
      | None => false
      end
  | JArr items => existsb unconvertible items
  | _ => false
  end.

Definition lower_char (c : ascii) : ascii :=
  if ((65 <=? code c) && (code c <=? 90))%N then ascii_of_N (code c + 32) else c.

(** [s.toLowerCase()] *)
Fixpoint toLowerCase (s : string) : string :=
  match s with
  | EmptyString => EmptyString
  | String c rest => String (lower_char c) (toLowerCase rest)
  end.

(** One white-space character at the head of a string, in UTF-8: the ASCII
    controls TAB, LF, VT, FF, CR and the space, then U+00A0, U+1680,
    U+2000..U+200A, U+2028, U+2029, U+202F, U+205F, U+3000 and U+FEFF.
    The result is the rest of the string. *)
Definition strip_space (s : string) : option string :=
  match s with
  | EmptyString => None
  | String c1 r1 =>
      if ((9 <=? code c1) && (code c1 <=? 13) || (code c1 =? 32))%N then Some r1
      else
        match r1 with
        | EmptyString => None
        | String c2 r2 =>
            if ((code c1 =? 194) && (code c2 =? 160))%N then Some r2
            else
              match r2 with
              | EmptyString => None
              | String c3 r3 =>
                  if ((code c1 =? 225) && (code c2 =? 154) && (code c3 =? 128)
                      || (code c1 =? 226) && (code c2 =? 128)
                         && ((128 <=? code c3) && (code c3 <=? 138)
                             || (code c3 =? 168) || (code c3 =? 169) || (code c3 =? 175))
                      || (code c1 =? 226) && (code c2 =? 129) && (code c3 =? 159)
                      || (code c1 =? 227) && (code c2 =? 128) && (code c3 =? 128)
                      || (code c1 =? 239) && (code c2 =? 187) && (code c3 =? 191))%N
                  then Some r3
                  else None
              end
        end
  end.

Fixpoint trimStart_fuel (fuel : nat) (s : string) : string :=
  match fuel with
  | O => s
  | S fuel' =>
      match strip_space s with
      | Some rest => trimStart_fuel fuel' rest
      | None => s
      end
  end.

(** [s.trimStart()]: every stripped character takes at least one byte, so
    the length of [s] is fuel enough. *)
Definition trimStart (s : string) : string := trimStart_fuel (String.length s) s.

Fixpoint all_space_fuel (fuel : nat) (s : string) : bool :=
  match fuel with
  | O => match s with EmptyString => true | _ => false end
  | S fuel' =>
      match s with
      | EmptyString => true
      | _ => match strip_space s with
             | Some rest => all_space_fuel fuel' rest
             | None => false
             end
      end
  end.

Definition all_space (s : string) : bool := all_space_fuel (String.length s) s.

(** [s.trimEnd()]: cut at the first position from which only white space
    follows. *)
Fixpoint trimEnd (s : string) : string :=
  match s with
  | EmptyString => EmptyString
  | String c rest => if all_space s then EmptyString else String c (trimEnd rest)
  end.

(** [s.trim()] *)
Definition trim (s : string) : string := trimEnd (trimStart s).

(** [s.startsWith(p)] and [s.endsWith(c)] for a one-character [c]. *)
Definition startsWith (p s : string) : bool := String.prefix p s.

Fixpoint endsWith_char (c : ascii) (s : string) : bool :=
  match s with
  | EmptyString => false
  | String d EmptyString => Ascii.eqb d c
  | String _ rest => endsWith_char c rest
  end.

(** [s.includes('\n')] *)
Fixpoint includes_newline (s : string) : bool :=
  match s with
  | EmptyString => false
  | String c rest => Ascii.eqb c char_newline || includes_newline rest
  end.

(** [s.split('\n')] *)
Fixpoint split_newline (s : string) : list string :=
  match s with
  | EmptyString => [EmptyString]
  | String c rest =>
      if Ascii.eqb c char_newline then EmptyString :: split_newline rest
      else match split_newline rest with
           | line :: lines => String c line :: lines
           | [] => [str1 c]
           end
  end.

Definition nonempty (s : string) : bool :=
  match s with EmptyString => false | _ => true end.

(* ===================================================================== *)
(** * JSON.stringify and JSON.parse *)
(* ===================================================================== *)

Definition hex_digit (n : N) : ascii :=
  if (n <? 10)%N then ascii_of_N (48 + n) else ascii_of_N (87 + n).

(** QuoteJSONString, character by character: the quote, the backslash and
    the control characters below U+0020 are escaped, every other byte is
    copied. *)
Definition quote_char (c : ascii) : string :=
  if (code c =? 34)%N then String char_backslash (str1 char_dquote)
  else if (code c =? 92)%N then String char_backslash (str1 char_backslash)
  else if (code c =? 8)%N then String char_backslash "b"
  else if (code c =? 12)%N then String char_backslash "f"
  else if (code c =? 10)%N then String char_backslash "n"
  else if (code c =? 13)%N then String char_backslash "r"
  else if (code c =? 9)%N then String char_backslash "t"
  else if (code c <? 32)%N then
    String char_backslash
      (String "u" (String "0" (String "0"
         (String (hex_digit (code c / 16)) (str1 (hex_digit (code c mod 16)))))))
  else str1 c.

Fixpoint quote_chars (s : string) : string :=
  match s with
  | EmptyString => EmptyString
  | String c rest => quote_char c ++ quote_chars rest
  end.

Definition JSON_quote (s : string) : string :=
  String char_dquote (quote_chars s ++ str1 char_dquote).

(** SerializeJSONProperty without indentation.  Inside an array
    [undefined] is written as [null]; a property whose value is
    [undefined] is left out of an object. *)
Fixpoint JSON_text (v : jsval) : string :=
  match v with
  | JUndefined | JNull => "null"
  | JBool true => "true"
  | JBool false => "false"
  | JNum n => string_of_Z n
  | JStr s => JSON_quote s
  | JArr items => "[" ++ String.concat "," (map JSON_text items) ++ "]"
  | JObj fields =>
      "{" ++ String.concat ","
               (flat_map (fun '(k, x) => match x with
                                         | JUndefined => []
                                         | _ => [JSON_quote k ++ ":" ++ JSON_text x]
                                         end) fields) ++ "}"
  end.

(** [JSON.stringify(v)]: [undefined] for [undefined], the JSON text
    otherwise. *)
Definition JSON_stringify (v : jsval) : jsval :=
  match v with
  | JUndefined => JUndefined
  | _ => JStr (JSON_text v)
  end.

(** JSON white space: space, TAB, LF, CR. *)
Definition is_json_space (c : ascii) : bool :=
  ((code c =? 32) || (code c =? 9) || (code c =? 10) || (code c =? 13))%N.

Fixpoint skip_space (s : string) : string :=
  match s with
  | EmptyString => EmptyString
  | String c rest => if is_json_space c then skip_space rest else s
  end.

Definition hex_value (c : ascii) : option N :=
  let n := code c in
  if ((48 <=? n) && (n <=? 57))%N then Some (n - 48)%N
  else if ((97 <=? n) && (n <=? 102))%N then Some (n - 87)%N
  else if ((65 <=? n) && (n <=? 70))%N then Some (n - 55)%N
  else None.

Definition hex4 (h1 h2 h3 h4 : ascii) : option N :=
  match hex_value h1, hex_value h2, hex_value h3, hex_value h4 with
  | Some a, Some b, Some c, Some d => Some (((a * 16 + b) * 16 + c) * 16 + d)%N
  | _, _, _, _ => None
  end.

(** The UTF-8 bytes of a code point (an unpaired surrogate is encoded the
    same way, as three bytes). *)
Definition utf8 (n : N) : string :=
  if (n <? 128)%N then str1 (ascii_of_N n)
  else if (n <? 2048)%N then
    String (ascii_of_N (192 + n / 64)) (str1 (ascii_of_N (128 + n mod 64)))
  else if (n <? 65536)%N then
    String (ascii_of_N (224 + n / 4096))
      (String (ascii_of_N (128 + (n / 64) mod 64)) (str1 (ascii_of_N (128 + n mod 64))))
  else
    String (ascii_of_N (240 + n / 262144))
      (String (ascii_of_N (128 + (n / 4096) mod 64))
         (String (ascii_of_N (128 + (n / 64) mod 64)) (str1 (ascii_of_N (128 + n mod 64))))).

Definition simple_escape (e : ascii) : option ascii :=
  let n := code e in
  if (n =? 34)%N then Some char_dquote
  else if (n =? 92)%N then Some char_backslash
  else if (n =? 47)%N then Some "/"%char
  else if (n =? 98)%N then Some "008"%char
  else if (n =? 102)%N then Some "012"%char
  else if (n =? 110)%N then Some "010"%char
  else if (n =? 114)%N then Some "013"%char
  else if (n =? 116)%N then Some "009"%char
  else None.

Definition prepend (p : string) (r : option (string * string)) : option (string * string) :=
  match r with
  | Some (body, rest) => Some (p ++ body, rest)
  | None => None
  end.

(** The characters of a string literal after its opening quote, up to and
    including the closing quote; the result is the string denoted and the
    text that follows.  A high surrogate escape directly followed by a low
    surrogate escape denotes one supplementary code point. *)
Fixpoint parse_chars (s : string) : option (string * string) :=
  match s with
  | EmptyString => None
  | String c r =>
      if (code c =? 34)%N then Some (EmptyString, r)
      else if (code c =? 92)%N then
        match r with
        | EmptyString => None
        | String e r' =>
            match simple_escape e with
            | Some x => prepend (str1 x) (parse_chars r')
            | None =>
                if (code e =? 117)%N then
                  match r' with
                  | String h1 (String h2 (String h3 (String h4 r''))) =>
                      match hex4 h1 h2 h3 h4 with
                      | Some hi =>
                          if ((55296 <=? hi) && (hi <? 56320))%N then
                            match r'' with
                            | String b (String u (String l1 (String l2 (String l3 (String l4 r3))))) =>
                                match hex4 l1 l2 l3 l4 with
                                | Some lo =>
                                    if ((code b =? 92) && (code u =? 117)
                                        && (56320 <=? lo) && (lo <? 57344))%N
                                    then prepend
                                           (utf8 (65536 + (hi - 55296) * 1024 + (lo - 56320))%N)
                                           (parse_chars r3)
                                    else prepend (utf8 hi) (parse_chars r'')
                                | None => prepend (utf8 hi) (parse_chars r'')
                                end
                            | _ => prepend (utf8 hi) (parse_chars r'')
                            end
                          else prepend (utf8 hi) (parse_chars r'')
                      | None => None
                      end
                  | _ => None
                  end
                else None
            end
        end
      else if (code c <? 32)%N then None
      else prepend (str1 c) (parse_chars r)
  end.

Definition is_digit (c : ascii) : bool := ((48 <=? code c) && (code c <=? 57))%N.

Fixpoint parse_digits (acc : Z) (s : string) : Z * string :=
  match s with
  | String c rest =>
      if is_digit c then parse_digits (acc * 10 + Z.of_N (code c - 48)) rest
      else (acc, s)
  | EmptyString => (acc, s)
  end.

(** An integer literal: an optional minus sign, then either a single 0 or
    a non-zero digit followed by digits.  A fraction or an exponent after
    it is outside the integers of the embedding and is refused. *)
Definition parse_int (s : string) : option (Z * string) :=
  let after_digits (negative : bool) (t : string) : option (Z * string) :=
    match t with
    | String d rest =>
        if is_digit d then
          let '(n, rest') :=
            if (code d =? 48)%N then (0%Z, rest) else parse_digits (Z.of_N (code d - 48)) rest in
          match rest' with
          | String x _ =>
              if is_digit x || (code x =? 46)%N || (code x =? 101)%N || (code x =? 69)%N
              then None
              else Some (if negative then (- n)%Z else n, rest')
          | EmptyString => Some (if negative then (- n)%Z else n, rest')
          end
        else None
    | EmptyString => None
    end in
  match s with
  | String c rest => if (code c =? 45)%N then after_digits true rest else after_digits false s
  | EmptyString => None
  end.

(** [obj[key] = value] while an object literal is read: a repeated key
    keeps its first position and takes the last value. *)
Fixpoint set_field (key : string) (value : jsval) (fields : list (string * jsval))
  : list (string * jsval) :=
  match fields with
  | [] => [(key, value)]
  | (k, v) :: rest =>
      if String.eqb k key then (k, value) :: rest else (k, v) :: set_field key value rest
  end.

Definition expect (p : string) (s : string) : option string :=
  if String.prefix p s then Some (String.substring (String.length p) (String.length s) s)
  else None.

(** The recursive-descent reader: a value, the rest of the elements of an
    array after [[], the rest of the members of an object after [{]. *)
Fixpoint parse_value (fuel : nat) (s : string) : option (jsval * string) :=
  match fuel with
  | O => None
  | S fuel' =>
      match skip_space s with
      | EmptyString => None
      | String c rest as t =>
          if (code c =? 91)%N then
            match skip_space rest with
            | String c' rest' =>
                if (code c' =? 93)%N then Some (JArr [], rest')
                else match parse_elements fuel' [] rest with
                     | Some (items, after) => Some (JArr items, after)
                     | None => None
                     end
            | EmptyString => None
            end
          else if (code c =? 123)%N then
            match skip_space rest with
            | String c' rest' =>
                if (code c' =? 125)%N then Some (JObj [], rest')
                else match parse_members fuel' [] rest with
                     | Some (fields, after) => Some (JObj fields, after)
                     | None => None
                     end
            | EmptyString => None
            end
          else if (code c =? 34)%N then
            match parse_chars rest with
            | Some (str, after) => Some (JStr str, after)
            | None => None
            end
          else if (code c =? 116)%N then
            match expect "true" t with Some after => Some (JBool true, after) | None => None end
          else if (code c =? 102)%N then
            match expect "false" t with Some after => Some (JBool false, after) | None => None end
          else if (code c =? 110)%N then
            match expect "null" t with Some after => Some (JNull, after) | None => None end
          else
            match parse_int t with
            | Some (n, after) => Some (JNum n, after)
            | None => None
            end
      end
  end

with parse_elements (fuel : nat) (acc : list jsval) (s : string)
  : option (list jsval * string) :=
  match fuel with
  | O => None
  | S fuel' =>
      match parse_value fuel' s with
      | Some (v, after) =>
          match skip_space after with
          | String c rest =>
              if (code c =? 44)%N then parse_elements fuel' (acc ++ [v])%list rest
              else if (code c =? 93)%N then Some ((acc ++ [v])%list, rest)
              else None
          | EmptyString => None
          end
      | None => None
      end
  end

with parse_members (fuel : nat) (acc : list (string * jsval)) (s : string)
  : option (list (string * jsval) * string) :=
  match fuel with
  | O => None
  | S fuel' =>
      match skip_space s with
      | String q rest =>
          if (code q =? 34)%N then
            match parse_chars rest with
            | Some (key, after_key) =>
                match skip_space after_key with
                | String colon after_colon =>
                    if (code colon =? 58)%N then
                      match parse_value fuel' after_colon with
                      | Some (v, after) =>
                          match skip_space after with
                          | String c rest' =>
                              if (code c =? 44)%N
                              then parse_members fuel' (set_field key v acc) rest'
                              else if (code c =? 125)%N
                              then Some (set_field key v acc, rest')
                              else None
                          | EmptyString => None
                          end
                      | None => None
                      end
                    else None
                | EmptyString => None
                end
            | None => None
            end
          else None
      | EmptyString => None
      end
  end.

(** [JSON.parse(text)]; [None] is a SyntaxError.  Every nested call of the
    reader comes after at least one consumed character and costs at most
    two units of fuel, so twice the length of the text is enough. *)
Definition JSON_parse (text : string) : option jsval :=
  match parse_value (2 * String.length text + 2) text with
  | Some (v, rest) =>
      match skip_space rest with
      | EmptyString => Some v
      | _ => None
      end
  | None => None
  end.

(** The text of the elements of an array of strings, between the
    brackets. *)
Definition elements_text (a : list string) : string :=
  String.concat "," (map JSON_quote a).

(** Arrays and plain objects. *)
Definition is_container (v : jsval) : bool :=
  match v with JArr _ | JObj _ => true | _ => false end.

(* ===================================================================== *)
(** * utils/relations.ts: the irrelevance predicate *)
(* ===================================================================== *)

(** The three sets of claims that one chunk entails, contradicts or is
    neutral to, for one direction; and the pair of them that
    [getClaimSetsForChunk] builds. *)
Record RelSets : Type := {
  entailments : list string;
  contradictions : list string;
  neutrals : list string
}.

Record ClaimSets : Type := {
  gt : RelSets;
  response : RelSets
}.

(** [Math.max(0, Number(x) || 0)] on an optional count: an absent count
    converts to NaN, which [||] replaces by 0. *)
Definition clamp_count (x : option Z) : Z :=
  Z.max 0 (match x with Some n => n | None => 0 end).

Definition isIrrelevantFromCounts (gtEntailments gtNeutrals gtContradictions : option Z) : bool :=
  let e := clamp_count gtEntailments in
  let n := clamp_count gtNeutrals in
  let c := clamp_count gtContradictions in
  (e =? 0)%Z && (c =? 0)%Z && (0 <? n)%Z.

Definition isIrrelevantFromSets (sets : ClaimSets) : bool :=
  let e := List.length (entailments (gt sets)) in
  let n := List.length (neutrals (gt sets)) in
  let c := List.length (contradictions (gt sets)) in
  (e =? 0)%nat && (c =? 0)%nat && (0 <? n)%nat.

(* ===================================================================== *)
(** * components/QuestionInspector.tsx *)
(* ===================================================================== *)

(** [v.name] on a value that is not [undefined] or [null] (the code reads
    named properties of truthy values only). *)
Definition js_prop (v : jsval) (name : string) : jsval :=
  match v with
  | JObj fields => match assoc name fields with Some x => x | None => JUndefined end
  | JArr items =>
      if String.eqb name "length" then JNum (Z.of_nat (List.length items)) else JUndefined
  | JStr s =>
      if String.eqb name "length" then JNum (Z.of_nat (String.length s)) else JUndefined
  | _ => JUndefined
  end.

(** [v?.name] *)
Definition js_prop_opt (v : jsval) (name : string) : jsval :=
  if nullish v then JUndefined else js_prop v name.

(** [p.text ?? p.claim ?? p.content ?? p.value ?? last] *)
Definition text_field (p last : jsval) : jsval :=
  coalesce
    (coalesce
       (coalesce (coalesce (js_prop p "text") (js_prop p "claim")) (js_prop p "content"))
       (js_prop p "value"))
    last.

(** [typeof s === 'string' && s.trim().length > 0] *)
Definition is_claim_text (s : jsval) : bool :=
  match s with
  | JStr t => nonempty (trim t)
  | _ => false
  end.

Definition string_value (v : jsval) : string :=
  match v with JStr s => s | _ => EmptyString end.

(** The callback of [item.map(...)] for a tuple claim. *)
Definition tuple_part (p : jsval) : option jsval :=
  if typeof_string p then Some p
  else if truthy p && typeof_object p then Some (text_field p (JStr ""))
  else option_map JStr (String_of (coalesce p (JStr ""))).

(** The em dash separator of [parts.join(' — ')]. *)
Definition tuple_separator : string := " — ".

(** One turn of the loop [for (const item of raw)]: what it pushes to
    [out]; [None] when [String(cand)] throws. *)
Definition claims_of_item (item : jsval) : option (list jsval) :=
  match item with
  | JStr _ => Some [item]
  | JArr parts_raw =>
      match traverse tuple_part parts_raw with
      | Some mapped =>
          let parts := filter is_claim_text mapped in
          Some (if (0 <? List.length parts)%nat
                then [JStr (String.concat tuple_separator (map string_value parts))]
                else [])
      | None => None
      end
  | _ =>
      if truthy item && typeof_object item then
        let cand := text_field item JNull in
        if negb (nullish cand)
        then option_map (fun text => [JStr text]) (String_of cand)
        else Some []
      else Some []
  end.

(** The array case of [extractClaims]: the loop, then the final filter. *)
Definition extractClaims_array (raw : list jsval) : option (list string) :=
  option_map (fun out => map string_value (filter is_claim_text out))
             (flat_traverse claims_of_item raw).

(** The text looks like a JSON array or object. *)
Definition bracketed (trimmed : string) : bool :=
  startsWith "[" trimmed && endsWith_char "]" trimmed
  || startsWith "{" trimmed && endsWith_char "}" trimmed.

(** [extractClaims], with the depth of its recursion bounded by [fuel];
    [None] means that the fuel ran out.  The body is wrapped in
    [try { ... } catch { return []; }]: the one statement of the body that
    can throw is [String(cand)] in the array case, and the call then
    returns no claim. *)
Fixpoint extractClaims_fuel (fuel : nat) (raw : jsval) : option (list string) :=
  match fuel with
  | O => None
  | S fuel' =>
      if negb (truthy raw) then Some []
      else if typeof_object raw && negb (Array_isArray raw)
              && Array_isArray (js_prop raw "claims")
      then extractClaims_fuel fuel' (js_prop raw "claims")
      else
        match raw with
        | JArr items =>
            Some (match extractClaims_array items with
                  | Some claims => claims
                  | None => []
                  end)
        | JStr s =>
            let trimmed := trim s in
            match (if bracketed trimmed then JSON_parse trimmed else None) with
            | Some parsed => extractClaims_fuel fuel' parsed
            | None =>
                if includes_newline trimmed
                then Some (filter nonempty (map trim (split_newline trimmed)))
                else Some []
            end
        | _ => Some []
        end
  end.

(** A text that starts with a bracket parses to an array or an object, and
    the [claims] property that is followed is an array: three levels of
    calls are all that [extractClaims] ever makes (see
    [extractClaims_fuel_enough]). *)
Definition extractClaims (raw : jsval) : list string :=
  match extractClaims_fuel 3 raw with
  | Some claims => claims
  | None => []
  end.

(** The first of the listed properties of the question that is not
    [undefined] or [null]. *)
Definition gtClaimsList (question : jsval) : list string :=
  extractClaims
    (coalesce
       (coalesce
          (coalesce
             (coalesce (js_prop_opt question "gt_answer_claims")
                       (js_prop_opt question "gt_claims"))
             (js_prop_opt question "ground_truth_claims"))
          (js_prop_opt (js_prop_opt question "gt_answer") "claims"))
       (js_prop_opt (js_prop_opt question "ground_truth") "claims")).

Definition responseClaimsList (question : jsval) : list string :=
  extractClaims
    (coalesce
       (coalesce
          (coalesce (js_prop_opt question "response_claims")
                    (js_prop_opt question "resp_claims"))
          (js_prop_opt question "answer_claims"))
       (js_prop_opt (js_prop_opt question "response") "claims")).

Inductive ClaimStatus : Type := entailed | neutral | contradiction.

(** The status that a string form stands for. *)
Definition status_of_text (text : string) : ClaimStatus :=
  let s := toLowerCase text in
  if String.eqb s "entailment" then entailed
  else if String.eqb s "contradiction" then contradiction
  else neutral.

(** [mapRelToStatus]; [None] when [String(rel ?? '')] throws. *)
Definition mapRelToStatus (rel : jsval) : option ClaimStatus :=
  option_map status_of_text (String_of (coalesce rel (JStr ""))).

(** [Array.isArray(raw) ? raw[0] : raw] *)
Definition first_cell (raw : jsval) : jsval :=
  match raw with
  | JArr cells => arr_get cells 0
  | _ => raw
  end.

Definition array_or_empty (v : jsval) : list jsval :=
  match v with JArr items => items | _ => [] end.

(** [mapDirectStatuses]: the loop over [i < targetLen]; it throws when
    [mapRelToStatus] does, and nothing is returned then. *)
Definition mapDirectStatuses (relations : jsval) (targetLen : nat)
  : option (list ClaimStatus) :=
  let arr := array_or_empty relations in
  traverse (fun i => mapRelToStatus (first_cell (arr_get arr (Z.of_nat i))))
           (seq 0 targetLen).

(** [try { return mapDirectStatuses(...); } catch { return gtClaimsList.map(() => 'neutral'); }] *)
Definition gtClaimStatuses (question : jsval) : list ClaimStatus :=
  match mapDirectStatuses (js_prop_opt question "response2answer")
                          (List.length (gtClaimsList question)) with
  | Some statuses => statuses
  | None => map (fun _ => neutral) (gtClaimsList question)
  end.

Definition respClaimStatuses (question : jsval) : list ClaimStatus :=
  match mapDirectStatuses (js_prop_opt question "answer2response")
                          (List.length (responseClaimsList question)) with
  | Some statuses => statuses
  | None => map (fun _ => neutral) (responseClaimsList question)
  end.

Inductive ChunkStatus : Type := relevant | irrelevant | harming.

Definition chunkStatusForSets (sets : ClaimSets) : ChunkStatus :=
  let ent := List.length (entailments (gt sets)) in
  let con := List.length (contradictions (gt sets)) in
  if (0 <? con)%nat then harming
  else if (0 <? ent)%nat then relevant
  else irrelevant.

Inductive UsageStatus : Type := grounded | unused | contradicting.

Definition usageStatusForSets (sets : ClaimSets) : UsageStatus :=
  let ent := List.length (entailments (response sets)) in
  let con := List.length (contradictions (response sets)) in
  if (0 <? con)%nat then contradicting
  else if (0 <? ent)%nat then grounded
  else unused.

Definition empty_sets : RelSets :=
  {| entailments := []; contradictions := []; neutrals := [] |}.

(** The helper [pushByRel]: the claim is added to the set that the relation
    names; nothing is added for an empty claim or a falsy relation, nor
    for any other value of the relation. *)
Definition pushByRel (target : RelSets) (rel : jsval) (claim : string) : RelSets :=
  if negb (nonempty claim) || negb (truthy rel) then target
  else if strict_eq rel (JStr "Entailment") then
    {| entailments := entailments target ++ [claim];
       contradictions := contradictions target;
       neutrals := neutrals target |}
  else if strict_eq rel (JStr "Contradiction") then
    {| entailments := entailments target;
       contradictions := contradictions target ++ [claim];
       neutrals := neutrals target |}
  else if strict_eq rel (JStr "Neutral") then
    {| entailments := entailments target;
       contradictions := contradictions target;
       neutrals := neutrals target ++ [claim] |}
  else target.

(** [Array.isArray(question.retrieved_context) ? question.retrieved_context.length : 0] *)
Definition chunkCountOf (question : jsval) : nat :=
  List.length (array_or_empty (js_prop question "retrieved_context")).

(** One of the two loops of [getClaimSetsForChunk]: the relation of the
    chunk to each claim in turn, pushed by [pushByRel]. *)
Definition collect_sets (matrix : jsval) (chunkIndex : Z) (chunkCount : nat)
    (claims : list string) : RelSets :=
  fold_left
    (fun target i =>
       let rel := relAt matrix chunkIndex (Z.of_nat i)
                        (JNum (Z.of_nat chunkCount))
                        (JNum (Z.of_nat (List.length claims))) in
       pushByRel target rel (nth i claims EmptyString))
    (seq 0 (List.length claims))
    empty_sets.

(** [Array.isArray(question.retrieved2answer) ? question.retrieved2answer : []]
    and the same for [retrieved2response]. *)
Definition r2a_of (question : jsval) : jsval :=
  JArr (array_or_empty (js_prop question "retrieved2answer")).

Definition r2r_of (question : jsval) : jsval :=
  JArr (array_or_empty (js_prop question "retrieved2response")).

Definition getClaimSetsForChunk (question : jsval) (chunkIndex : Z) : ClaimSets :=
  let gtClaims := gtClaimsList question in
  let respClaims := responseClaimsList question in
  let r2a := r2a_of question in
  let r2r := r2r_of question in
  let chunkCount := chunkCountOf question in
  {| gt := collect_sets r2a chunkIndex chunkCount gtClaims;
     response := collect_sets r2r chunkIndex chunkCount respClaims |}.

(** The six counters of the chunk summary row. *)
Record ChunkSummary : Type := {
  sum_rel : nat;
  sum_irr : nat;
  sum_harm : nat;
  sum_grounded : nat;
  sum_unused : nat;
  sum_respContr : nat
}.

Definition bump (c : bool) (n : nat) : nat := if c then S n else n.

Definition summary_step (question : jsval) (acc : ChunkSummary) (idx : nat) : ChunkSummary :=
  let sets := getClaimSetsForChunk question (Z.of_nat idx) in
  let isIrrelevant := isIrrelevantFromSets sets in
  {| sum_rel := bump (0 <? List.length (entailments (gt sets)))%nat (sum_rel acc);
     sum_irr := bump isIrrelevant (sum_irr acc);
     sum_harm := bump (0 <? List.length (contradictions (gt sets)))%nat (sum_harm acc);
     sum_grounded := bump (0 <? List.length (entailments (response sets)))%nat (sum_grounded acc);
     sum_unused := bump (List.length (entailments (response sets)) =? 0)%nat (sum_unused acc);
     sum_respContr :=
       bump (0 <? List.length (contradictions (response sets)))%nat (sum_respContr acc) |}.

(** [question.retrieved_context.forEach((_, idx) => ...)] over the six
    counters, all starting at 0. *)
Definition chunkSummary (question : jsval) : ChunkSummary :=
  fold_left (summary_step question) (seq 0 (chunkCountOf question))
    {| sum_rel := 0; sum_irr := 0; sum_harm := 0;
       sum_grounded := 0; sum_unused := 0; sum_respContr := 0 |}.

(** The six chunk filter toggles and the six flags of one chunk have the
    same fields. *)
Record ChunkFlags : Type := {
  is_relevant : bool;
  is_irrelevant : bool;
  is_harming : bool;
  is_grounded : bool;
  is_unused : bool;
  is_contradicting : bool
}.

Definition chunkStatus_eqb (a b : ChunkStatus) : bool :=
  match a, b with
  | relevant, relevant | irrelevant, irrelevant | harming, harming => true
  | _, _ => false
  end.

Definition flagsForSets (sets : ClaimSets) : ChunkFlags :=
  let status := chunkStatusForSets sets in
  {| is_relevant := chunkStatus_eqb status relevant;
     is_irrelevant := chunkStatus_eqb status irrelevant;
     is_harming := chunkStatus_eqb status harming;
     is_grounded := (0 <? List.length (entailments (response sets)))%nat;
     is_unused := (List.length (entailments (response sets)) =? 0)%nat;
     is_contradicting := (0 <? List.length (contradictions (response sets)))%nat |}.

Definition hidden (chunkFilters flags : ChunkFlags) : bool :=
  negb (is_relevant chunkFilters) && is_relevant flags
  || negb (is_irrelevant chunkFilters) && is_irrelevant flags
  || negb (is_harming chunkFilters) && is_harming flags
  || negb (is_grounded chunkFilters) && is_grounded flags
  || negb (is_unused chunkFilters) && is_unused flags
  || negb (is_contradicting chunkFilters) && is_contradicting flags.

(** [relationAt(r2r, j, i, chunkCount, claimCount)] as the response claim
    list computes it: the relation of chunk [j] to response claim [i]. *)
Definition responseRelation (question : jsval) (j i : nat) : jsval :=
  let r2r := r2r_of question in
  let chunkCount := chunkCountOf question in
  let claimCount := List.length (responseClaimsList question) in
  relAt r2r (Z.of_nat j) (Z.of_nat i)
        (JNum (Z.of_nat chunkCount)) (JNum (Z.of_nat claimCount)).

(** [String(rel || '').toLowerCase() === 'entailment']; [None] when
    [String] throws. *)
Definition reads_entailment (rel : jsval) : option bool :=
  option_map (fun text => String.eqb (toLowerCase text) "entailment")
             (String_of (js_or rel (JStr ""))).

(** The loop [for (let j = 0; j < chunkCount; j++)] over the chunks [js]
    that are left: it stops with [true] at the first chunk whose relation
    reads 'entailment', and it throws when [String] does on the way. *)
Fixpoint scan_support (relation : nat -> jsval) (js : list nat) : option bool :=
  match js with
  | [] => Some false
  | j :: rest =>
      match reads_entailment (relation j) with
      | Some true => Some true
      | Some false => scan_support relation rest
      | None => None
      end
  end.

(** The scan over the chunks for response claim [i]: is there a chunk whose
    relation to the claim reads 'entailment' once lower-cased?  The scan is
    part of the rendering of the claim and nothing catches what it
    throws. *)
Definition supportedByChunk (question : jsval) (i : nat) : option bool :=
  scan_support (fun j => responseRelation question j i) (seq 0 (chunkCountOf question)).

Definition claimStatus_eqb (a b : ClaimStatus) : bool :=
  match a, b with
  | entailed, entailed | neutral, neutral | contradiction, contradiction => true
  | _, _ => false
  end.

(** The two tags of a rendered response claim; [None] when the scan
    threw and the claim is not rendered. *)
Definition showSelfKnowledge (question : jsval) (i : nat) : option bool :=
  let status := nth i (respClaimStatuses question) neutral in
  option_map (fun supported => claimStatus_eqb status entailed && negb supported)
             (supportedByChunk question i).

Definition showHallucination (question : jsval) (i : nat) : option bool :=
  let status := nth i (respClaimStatuses question) neutral in
  option_map (fun supported => negb (claimStatus_eqb status entailed) && negb supported)
             (supportedByChunk question i).

(** A question with one retrieved chunk and one ground-truth claim, and
    no relation matrix at all. *)
Definition question_unresolved : jsval :=
  JObj [ ("retrieved_context", JArr [JObj [("doc_id", JStr "d1"); ("text", JStr "t")]]);
         ("gt_claims", JArr [JStr "the sky is blue"]) ].

(** A question with one chunk and one response claim that the chunk
    contradicts. *)
Definition question_conflict : jsval :=
  JObj [ ("retrieved_context", JArr [JObj [("doc_id", JStr "d1"); ("text", JStr "t")]]);
         ("response_claims", JArr [JStr "the sky is green"]);
         ("retrieved2response", JArr [JArr [JStr "Contradiction"]]) ].

(** Claim sets of a chunk that both entails and contradicts ground-truth
    claims. *)
Definition sets_mixed : ClaimSets :=
  {| gt := {| entailments := ["a"]; contradictions := ["b"]; neutrals := ["c"] |};
     response := empty_sets |}.

Definition sets_neutral_only : ClaimSets :=
  {| gt := {| entailments := []; contradictions := []; neutrals := ["c"] |};
     response := empty_sets |}.

(** Relation lists of two ground-truth claims: the first list has a
    neutral first cell and an entailing second cell. *)
Definition relations_late_entailment : jsval :=
  JArr [JArr [Neutral; Entailment]; JArr [Contradiction; Entailment]].

(** An object that [String] cannot convert: its own [toString] property
    is not a function. *)
Definition own_toString_object : jsval := JObj [("toString", JNum 1)].

(** Relation lists of two ground-truth claims: the first claim is
    entailed, the entry of the second one is an object that [String]
    cannot convert; and a question that has them. *)
Definition relations_unconvertible : jsval :=
  JArr [JArr [Entailment]; own_toString_object].

Definition question_unconvertible : jsval :=
  JObj [ ("gt_claims", JArr [JStr "first claim"; JStr "second claim"]);
         ("response2answer", relations_unconvertible) ].

(** Two chunks and one response claim: the relation of the first chunk is
    an object that [String] cannot convert, the second chunk entails the
    claim. *)
Definition question_scan_throws : jsval :=
  JObj [ ("retrieved_context",
          JArr [JObj [("doc_id", JStr "d1"); ("text", JStr "t")];
                JObj [("doc_id", JStr "d2"); ("text", JStr "u")]]);
         ("response_claims", JArr [JStr "the sky is blue"]);
         ("retrieved2response", JArr [JArr [own_toString_object]; JArr [Entailment]]) ].

(** The claim's words 'in any casing': [s] is the word [label], written in
    lower-case ASCII letters, with any of its letters in upper case. *)
Definition letter_in_any_case (lower c : ascii) : bool :=
  Ascii.eqb c lower
  || ((97 <=? code lower) && (code lower <=? 122) && (code c + 32 =? code lower))%N.

Fixpoint in_any_casing (label s : string) : bool :=
  match label, s with
  | EmptyString, EmptyString => true
  | String l label', String c s' => letter_in_any_case l c && in_any_casing label' s'
  | _, _ => false
  end.

(** A count that clamps to 0: absent, zero or negative. *)
Definition clamps_to_zero (x : option Z) : Prop :=
  match x with
  | Some n => (n <= 0)%Z
  | None => True
  end.

(** The number of chunks of the question whose claim sets pass a test. *)
Definition count_chunks (question : jsval) (test : ClaimSets -> bool) : nat :=
  List.length
    (filter (fun idx => test (getClaimSetsForChunk question (Z.of_nat idx)))
            (seq 0 (chunkCountOf question))).

(** The disposition of a claim as the specification words it: 'entailed'
    if any cell of the relation list is Entailment, else 'contradiction' if
    any cell is Contradiction, else 'neutral'. *)
Definition spec_disposition (cells : list jsval) : ClaimStatus :=
  if existsb (fun x => strict_eq x Entailment) cells then entailed
  else if existsb (fun x => strict_eq x Contradiction) cells then contradiction
  else neutral.

(** The number of claims whose relation to the chunk, as [relAt] resolves
    it, passes a test. *)
Definition count_relation (matrix : jsval) (chunkIndex : Z) (chunkCount : nat)
    (claims : list string) (test : jsval -> bool) : nat :=
  List.length
    (filter (fun i => test (relAt matrix chunkIndex (Z.of_nat i)
                                  (JNum (Z.of_nat chunkCount))
                                  (JNum (Z.of_nat (List.length claims)))))
            (seq 0 (List.length claims))).

Definition is_label (label : string) (rel : jsval) : bool := strict_eq rel (JStr label).

(** The neutral count as the specification words it: a relation that is
    Neutral or unresolved counts as neutral. *)
Definition spec_neutral_or_unknown (rel : jsval) : bool :=
  is_label "Neutral" rel || strict_eq rel JUndefined.

(** A question whose only chunk is related to its only response claim by
    an upper-case label. *)
Definition question_uppercase : jsval :=
  JObj [ ("retrieved_context", JArr [JObj [("doc_id", JStr "d1"); ("text", JStr "t")]]);
         ("response_claims", JArr [JStr "the sky is blue"]);
         ("retrieved2response", JArr [JArr [JStr "ENTAILMENT"]]) ].

(* ===================================================================== *)
(** * components/ClaimChunkOverlay.tsx *)
(* ===================================================================== *)

Inductive Column : Type := col_gt | col_chunk | col_resp.

Definition Column_eqb (a b : Column) : bool :=
  match a, b with
  | col_gt, col_gt | col_chunk, col_chunk | col_resp, col_resp => true
  | _, _ => false
  end.

(** An end of a connector: [{ col, index }]. *)
Record NodeRef : Type := {
  col : Column;
  index : Z
}.

Inductive PathKind : Type := gtChunk | chunkResp.

(** A connector.  Of the fields of [ConnPath] the path data, the stroke,
    the width, the label and the tooltip are geometry and styling that no
    selector reads; they are left out.  [src] and [dst] are optional in the
    type. *)
Record ConnPath : Type := {
  kind : PathKind;
  rel : jsval;
  src : option NodeRef;
  dst : option NodeRef
}.

(** [p.src?.col === c && p.src.index === i], and the same for [dst]. *)
Definition end_is (e : option NodeRef) (c : Column) (i : Z) : bool :=
  match e with
  | Some n => Column_eqb (col n) c && (index n =? i)%Z
  | None => false
  end.

(** [p.src?.col === c && s.has(p.src.index)] *)
Definition end_in (e : option NodeRef) (c : Column) (s : list Z) : bool :=
  match e with
  | Some n => Column_eqb (col n) c && existsb (Z.eqb (index n)) s
  | None => false
  end.

(** [pathsOut.map((p, idx) => test(p) ? idx : -1).filter(i => i >= 0)] *)
Definition indices_where (test : ConnPath -> bool) (pathsOut : list ConnPath) : list nat :=
  map fst (filter (fun ip => test (snd ip)) (combine (seq 0 (List.length pathsOut)) pathsOut)).

(** [e?.col === c ? e.index : -1] *)
Definition index_if (e : option NodeRef) (c : Column) : Z :=
  match e with
  | Some n => if Column_eqb (col n) c then index n else (-1)%Z
  | None => (-1)%Z
  end.

(** [pathsOut[i].dst] and [pathsOut[i].src] for an [i] taken from
    [indices_where]. *)
Definition dst_at (pathsOut : list ConnPath) (i : nat) : option NodeRef :=
  match nth_error pathsOut i with Some p => dst p | None => None end.

Definition src_at (pathsOut : list ConnPath) (i : nat) : option NodeRef :=
  match nth_error pathsOut i with Some p => src p | None => None end.

(** [Array.from(new Set(xs))]: the first occurrence of each element, in
    order. *)
Fixpoint set_order (seen xs : list nat) : list nat :=
  match xs with
  | [] => []
  | x :: rest =>
      if existsb (Nat.eqb x) seen then set_order seen rest
      else x :: set_order (x :: seen) rest
  end.

(** Hover over the ground-truth claim at position [gi] of [gtNodes]. *)
Definition selectForGT (pathsOut : list ConnPath) (gi : nat) : list nat :=
  let direct := indices_where (fun p => end_is (src p) col_gt (Z.of_nat gi)) pathsOut in
  let chunkIdxs :=
    filter (fun v => (0 <=? v)%Z)
           (map (fun i => index_if (dst_at pathsOut i) col_chunk) direct) in
  let chain := indices_where (fun p => end_in (src p) col_chunk chunkIdxs) pathsOut in
  set_order [] (direct ++ chain).

(** Hover over the chunk whose matrix index is [matrixIdx]. *)
Definition selectForChunk (pathsOut : list ConnPath) (matrixIdx : Z) : list nat :=
  indices_where
    (fun p => end_is (src p) col_chunk matrixIdx || end_is (dst p) col_chunk matrixIdx)
    pathsOut.

(** Hover over the response claim at position [ri] of [respNodes]. *)
Definition selectForResp (pathsOut : list ConnPath) (ri : nat) : list nat :=
  let direct := indices_where (fun p => end_is (dst p) col_resp (Z.of_nat ri)) pathsOut in
  let chunkIdxs :=
    filter (fun v => (0 <=? v)%Z)
           (map (fun i => index_if (src_at pathsOut i) col_chunk) direct) in
  let chain := indices_where (fun p => end_in (dst p) col_chunk chunkIdxs) pathsOut in
  set_order [] (direct ++ chain).

(** The hovered node, by column and index, and the selector that
    [attachHover] registered for it. *)
Definition hoverSelect (pathsOut : list ConnPath) (c : Column) (i : nat) : list nat :=
  match c with
  | col_gt => selectForGT pathsOut i
  | col_chunk => selectForChunk pathsOut (Z.of_nat i)
  | col_resp => selectForResp pathsOut i
  end.

Definition node (c : Column) (i : Z) : NodeRef := {| col := c; index := i |}.

Definition edge (k : PathKind) (r : jsval) (c1 : Column) (i1 : Z) (c2 : Column) (i2 : Z)
  : ConnPath :=
  {| kind := k; rel := r; src := Some (node c1 i1); dst := Some (node c2 i2) |}.

(** A rendered list item is known by its [data-...-index] attribute; when
    the attribute is missing its position in the list stands in:
    [attr != null ? parseInt(attr, 10) : visIdx]. *)
Definition item_index (attr : option Z) (visIdx : nat) : Z :=
  match attr with
  | Some a => a
  | None => Z.of_nat visIdx
  end.

Definition with_positions {A : Type} (items : list A) : list (nat * A) :=
  combine (seq 0 (List.length items)) items.

(** [!rel || rel === 'Neutral']: no connector is drawn. *)
Definition skipped (r : jsval) : bool := negb (truthy r) || strict_eq r Neutral.

(** One turn of an inner loop of [compute]: nothing for a skipped
    relation, else the connector that is pushed.  Its label and its tooltip
    convert the relation with [String], which throws on a relation that
    cannot be converted ([None]). *)
Definition connector (k : PathKind) (r : jsval) (c1 : Column) (i1 : Z) (c2 : Column) (i2 : Z)
  : option (list ConnPath) :=
  if skipped r then Some []
  else match String_of r with
       | Some _ => Some [edge k r c1 i1 c2 i2]
       | None => None
       end.

(** [Array.isArray(question.retrieved_context) ? question.retrieved_context.length
    : chunkNodes.length], the chunk count that [compute] hands to [relAt]. *)
Definition totalChunkCount (question : jsval) (chunkNodes : list (option Z)) : nat :=
  match js_prop question "retrieved_context" with
  | JArr chunks => List.length chunks
  | _ => List.length chunkNodes
  end.

(** The relation that [compute] resolves for a rendered ground-truth claim
    and a rendered chunk, each given with its position in its list, and the
    one for a rendered response claim and a rendered chunk, which is
    resolved without a claim count. *)
Definition gtChunkRelation (question : jsval) (gtNodes chunkNodes : list (option Z))
    (g ch : nat * option Z) : jsval :=
  relAt (r2a_of question) (item_index (snd ch) (fst ch)) (item_index (snd g) (fst g))
        (JNum (Z.of_nat (totalChunkCount question chunkNodes)))
        (JNum (Z.of_nat (List.length gtNodes))).

Definition chunkRespRelation (question : jsval) (chunkNodes : list (option Z))
    (rn ch : nat * option Z) : jsval :=
  relAt (r2r_of question) (item_index (snd ch) (fst ch)) (item_index (snd rn) (fst rn))
        (JNum (Z.of_nat (totalChunkCount question chunkNodes))) JUndefined.

(** The two loops of [compute] that fill [pathsOut]: for every rendered
    ground-truth claim and every rendered chunk, then for every rendered
    response claim and every rendered chunk.  Nothing catches an exception
    of the loops: [setPaths] is not reached then ([None]). *)
Definition buildPaths (question : jsval) (gtNodes chunkNodes respNodes : list (option Z))
  : option (list ConnPath) :=
  match
    flat_traverse
      (fun g =>
         flat_traverse
           (fun ch =>
              connector gtChunk (gtChunkRelation question gtNodes chunkNodes g ch)
                        col_gt (item_index (snd g) (fst g))
                        col_chunk (item_index (snd ch) (fst ch)))
           (with_positions chunkNodes))
      (with_positions gtNodes)
  with
  | Some gtPaths =>
      match
        flat_traverse
          (fun rn =>
             flat_traverse
               (fun ch =>
                  connector chunkResp (chunkRespRelation question chunkNodes rn ch)
                            col_chunk (item_index (snd ch) (fst ch))
                            col_resp (item_index (snd rn) (fst rn)))
               (with_positions chunkNodes))
          (with_positions respNodes)
      with
      | Some respPaths => Some (gtPaths ++ respPaths)%list
      | None => None
      end
  | None => None
  end.

(** A rendered list from which no item was filtered out: every item is at
    the position that its index attribute names. *)
Definition unfiltered (nodes : list (option Z)) : Prop :=
  forall pos attr, nth_error nodes pos = Some attr -> item_index attr pos = Z.of_nat pos.

(** The edges that hovering the ground-truth claim [g] selects: the edges
    that leave the claim, and the edges that leave a chunk which one of
    those enters. *)
Definition selected_from_gt (pathsOut : list ConnPath) (g : nat) (p : ConnPath) : Prop :=
  src p = Some (node col_gt (Z.of_nat g))
  \/ exists d c,
       In d pathsOut /\ src d = Some (node col_gt (Z.of_nat g))
       /\ dst d = Some (node col_chunk c) /\ (0 <= c)%Z
       /\ src p = Some (node col_chunk c).

(** The edges that hovering the chunk [c] selects: the edges at the
    chunk. *)
Definition selected_from_chunk (c : nat) (p : ConnPath) : Prop :=
  src p = Some (node col_chunk (Z.of_nat c)) \/ dst p = Some (node col_chunk (Z.of_nat c)).

(** The edges that hovering the response claim [r] selects: the edges that
    enter the claim, and the edges that enter a chunk which one of those
    leaves. *)
Definition selected_from_resp (pathsOut : list ConnPath) (r : nat) (p : ConnPath) : Prop :=
  dst p = Some (node col_resp (Z.of_nat r))
  \/ exists d c,
       In d pathsOut /\ dst d = Some (node col_resp (Z.of_nat r))
       /\ src d = Some (node col_chunk c) /\ (0 <= c)%Z
       /\ dst p = Some (node col_chunk c).

(** The two-hop neighbourhood as the specification words it: the edges
    that touch the hovered node, and the edges that touch a node at the
    other end of one of those. *)
Definition NodeRef_eqb (a b : NodeRef) : bool :=
  Column_eqb (col a) (col b) && (index a =? index b)%Z.

Definition touches (p : ConnPath) (n : NodeRef) : bool :=
  end_is (src p) (col n) (index n) || end_is (dst p) (col n) (index n).

Definition ends_of (p : ConnPath) : list NodeRef :=
  (match src p with Some n => [n] | None => [] end)
  ++ (match dst p with Some n => [n] | None => [] end).

Definition one_hop_nodes (pathsOut : list ConnPath) (n : NodeRef) : list NodeRef :=
  flat_map ends_of (filter (fun p => touches p n) pathsOut).

Definition spec_two_hop (pathsOut : list ConnPath) (c : Column) (i : nat) : list nat :=
  let n := {| col := c; index := Z.of_nat i |} in
  indices_where
    (fun p => touches p n || existsb (touches p) (one_hop_nodes pathsOut n))
    pathsOut.

(** One ground-truth claim that two chunks entail, and the connectors that
    [buildPaths] draws for it (see [paths_fan_built]). *)
Definition question_fan : jsval :=
  JObj [ ("retrieved_context",
          JArr [JObj [("doc_id", JStr "d1"); ("text", JStr "t")];
                JObj [("doc_id", JStr "d2"); ("text", JStr "u")]]);
         ("gt_claims", JArr [JStr "the claim"]);
         ("retrieved2answer", JArr [JArr [Entailment]; JArr [Entailment]]) ].

Definition paths_fan : list ConnPath :=
  [ edge gtChunk Entailment col_gt 0 col_chunk 0;
    edge gtChunk Entailment col_gt 0 col_chunk 1 ].

(** One chunk that is neutral to the first ground-truth claim and entails
    the second one. *)
Definition question_two_claims : jsval :=
  JObj [ ("retrieved_context", JArr [JObj [("doc_id", JStr "d1"); ("text", JStr "t")]]);
         ("gt_claims", JArr [JStr "first claim"; JStr "second claim"]);
         ("retrieved2answer", JArr [JArr [Neutral; Entailment]]) ].

(* ===================================================================== *)
(** * More of components/QuestionInspector.tsx *)
(* ===================================================================== *)

(** A [Set<number>] in insertion order: [has], [delete] and [add]. *)
Definition set_has (s : list nat) (x : nat) : bool := existsb (Nat.eqb x) s.

Definition set_delete (s : list nat) (x : nat) : list nat :=
  filter (fun y => negb (Nat.eqb y x)) s.

Definition set_add (s : list nat) (x : nat) : list nat :=
  if set_has s x then s else (s ++ [x])%list.

(** The state update of [toggleChunkExpanded]:
    [next = new Set(prev); if (next.has(idx)) next.delete(idx); else next.add(idx)]. *)
Definition toggleChunkExpanded (prev : list nat) (idx : nat) : list nat :=
  if set_has prev idx then set_delete prev idx else set_add prev idx.

(** The counters [{ entailed, neutral, contradiction }] that [gtCounts] and
    [respCounts] fill with [statuses.forEach(s => counts[s] += 1)]. *)
Record StatusCounts : Type := {
  n_entailed : nat;
  n_neutral : nat;
  n_contradiction : nat
}.

Definition count_status (counts : StatusCounts) (s : ClaimStatus) : StatusCounts :=
  match s with
  | entailed =>
      {| n_entailed := S (n_entailed counts); n_neutral := n_neutral counts;
         n_contradiction := n_contradiction counts |}
  | neutral =>
      {| n_entailed := n_entailed counts; n_neutral := S (n_neutral counts);
         n_contradiction := n_contradiction counts |}
  | contradiction =>
      {| n_entailed := n_entailed counts; n_neutral := n_neutral counts;
         n_contradiction := S (n_contradiction counts) |}
  end.

Definition countStatuses (statuses : list ClaimStatus) : StatusCounts :=
  fold_left count_status statuses
    {| n_entailed := 0; n_neutral := 0; n_contradiction := 0 |}.

Definition gtCounts (question : jsval) : StatusCounts :=
  countStatuses (gtClaimStatuses question).

Definition respCounts (question : jsval) : StatusCounts :=
  countStatuses (respClaimStatuses question).

(** The three toggles of a claim filter, and the test that drops a claim
    from the rendered list:
    [(status === 'entailed' && !f.entailed) || (status === 'neutral' && !f.neutral)
     || (status === 'contradiction' && !f.contradiction)]. *)
Record ClaimFilters : Type := {
  show_entailed : bool;
  show_neutral : bool;
  show_contradiction : bool
}.

Definition claimFilteredOut (filters : ClaimFilters) (status : ClaimStatus) : bool :=
  claimStatus_eqb status entailed && negb (show_entailed filters)
  || claimStatus_eqb status neutral && negb (show_neutral filters)
  || claimStatus_eqb status contradiction && negb (show_contradiction filters).

(** The claims that [claims.map((c, i) => ...)] renders: the indices whose
    status passes the filter, in order.  Each rendered item carries its
    index in its [data-...-claim-index] attribute. *)
Definition renderedClaims (filters : ClaimFilters) (statuses : list ClaimStatus) : list nat :=
  filter (fun i => negb (claimFilteredOut filters (nth i statuses neutral)))
         (seq 0 (List.length statuses)).

(** The claims of a list whose relation to the chunk, as [relAt] resolves
    it, is exactly the given label, in the order of the list. *)
Definition claims_labelled (matrix : jsval) (chunkIndex : Z) (chunkCount : nat)
    (claims : list string) (label : string) : list string :=
  map (fun i => nth i claims EmptyString)
      (filter (fun i => is_label label (relAt matrix chunkIndex (Z.of_nat i)
                                              (JNum (Z.of_nat chunkCount))
                                              (JNum (Z.of_nat (List.length claims)))))
              (seq 0 (List.length claims))).

(** One of the three labels, exactly as written. *)
Definition known_label (r : jsval) : bool :=
  is_label "Entailment" r || is_label "Contradiction" r || is_label "Neutral" r.

(* ===================================================================== *)
(** * More of components/ClaimChunkOverlay.tsx *)
(* ===================================================================== *)

(** The effect that highlights the items at the ends of the hovered
    connectors: [indices = new Set(hoverPathSet)], plus [hoverIdx] when a
    connector itself is hovered; for each index with a path, its source is
    marked, then its destination. *)
Definition highlightTargets (paths : list ConnPath) (hoverIdx : option nat)
    (hoverPathSet : list nat) : list NodeRef :=
  let indices :=
    set_order [] (hoverPathSet ++ match hoverIdx with Some i => [i] | None => [] end)%list in
  flat_map (fun idx => match nth_error paths idx with
                       | Some p => ends_of p
                       | None => []
                       end) indices.

(** The pairs of a rendered claim and a rendered chunk for which a
    connector is drawn, in the order of the loops: those whose relation is
    not skipped. *)
Definition drawn_pairs (relation : nat * option Z -> nat * option Z -> jsval)
    (claimNodes chunkNodes : list (option Z)) : list ((nat * option Z) * (nat * option Z)) :=
  filter (fun pair => negb (skipped (relation (fst pair) (snd pair))))
         (list_prod (with_positions claimNodes) (with_positions chunkNodes)).

(** A relation matrix all of whose cells are 'Neutral'; the rows need not
    have the same length, and an entry that is not a row is ignored. *)
Definition neutral_matrix (m : list jsval) : Prop :=
  forall cells x, In (JArr cells) m -> In x cells -> x = Neutral.

(** Two chunks and two claims on each side, all of them neutral to each
    other. *)
Definition question_all_neutral : jsval :=
  JObj [ ("retrieved_context",
          JArr [JObj [("doc_id", JStr "d1"); ("text", JStr "t")];
                JObj [("doc_id", JStr "d2"); ("text", JStr "u")]]);
         ("gt_claims", JArr [JStr "first claim"; JStr "second claim"]);
         ("response_claims", JArr [JStr "an answer"; JStr "another answer"]);
         ("retrieved2answer", JArr [JArr [Neutral; Neutral]; JArr [Neutral; Neutral]]);
         ("retrieved2response", JArr [JArr [Neutral; Neutral]; JArr [Neutral; Neutral]]) ].

(* ===================================================================== *)
(** * The caller of [isIrrelevantFromCounts] in the chunk analysis *)
(* ===================================================================== *)

(** The three ground-truth counters of an enhanced chunk record, each
    stored as [Math.max(0, Number(raw) || 0)]. *)
Record GtCounters : Type := {
  gt_entailments : option Z;
  gt_neutrals : option Z;
  gt_contradictions : option Z
}.

Definition enhanceCounters (raw : GtCounters) : GtCounters :=
  {| gt_entailments := Some (clamp_count (gt_entailments raw));
     gt_neutrals := Some (clamp_count (gt_neutrals raw));
     gt_contradictions := Some (clamp_count (gt_contradictions raw)) |}.

(** [enhancedChunkData.filter(c => isIrrelevantFromCounts(c.gt_entailments,
    c.gt_neutrals, c.gt_contradictions)).length] *)
Definition notRelevantCount (enhancedChunkData : list GtCounters) : nat :=
  List.length
    (filter (fun c => isIrrelevantFromCounts (gt_entailments c) (gt_neutrals c)
                                             (gt_contradictions c))
            enhancedChunkData).

(** [Math.max(1, Math.min(Number(topN) || 20, 1000))] *)
Definition validTopN (topN : option Z) : Z :=
  let n := match topN with Some k => k | None => 0%Z end in
  Z.max 1 (Z.min (if (n =? 0)%Z then 20%Z else n) 1000).

Close Scope string_scope.
(* ===================================================================== *)
(** * Facts about [relAt] *)
(* ===================================================================== *)

Lemma arr_get_of_nat (items : list jsval) (i : nat) :
  arr_get items (Z.of_nat i) = nth i items JUndefined.
Proof.
  unfold arr_get.
  destruct (Z.ltb_spec (Z.of_nat i) 0) as [Hneg | _]; [lia |].
  now rewrite Nat2Z.id.
Qed.

Lemma arr_get_out (items : list jsval) (i : Z) :
  (i < 0 \/ Z.of_nat (List.length items) <= i)%Z -> arr_get items i = JUndefined.
Proof.
  intros Hout. unfold arr_get.
  destruct (Z.ltb_spec i 0) as [_ | Hpos]; [reflexivity |].
  apply nth_overflow. lia.
Qed.

Lemma row_in_range (rows : list (list jsval)) (i : Z) :
  (0 <= i < Z.of_nat (List.length rows))%Z ->
  arr_get (map JArr rows) i = JArr (nth (Z.to_nat i) rows []).
Proof.
  intros Hin. unfold arr_get.
  destruct (Z.ltb_spec i 0) as [Hneg | _]; [lia |].
  rewrite (nth_indep _ JUndefined (JArr [])) by (rewrite length_map; lia).
  apply (map_nth JArr).
Qed.

Lemma row_out_of_range (rows : list (list jsval)) (i : Z) :
  (i < 0 \/ Z.of_nat (List.length rows) <= i)%Z ->
  arr_get (map JArr rows) i = JUndefined.
Proof.
  intros Hout. apply arr_get_out. now rewrite length_map.
Qed.

(** Two chunks and three claims, rows as chunks, both counts given. *)
Example relAt_scenario_2x3 :
  relAt (matrix_of matrix_2x3) 1 2 (JNum 2) (JNum 3) = Entailment.
Proof. reflexivity. Qed.

(** Three claims as rows and only [claimCount] given: the second rule reads
    [m[claimIdx][chunkIdx]]. *)
Example relAt_scenario_3x2_only_claimCount :
  relAt (matrix_of (transpose 3 matrix_2x3)) 1 2 JUndefined (JNum 3) = Entailment.
Proof. reflexivity. Qed.

(** [relAt] on an array is the ordered fall-back chain: the first of the
    six guarded reads that succeeds gives the result. *)
Lemma relAt_chain (m : list jsval) (i j : Z) (cc kc : jsval) :
  relAt (JArr m) i j cc kc =
  first_some
    [ (outer_is m cc, read2 m i j);
      (outer_is m kc, read2 m j i);
      (first_len_is m kc, read2 m i j);
      (first_len_is m cc, read2 m j i);
      (longer_row m i j, read2 m i j);
      (longer_row m j i, read2 m j i) ].
Proof.
  unfold relAt, relAt_body, first_some, outer_is, first_len_is, longer_row, read2.
  cbn [Array_isArray negb return_if bind js_length js_index js_index_opt nullish
       call_catching find fst snd].
  destruct (typeof_number cc && strict_eq (JNum (Z.of_nat (List.length m))) cc);
    destruct (typeof_number kc && strict_eq (JNum (Z.of_nat (List.length m))) kc);
    destruct (arr_get m 0) as [| | | | | first |];
    destruct (arr_get m i) as [| | | | | rowi |];
    destruct (arr_get m j) as [| | | | | rowj |];
    cbn [Array_isArray negb return_if bind js_length js_index js_index_opt nullish
         call_catching find fst snd andb js_gt];
    try reflexivity;
    repeat match goal with
           | |- context [typeof_number ?c && strict_eq ?a ?c] =>
               destruct (typeof_number c && strict_eq a c)
           | |- context [(?a <? ?b)%Z] => destruct (a <? b)%Z
           end;
    reflexivity.
Qed.

(** The body of [relAt] always ends in a [return]: no statement of it
    throws, so the [catch] clause is never entered. *)
Lemma relAt_body_returns (matrix : jsval) (i j : Z) (cc kc : jsval) :
  relAt_body matrix i j cc kc = Return (relAt matrix i j cc kc).
Proof.
  unfold relAt, relAt_body.
  destruct matrix as [| | b | n | s | m | fields]; try reflexivity.
  cbn [Array_isArray negb return_if bind js_length js_index js_index_opt nullish].
  destruct (typeof_number cc && strict_eq (JNum (Z.of_nat (List.length m))) cc);
    destruct (typeof_number kc && strict_eq (JNum (Z.of_nat (List.length m))) kc);
    destruct (arr_get m 0) as [| | | | | first |];
    destruct (arr_get m i) as [| | | | | rowi |];
    destruct (arr_get m j) as [| | | | | rowj |];
    cbn [Array_isArray negb return_if bind js_length js_index js_index_opt nullish
         call_catching andb js_gt];
    try reflexivity;
    repeat match goal with
           | |- context [typeof_number ?c && strict_eq ?a ?c] =>
               destruct (typeof_number c && strict_eq a c)
           | |- context [(?a <? ?b)%Z] => destruct (a <? b)%Z
           end;
    reflexivity.
Qed.

Lemma relAt_not_array (matrix : jsval) (i j : Z) (cc kc : jsval) :
  Array_isArray matrix = false -> relAt matrix i j cc kc = JUndefined.
Proof.
  intros Hna. unfold relAt, relAt_body. now rewrite Hna.
Qed.

Section ShapedMatrix.

Variables (rows : list (list jsval)) (r c : nat).
Hypothesis Hshape : shaped r c rows.

Lemma shaped_row_length (a : nat) : a < r -> List.length (nth a rows []) = c.
Proof.
  destruct Hshape as [Hlen Hrows]. intros Ha.
  rewrite Forall_forall in Hrows. apply Hrows, nth_In. lia.
Qed.

Lemma read2_in_range (a b : Z) :
  (0 <= a < Z.of_nat r)%Z ->
  read2 (map JArr rows) a b = Some (arr_get (nth (Z.to_nat a) rows []) b).
Proof.
  destruct Hshape as [Hlen _]. intros Ha. unfold read2.
  now rewrite row_in_range by lia.
Qed.

Lemma read2_out_of_range (a b : Z) :
  (a < 0 \/ Z.of_nat r <= a)%Z -> read2 (map JArr rows) a b = None.
Proof.
  destruct Hshape as [Hlen _]. intros Ha. unfold read2.
  now rewrite row_out_of_range by lia.
Qed.

Lemma read2_cell (a b : nat) :
  a < r -> read2 (map JArr rows) (Z.of_nat a) (Z.of_nat b) = Some (cell rows a b).
Proof.
  intros Ha. rewrite read2_in_range by lia.
  now rewrite Nat2Z.id, arr_get_of_nat.
Qed.

Lemma read2_column_out (a b : Z) :
  (0 <= a < Z.of_nat r)%Z -> (b < 0 \/ Z.of_nat c <= b)%Z ->
  read2 (map JArr rows) a b = Some JUndefined.
Proof.
  intros Ha Hb. rewrite read2_in_range by assumption.
  rewrite arr_get_out; [reflexivity |].
  rewrite shaped_row_length by lia. exact Hb.
Qed.

Lemma outer_is_rows (n : nat) : outer_is (map JArr rows) (JNum (Z.of_nat n)) = (r =? n).
Proof.
  destruct Hshape as [Hlen _]. unfold outer_is. cbn.
  rewrite length_map, Hlen.
  destruct (Nat.eqb_spec r n) as [-> | Hne]; [apply Z.eqb_refl | apply Z.eqb_neq; lia].
Qed.

Lemma transpose_shaped : shaped c r (transpose c rows).
Proof.
  destruct Hshape as [Hlen _]. unfold shaped, transpose. split.
  - now rewrite length_map, length_seq.
  - apply Forall_forall. intros row Hin. apply in_map_iff in Hin.
    destruct Hin as [j [<- _]]. now rewrite length_map.
Qed.

Lemma transpose_cell (i j : nat) :
  i < r -> j < c -> cell (transpose c rows) j i = cell rows i j.
Proof.
  destruct Hshape as [Hlen _]. intros Hi Hj. unfold cell, transpose.
  rewrite (nth_indep _ [] ((fun k => map (fun row => nth k row JUndefined) rows) 0))
    by (rewrite length_map, length_seq; lia).
  rewrite (map_nth (fun k => map (fun row => nth k row JUndefined) rows)).
  rewrite seq_nth by lia. cbn [Nat.add].
  rewrite (nth_indep _ JUndefined ((fun row => nth j row JUndefined) [])) by (rewrite length_map; lia).
  now rewrite (map_nth (fun row => nth j row JUndefined)).
Qed.

End ShapedMatrix.

Lemma first_some_skip (g : bool) (o : option jsval) (rest : list (bool * option jsval)) :
  g = false \/ o = None -> first_some ((g, o) :: rest) = first_some rest.
Proof.
  unfold first_some. cbn [find fst snd].
  intros [-> | ->]; [reflexivity |].
  now rewrite andb_false_r.
Qed.

Lemma first_some_hit (v : jsval) (rest : list (bool * option jsval)) :
  first_some ((true, Some v) :: rest) = v.
Proof. reflexivity. Qed.

(** Resolver symmetry: on a matrix of shape [chunkCount x claimCount] with
    both counts supplied, a valid coordinate reads its own cell. *)
Lemma relAt_rows_as_chunks (m : list (list jsval)) (chunkCount claimCount i j : nat) :
  shaped chunkCount claimCount m -> i < chunkCount ->
  relAt (matrix_of m) (Z.of_nat i) (Z.of_nat j)
        (JNum (Z.of_nat chunkCount)) (JNum (Z.of_nat claimCount)) = cell m i j.
Proof.
  intros Hm Hi. unfold matrix_of. rewrite relAt_chain.
  rewrite (outer_is_rows Hm), Nat.eqb_refl, (read2_cell Hm) by assumption.
  apply first_some_hit.
Qed.

(** On the transposed matrix the first rule applies only when the two
    counts coincide; otherwise the second rule reads [t[j][i]]. *)
Lemma relAt_rows_as_claims (m : list (list jsval)) (chunkCount claimCount i j : nat) :
  shaped chunkCount claimCount m -> i < chunkCount -> j < claimCount ->
  relAt (matrix_of (transpose claimCount m)) (Z.of_nat i) (Z.of_nat j)
        (JNum (Z.of_nat chunkCount)) (JNum (Z.of_nat claimCount))
  = if chunkCount =? claimCount then cell m j i else cell m i j.
Proof.
  intros Hm Hi Hj. pose proof (transpose_shaped Hm) as Ht.
  unfold matrix_of. rewrite relAt_chain.
  rewrite !(outer_is_rows Ht), Nat.eqb_refl.
  destruct (Nat.eqb_spec chunkCount claimCount) as [Heq | Hne].
  - subst claimCount. rewrite Nat.eqb_refl.
    rewrite (read2_cell Ht) by assumption. rewrite first_some_hit.
    rewrite (transpose_cell Hm) by assumption. reflexivity.
  - replace (claimCount =? chunkCount) with false
      by (symmetry; apply Nat.eqb_neq; congruence).
    rewrite first_some_skip by now left.
    rewrite (read2_cell Ht) by assumption. rewrite first_some_hit.
    now apply (transpose_cell Hm).
Qed.

(** C1 (amended). For a relation matrix [m] of shape
    [chunkCount x claimCount] and its transpose [t], both resolved with the
    two counts supplied, and for every valid coordinate [(i, j)]:
    [relAt(m, i, j)] is [m[i][j]], and [relAt(t, i, j)] is the same value
    whenever [chunkCount <> claimCount]. *)
Theorem relAt_transposition_tolerance
    (m : list (list jsval)) (chunkCount claimCount i j : nat) :
  shaped chunkCount claimCount m ->
  chunkCount <> claimCount ->
  i < chunkCount -> j < claimCount ->
  relAt (matrix_of (transpose claimCount m)) (Z.of_nat i) (Z.of_nat j)
        (JNum (Z.of_nat chunkCount)) (JNum (Z.of_nat claimCount))
  = relAt (matrix_of m) (Z.of_nat i) (Z.of_nat j)
          (JNum (Z.of_nat chunkCount)) (JNum (Z.of_nat claimCount))
  /\ relAt (matrix_of m) (Z.of_nat i) (Z.of_nat j)
           (JNum (Z.of_nat chunkCount)) (JNum (Z.of_nat claimCount))
     = cell m i j.
Proof.
  intros Hm Hne Hi Hj.
  rewrite relAt_rows_as_claims, relAt_rows_as_chunks by assumption.
  apply Nat.eqb_neq in Hne. rewrite Hne. split; reflexivity.
Qed.

Lemma relAt_transposition_tolerance_witness :
  relAt (matrix_of (transpose 3 matrix_2x3)) 1 2 (JNum 2) (JNum 3)
  = relAt (matrix_of matrix_2x3) 1 2 (JNum 2) (JNum 3)
  /\ relAt (matrix_of matrix_2x3) 1 2 (JNum 2) (JNum 3) = cell matrix_2x3 1 2.
Proof.
  apply (@relAt_transposition_tolerance matrix_2x3 2 3 1 2).
  - split; [reflexivity | repeat constructor].
  - discriminate.
  - lia.
  - lia.
Defined.

(** When the two counts are equal the first rule already matches the outer
    length of the transposed matrix, and [relAt] reads [t[i][j]], which is
    [m[j][i]]. *)
Lemma relAt_transposed_square (m : list (list jsval)) (n i j : nat) :
  shaped n n m -> i < n -> j < n ->
  relAt (matrix_of (transpose n m)) (Z.of_nat i) (Z.of_nat j)
        (JNum (Z.of_nat n)) (JNum (Z.of_nat n)) = cell m j i.
Proof.
  intros Hm Hi Hj. rewrite relAt_rows_as_claims by assumption.
  now rewrite Nat.eqb_refl.
Qed.

(** C1 as stated fails on a square matrix: with [chunkCount = claimCount = 2],
    [m = [[Entailment, Neutral], [Contradiction, Neutral]]] ([matrix_2x2]) and the
    coordinate [(0, 1)], the transposed matrix resolves to [Contradiction]
    while [m[0][1]] is [Neutral]. *)
Lemma relAt_transposition_square_counterexample :
  shaped 2 2 matrix_2x2
  /\ cell matrix_2x2 0 1 = Neutral
  /\ relAt (matrix_of matrix_2x2) 0 1 (JNum 2) (JNum 2) = Neutral
  /\ relAt (matrix_of (transpose 2 matrix_2x2)) 0 1 (JNum 2) (JNum 2) = Contradiction
  /\ relAt (matrix_of (transpose 2 matrix_2x2)) 0 1 (JNum 2) (JNum 2) <> cell matrix_2x2 0 1.
Proof.
  split; [split; [reflexivity | repeat constructor] |].
  repeat split. discriminate.
Qed.

Lemma first_some_undefined (candidates : list (bool * option jsval)) :
  Forall (fun c => snd c = None \/ snd c = Some JUndefined) candidates ->
  first_some candidates = JUndefined.
Proof.
  induction 1 as [| [g o] rest Hhead _ IH]; [reflexivity |].
  cbn [snd] in Hhead. destruct Hhead as [-> | ->].
  - rewrite first_some_skip by now right. exact IH.
  - destruct g; [reflexivity |].
    rewrite first_some_skip by now left. exact IH.
Qed.

Lemma read2_outside (m : list (list jsval)) (r c : nat) (a b : Z) :
  shaped r c m -> ~ in_range r c a b ->
  read2 (map JArr m) a b = None \/ read2 (map JArr m) a b = Some JUndefined.
Proof.
  intros Hm Hout. unfold in_range in Hout.
  destruct (Z_lt_dec a 0) as [Hneg | Hnonneg].
  - left. apply (read2_out_of_range Hm). lia.
  - destruct (Z_le_dec (Z.of_nat r) a) as [Hbig | Hsmall].
    + left. apply (read2_out_of_range Hm). lia.
    + right. apply (read2_column_out Hm); lia.
Qed.

Lemma relAt_empty (i j : Z) (cc kc : jsval) : relAt (JArr []) i j cc kc = JUndefined.
Proof.
  rewrite relAt_chain. apply first_some_undefined.
  assert (Hnone : forall a b, read2 [] a b = None).
  { intros a b. unfold read2. now rewrite arr_get_out by (cbn; lia). }
  rewrite !Hnone. repeat constructor.
Qed.

Lemma relAt_outside (m : list (list jsval)) (r c : nat) (i j : Z) (cc kc : jsval) :
  shaped r c m ->
  ~ in_range r c i j ->
  ~ in_range r c j i ->
  relAt (matrix_of m) i j cc kc = JUndefined.
Proof.
  intros Hm Hij Hji. unfold matrix_of. rewrite relAt_chain.
  pose proof (read2_outside Hm Hij) as Hdirect.
  pose proof (read2_outside Hm Hji) as Hswapped.
  apply first_some_undefined.
  repeat (apply Forall_cons; [cbn [snd]; assumption |]). apply Forall_nil.
Qed.

(** With the chunk count equal to the number of rows the first rule
    decides: a valid chunk index reads its own row, and a claim index
    outside the row reads [undefined]. *)
Lemma relAt_claim_outside (m : list (list jsval)) (r c : nat) (i j : Z) (kc : jsval) :
  shaped r c m ->
  (0 <= i < Z.of_nat r)%Z ->
  ~ (0 <= j < Z.of_nat c)%Z ->
  relAt (matrix_of m) i j (JNum (Z.of_nat r)) kc = JUndefined.
Proof.
  intros Hm Hi Hj. unfold matrix_of. rewrite relAt_chain.
  rewrite (outer_is_rows Hm), Nat.eqb_refl.
  rewrite (read2_column_out Hm) by (exact Hi || lia).
  apply first_some_hit.
Qed.

(** The one out-of-range situation in which [relAt] still produces a cell:
    [chunkIdx] is past the last row, and the swapped pair
    [(claimIdx, chunkIdx)] addresses a cell.  The last fall-back rule then
    reads [m[claimIdx][chunkIdx]]. *)
Lemma relAt_outside_swapped (m : list (list jsval)) (chunkCount claimCount i j : nat) :
  shaped chunkCount claimCount m ->
  chunkCount <= i -> i < claimCount -> j < chunkCount ->
  relAt (matrix_of m) (Z.of_nat i) (Z.of_nat j)
        (JNum (Z.of_nat chunkCount)) (JNum (Z.of_nat claimCount)) = cell m j i.
Proof.
  intros Hm Hi Hik Hj. unfold matrix_of. rewrite relAt_chain.
  assert (Hdirect : read2 (map JArr m) (Z.of_nat i) (Z.of_nat j) = None)
    by (apply (read2_out_of_range Hm); lia).
  assert (Hswapped : read2 (map JArr m) (Z.of_nat j) (Z.of_nat i) = Some (cell m j i))
    by now apply (read2_cell Hm).
  assert (Hlong : longer_row (map JArr m) (Z.of_nat j) (Z.of_nat i) = true).
  { destruct Hm as [Hlen Hrows]. unfold longer_row.
    rewrite row_in_range by lia. rewrite Nat2Z.id.
    rewrite (shaped_row_length (conj Hlen Hrows)) by lia.
    apply Z.ltb_lt. lia. }
  assert (Hfirst : first_len_is (map JArr m) (JNum (Z.of_nat chunkCount)) = false).
  { destruct Hm as [Hlen Hrows]. unfold first_len_is.
    rewrite row_in_range by lia. cbn.
    rewrite (shaped_row_length (conj Hlen Hrows)) by lia.
    apply Z.eqb_neq. lia. }
  rewrite Hdirect, Hswapped, Hlong, Hfirst.
  rewrite !(outer_is_rows Hm).
  replace (chunkCount =? claimCount) with false by (symmetry; apply Nat.eqb_neq; lia).
  rewrite !first_some_skip by (now left + now right).
  apply first_some_hit.
Qed.

(** C2 (amended). [relAt] never throws: its body always completes with a
    [return], so the [catch] clause is dead.  The value returned is
    [undefined] on every degenerate input: a [null] or non-array matrix; an
    empty array; a coordinate outside a well-formed matrix whose swapped
    pair [(claimIdx, chunkIdx)] is outside it as well, whatever the counts;
    and a valid chunk index with a claim index outside the row, when the
    chunk count is the number of rows.  With the dimensions of the matrix
    as counts this is every out-of-range coordinate but those whose chunk
    index is past the last row while the swapped pair addresses a cell. *)
Theorem relAt_total_safety (matrix : jsval) (i j : Z) (cc kc : jsval) :
  relAt_body matrix i j cc kc <> Throw
  /\ (exists v, relAt_body matrix i j cc kc = Return v)
  /\ (degenerate matrix i j cc kc -> relAt matrix i j cc kc = JUndefined)
  /\ (forall m r c,
        shaped r c m -> ~ in_range r c i j -> ~ swapped_escape r c i j ->
        degenerate (matrix_of m) i j (JNum (Z.of_nat r)) (JNum (Z.of_nat c))
        /\ relAt (matrix_of m) i j (JNum (Z.of_nat r)) (JNum (Z.of_nat c)) = JUndefined).
Proof.
  assert (Hdeg : forall matrix' i' j' cc' kc',
             degenerate matrix' i' j' cc' kc' -> relAt matrix' i' j' cc' kc' = JUndefined).
  { intros matrix' i' j' cc' kc' Hdeg.
    destruct Hdeg as [matrix' i' j' cc' kc' Hna | i' j' cc' kc'
                     | m r c i' j' cc' kc' Hm Hij Hji | m r c i' j' kc' Hm Hi Hj].
    - now apply relAt_not_array.
    - apply relAt_empty.
    - now apply (relAt_outside cc' kc' Hm).
    - now apply (relAt_claim_outside kc' Hm). }
  split; [rewrite relAt_body_returns; discriminate |].
  split; [exists (relAt matrix i j cc kc); apply relAt_body_returns |].
  split; [apply Hdeg |].
  intros m r c Hm Hout Hescape.
  assert (Hclass : degenerate (matrix_of m) i j (JNum (Z.of_nat r)) (JNum (Z.of_nat c))).
  { destruct (Z_lt_dec i 0) as [Hneg | Hnonneg].
    - apply (degenerate_both_outside _ _ Hm Hout). unfold in_range. lia.
    - destruct (Z_le_dec (Z.of_nat r) i) as [Hbig | Hsmall].
      + apply (degenerate_both_outside _ _ Hm Hout).
        intros Hji. apply Hescape. split; assumption.
      + apply (degenerate_claim_outside _ Hm); [lia |].
        unfold in_range in Hout. lia. }
  split; [exact Hclass | now apply Hdeg].
Qed.

Lemma relAt_total_safety_witness :
  relAt (matrix_of matrix_2x3) 5 0 (JNum 2) (JNum 3) = JUndefined
  /\ relAt (matrix_of matrix_3x2) 1 2 (JNum 3) (JNum 2) = JUndefined
  /\ relAt (matrix_of matrix_3x2) 1 (-1) (JNum 3) JUndefined = JUndefined
  /\ relAt JNull 0 0 (JNum 2) (JNum 3) = JUndefined.
Proof.
  split; [| split; [| split]].
  - apply (@relAt_total_safety (matrix_of matrix_2x3) 5 0 (JNum 2) (JNum 3)).
    apply (@degenerate_both_outside matrix_2x3 2 3 5 0).
    + split; [reflexivity | repeat constructor].
    + unfold in_range. lia.
    + unfold in_range. lia.
  - destruct (relAt_total_safety (matrix_of matrix_3x2) 1 2 (JNum 3) (JNum 2))
      as [_ [_ [_ Hcounts]]].
    apply (Hcounts matrix_3x2 3 2).
    + split; [reflexivity | repeat constructor].
    + unfold in_range. lia.
    + unfold swapped_escape, in_range. lia.
  - apply (@relAt_total_safety (matrix_of matrix_3x2) 1 (-1) (JNum (Z.of_nat 3)) JUndefined).
    apply (@degenerate_claim_outside matrix_3x2 3 2 1 (-1)).
    + split; [reflexivity | repeat constructor].
    + lia.
    + lia.
  - apply (@relAt_total_safety JNull 0 0 (JNum 2) (JNum 3)).
    apply degenerate_not_array. reflexivity.
Defined.

(** C2 as stated fails for an out-of-range chunk index whose swapped pair
    is in range: on the well-formed 2 x 3 matrix [matrix_2x3] the
    coordinate [(chunkIdx, claimIdx) = (2, 0)] is out of range (there are
    two chunks), and [relAt] returns [m[0][2] = Contradiction]. *)
Lemma relAt_out_of_range_counterexample :
  shaped 2 3 matrix_2x3
  /\ ~ in_range 2 3 2 0
  /\ relAt (matrix_of matrix_2x3) 2 0 (JNum 2) (JNum 3) = Contradiction
  /\ relAt (matrix_of matrix_2x3) 2 0 (JNum 2) (JNum 3) <> JUndefined.
Proof.
  split; [split; [reflexivity | repeat constructor] |].
  split; [unfold in_range; lia |].
  split; [reflexivity | discriminate].
Qed.

(* ===================================================================== *)
(** * Facts about the status classifier *)
(* ===================================================================== *)

Lemma length_pos_nonnil {A : Type} (l : list A) : (0 <? List.length l) = true <-> l <> [].
Proof.
  destruct l as [| x l]; cbn; split; intros H; try discriminate; try reflexivity.
  now contradiction H.
Qed.

Lemma length_zero_nil {A : Type} (l : list A) : (List.length l =? 0) = true <-> l = [].
Proof.
  destruct l as [| x l]; cbn; split; intros H; try discriminate; reflexivity.
Qed.

Lemma chunkStatus_harming (sets : ClaimSets) :
  chunkStatusForSets sets = harming <-> contradictions (gt sets) <> [].
Proof.
  unfold chunkStatusForSets.
  destruct (contradictions (gt sets)) as [| x l]; cbn.
  - split; [| now intros H; contradiction H].
    destruct (entailments (gt sets)); intros H; discriminate H.
  - split; [intros _; discriminate | reflexivity].
Qed.

Lemma chunkStatus_relevant (sets : ClaimSets) :
  chunkStatusForSets sets = relevant <->
  contradictions (gt sets) = [] /\ entailments (gt sets) <> [].
Proof.
  unfold chunkStatusForSets.
  destruct (contradictions (gt sets)) as [| x l]; cbn.
  - destruct (entailments (gt sets)) as [| y l']; cbn.
    + split; [intros H; discriminate H | intros [_ H]; now contradiction H].
    + split; [intros _; split; [reflexivity | discriminate] | reflexivity].
  - split; [intros H; discriminate H | intros [H _]; discriminate H].
Qed.

Lemma chunkStatus_irrelevant (sets : ClaimSets) :
  chunkStatusForSets sets = irrelevant <->
  contradictions (gt sets) = [] /\ entailments (gt sets) = [].
Proof.
  unfold chunkStatusForSets.
  destruct (contradictions (gt sets)) as [| x l]; cbn.
  - destruct (entailments (gt sets)) as [| y l']; cbn.
    + split; [intros _; split; reflexivity | reflexivity].
    + split; [intros H; discriminate H | intros [_ H]; discriminate H].
  - split; [intros H; discriminate H | intros [H _]; discriminate H].
Qed.

(** C6. [chunkStatusForSets] is 'harming' whenever the ground-truth
    contradiction count is positive, whatever the entailments; otherwise
    'relevant' whenever the entailment count is positive; otherwise
    'irrelevant'.  A chunk with an entailment and a contradiction is
    'harming', not 'relevant'. *)
Theorem chunkStatus_precedence (sets : ClaimSets) :
  let ent := List.length (entailments (gt sets)) in
  let con := List.length (contradictions (gt sets)) in
  (0 < con -> chunkStatusForSets sets = harming)
  /\ (con = 0 -> 0 < ent -> chunkStatusForSets sets = relevant)
  /\ (con = 0 -> ent = 0 -> chunkStatusForSets sets = irrelevant)
  /\ (0 < ent -> 0 < con ->
      chunkStatusForSets sets = harming /\ chunkStatusForSets sets <> relevant).
Proof.
  intros ent con. subst ent con.
  assert (Hharm : 0 < List.length (contradictions (gt sets)) ->
                  chunkStatusForSets sets = harming).
  { intros Hcon. apply chunkStatus_harming. intros Hnil. rewrite Hnil in Hcon.
    cbn in Hcon. lia. }
  repeat split.
  - exact Hharm.
  - intros Hcon Hent. apply chunkStatus_relevant. split.
    + now apply length_zero_iff_nil.
    + intros Hnil. rewrite Hnil in Hent. cbn in Hent. lia.
  - intros Hcon Hent. apply chunkStatus_irrelevant.
    split; now apply length_zero_iff_nil.
  - now apply Hharm.
  - intros Hrel. rewrite (Hharm H0) in Hrel. discriminate.
Qed.

Lemma chunkStatus_precedence_witness :
  chunkStatusForSets sets_mixed = harming /\ chunkStatusForSets sets_mixed <> relevant.
Proof.
  apply (chunkStatus_precedence sets_mixed); cbn; lia.
Defined.

(* ===================================================================== *)
(** * Facts about the irrelevance predicate *)
(* ===================================================================== *)

Lemma clamp_count_zero (x : option Z) : clamp_count x = 0%Z <-> clamps_to_zero x.
Proof.
  unfold clamp_count, clamps_to_zero. destruct x as [n |]; [lia | cbn; tauto].
Qed.

Lemma clamp_count_pos (x : option Z) :
  (0 < clamp_count x)%Z <-> exists n, x = Some n /\ (0 < n)%Z.
Proof.
  unfold clamp_count. destruct x as [n |].
  - split.
    + intros H. exists n. split; [reflexivity | lia].
    + intros [k [Heq Hk]]. injection Heq as <-. lia.
  - cbn. split; [lia | intros [k [Heq _]]; discriminate].
Qed.

Lemma isIrrelevantFromCounts_spec (e n c : option Z) :
  isIrrelevantFromCounts e n c = true <->
  clamps_to_zero e /\ clamps_to_zero c /\ exists k, n = Some k /\ (0 < k)%Z.
Proof.
  unfold isIrrelevantFromCounts.
  rewrite !andb_true_iff, !Z.eqb_eq, Z.ltb_lt.
  rewrite !clamp_count_zero, clamp_count_pos. tauto.
Qed.

Lemma isIrrelevantFromSets_counts (sets : ClaimSets) :
  isIrrelevantFromSets sets =
  isIrrelevantFromCounts
    (Some (Z.of_nat (List.length (entailments (gt sets)))))
    (Some (Z.of_nat (List.length (neutrals (gt sets)))))
    (Some (Z.of_nat (List.length (contradictions (gt sets))))).
Proof.
  unfold isIrrelevantFromSets, isIrrelevantFromCounts, clamp_count.
  rewrite !Z.max_r by lia.
  f_equal; [f_equal |].
  - destruct (entailments (gt sets)); reflexivity.
  - destruct (contradictions (gt sets)); reflexivity.
  - destruct (neutrals (gt sets)); reflexivity.
Qed.

Lemma isIrrelevantFromSets_spec (sets : ClaimSets) :
  isIrrelevantFromSets sets = true <->
  entailments (gt sets) = [] /\ contradictions (gt sets) = [] /\ neutrals (gt sets) <> [].
Proof.
  unfold isIrrelevantFromSets.
  rewrite !andb_true_iff, !length_zero_nil, length_pos_nonnil. tauto.
Qed.

(** The deciders of 'irrelevant' one by one.  On counts that are integers
    or absent, [isIrrelevantFromCounts(e, n, c)] holds iff [e] and [c] clamp
    to 0 and [n] is a positive number; [isIrrelevantFromSets] is
    [isIrrelevantFromCounts] of the three array lengths; the badge
    [chunkStatusForSets(sets)] is 'irrelevant' iff the entailment and the
    contradiction sets are both empty, whatever the neutral set is. *)
Lemma irrelevant_deciders (sets : ClaimSets) (e n c : option Z) :
  (isIrrelevantFromCounts e n c = true <->
   clamps_to_zero e /\ clamps_to_zero c /\ exists k, n = Some k /\ (0 < k)%Z)
  /\ isIrrelevantFromSets sets =
     isIrrelevantFromCounts
       (Some (Z.of_nat (List.length (entailments (gt sets)))))
       (Some (Z.of_nat (List.length (neutrals (gt sets)))))
       (Some (Z.of_nat (List.length (contradictions (gt sets)))))
  /\ (chunkStatusForSets sets = irrelevant <->
      entailments (gt sets) = [] /\ contradictions (gt sets) = [])
  /\ (isIrrelevantFromSets sets = true <->
      chunkStatusForSets sets = irrelevant /\ neutrals (gt sets) <> []).
Proof.
  split; [apply isIrrelevantFromCounts_spec |].
  split; [apply isIrrelevantFromSets_counts |].
  split.
  - rewrite chunkStatus_irrelevant. tauto.
  - rewrite isIrrelevantFromSets_spec, chunkStatus_irrelevant. tauto.
Qed.

(** C5. The chunk badge does not follow the predicate.  The summary row
    counts a chunk as irrelevant by [isIrrelevantFromSets], and so does the
    chunk analysis by [isIrrelevantFromCounts]; the badge of a chunk comes
    from [chunkStatusForSets], whose last branch answers 'irrelevant'
    without looking at the neutral set, under a tooltip that says 'Neutral
    only'.  On the only chunk of [question_unresolved], which has no
    resolved relation at all, the predicate is false and the summary counts
    no irrelevant chunk, while the badge and the filter flag of the chunk
    say 'irrelevant'.  The two disagree exactly on the chunks whose three
    ground-truth sets are all empty. *)
Theorem irrelevant_badge_divergence :
  gt (getClaimSetsForChunk question_unresolved 0) = empty_sets
  /\ isIrrelevantFromSets (getClaimSetsForChunk question_unresolved 0) = false
  /\ sum_irr (chunkSummary question_unresolved) = 0
  /\ chunkStatusForSets (getClaimSetsForChunk question_unresolved 0) = irrelevant
  /\ is_irrelevant (flagsForSets (getClaimSetsForChunk question_unresolved 0)) = true
  /\ (forall sets,
        chunkStatusForSets sets = irrelevant /\ isIrrelevantFromSets sets = false
        <-> entailments (gt sets) = [] /\ contradictions (gt sets) = []
            /\ neutrals (gt sets) = []).
Proof.
  repeat (split; [reflexivity |]).
  intros sets. rewrite chunkStatus_irrelevant.
  destruct (isIrrelevantFromSets sets) eqn:Hpred.
  - apply isIrrelevantFromSets_spec in Hpred. destruct Hpred as [_ [_ Hn]].
    split; [intros [_ H]; discriminate H | intros [_ [_ H]]; contradiction].
  - split.
    + intros [[Hc He] _]. split; [exact He |]. split; [exact Hc |].
      destruct (neutrals (gt sets)) as [| x l] eqn:Hn; [reflexivity |].
      assert (Htrue : isIrrelevantFromSets sets = true).
      { apply isIrrelevantFromSets_spec. rewrite Hn. repeat split; try assumption.
        discriminate. }
      congruence.
    + intros [He [Hc _]]. repeat split; assumption.
Qed.

(* ===================================================================== *)
(** * Facts about the chunk summary and the filter flags *)
(* ===================================================================== *)

Section Summary.

Variable question : jsval.

Let sets_of (idx : nat) : ClaimSets := getClaimSetsForChunk question (Z.of_nat idx).

Lemma fold_bump (proj : ChunkSummary -> nat) (test : ClaimSets -> bool) :
  (forall acc idx, proj (summary_step question acc idx) = bump (test (sets_of idx)) (proj acc)) ->
  forall idxs acc,
    proj (fold_left (summary_step question) idxs acc)
    = proj acc + List.length (filter (fun idx => test (sets_of idx)) idxs).
Proof.
  intros Hstep idxs. induction idxs as [| idx idxs IH]; intros acc; cbn [fold_left filter List.length].
  - lia.
  - rewrite IH, Hstep. unfold bump.
    destruct (test (sets_of idx)); cbn [List.length]; lia.
Qed.

Lemma sum_unused_counts :
  sum_unused (chunkSummary question)
  = count_chunks question (fun sets => List.length (entailments (response sets)) =? 0).
Proof.
  unfold chunkSummary, count_chunks.
  now rewrite (fold_bump sum_unused
                 (fun sets => List.length (entailments (response sets)) =? 0)).
Qed.

Lemma sum_grounded_counts :
  sum_grounded (chunkSummary question)
  = count_chunks question (fun sets => 0 <? List.length (entailments (response sets))).
Proof.
  unfold chunkSummary, count_chunks.
  now rewrite (fold_bump sum_grounded
                 (fun sets => 0 <? List.length (entailments (response sets)))).
Qed.

Lemma sum_respContr_counts :
  sum_respContr (chunkSummary question)
  = count_chunks question (fun sets => 0 <? List.length (contradictions (response sets))).
Proof.
  unfold chunkSummary, count_chunks.
  now rewrite (fold_bump sum_respContr
                 (fun sets => 0 <? List.length (contradictions (response sets)))).
Qed.

Lemma sum_irr_counts :
  sum_irr (chunkSummary question) = count_chunks question isIrrelevantFromSets.
Proof.
  unfold chunkSummary, count_chunks.
  now rewrite (fold_bump sum_irr isIrrelevantFromSets).
Qed.

Lemma filter_complement (test : nat -> bool) (l : list nat) :
  List.length (filter test l) + List.length (filter (fun x => negb (test x)) l)
  = List.length l.
Proof.
  induction l as [| x l IH]; cbn; [reflexivity |].
  destruct (test x); cbn; lia.
Qed.

Lemma grounded_plus_unused :
  sum_grounded (chunkSummary question) + sum_unused (chunkSummary question)
  = chunkCountOf question.
Proof.
  rewrite sum_grounded_counts, sum_unused_counts. unfold count_chunks.
  transitivity (List.length (seq 0 (chunkCountOf question))); [| apply length_seq].
  rewrite <- (filter_complement
                (fun idx => 0 <? List.length (entailments (response (sets_of idx))))
                (seq 0 (chunkCountOf question))).
  f_equal. f_equal. apply filter_ext. intros idx. unfold sets_of.
  now destruct (entailments (response (getClaimSetsForChunk question (Z.of_nat idx)))).
Qed.

End Summary.

(** C9. The 'unused' flag and the Unused counter look at the response
    entailments only: a chunk is unused iff no response claim is entailed
    by it.  A chunk with a response contradiction and no response
    entailment is therefore flagged, and counted, both 'unused' and
    'contradicting'; Used and Unused together count every chunk once, so
    with such a chunk the three counters add up to more than the number of
    chunks. *)
Theorem unused_ignores_contradictions (question : jsval) :
  (forall sets, is_unused (flagsForSets sets) = true <-> entailments (response sets) = [])
  /\ (forall sets,
        entailments (response sets) = [] -> contradictions (response sets) <> [] ->
        is_unused (flagsForSets sets) = true /\ is_contradicting (flagsForSets sets) = true)
  /\ sum_unused (chunkSummary question)
     = count_chunks question (fun sets => List.length (entailments (response sets)) =? 0)
  /\ sum_respContr (chunkSummary question)
     = count_chunks question (fun sets => 0 <? List.length (contradictions (response sets)))
  /\ sum_grounded (chunkSummary question) + sum_unused (chunkSummary question)
     = chunkCountOf question
  /\ (forall idx, idx < chunkCountOf question ->
        entailments (response (getClaimSetsForChunk question (Z.of_nat idx))) = [] ->
        contradictions (response (getClaimSetsForChunk question (Z.of_nat idx))) <> [] ->
        chunkCountOf question
        < sum_grounded (chunkSummary question) + sum_unused (chunkSummary question)
          + sum_respContr (chunkSummary question)).
Proof.
  split; [intros sets; apply length_zero_nil |].
  split.
  { intros sets Hent Hcon. split; cbn.
    - now apply length_zero_nil.
    - now apply length_pos_nonnil. }
  split; [apply sum_unused_counts |].
  split; [apply sum_respContr_counts |].
  split; [apply grounded_plus_unused |].
  intros idx Hidx _ Hcon.
  rewrite grounded_plus_unused, sum_respContr_counts. unfold count_chunks.
  assert (Hin : In idx
                  (filter (fun i => 0 <? List.length
                             (contradictions (response (getClaimSetsForChunk question (Z.of_nat i)))))
                          (seq 0 (chunkCountOf question)))).
  { apply filter_In. split; [apply in_seq; lia | now apply length_pos_nonnil]. }
  destruct (filter _ (seq 0 (chunkCountOf question))) as [| x l]; [contradiction Hin |].
  cbn [List.length]. lia.
Qed.

Lemma unused_ignores_contradictions_witness :
  chunkCountOf question_conflict
  < sum_grounded (chunkSummary question_conflict) + sum_unused (chunkSummary question_conflict)
    + sum_respContr (chunkSummary question_conflict).
Proof.
  destruct (unused_ignores_contradictions question_conflict) as [_ [_ [_ [_ [_ Hover]]]]].
  apply (Hover 0).
  - cbn. lia.
  - reflexivity.
  - discriminate.
Defined.

Example summary_of_conflict :
  sum_grounded (chunkSummary question_conflict) = 0
  /\ sum_unused (chunkSummary question_conflict) = 1
  /\ sum_respContr (chunkSummary question_conflict) = 1.
Proof. repeat split. Qed.

(* ===================================================================== *)
(** * Facts about claim dispositions *)
(* ===================================================================== *)

Open Scope string_scope.

Lemma code_inj (a b : ascii) : code a = code b -> a = b.
Proof.
  unfold code. intros H.
  rewrite <- (ascii_N_embedding a), <- (ascii_N_embedding b). now rewrite H.
Qed.

Lemma lower_char_code (c : ascii) :
  code (lower_char c)
  = (if (65 <=? code c) && (code c <=? 90) then code c + 32 else code c)%N.
Proof.
  unfold lower_char.
  destruct ((65 <=? code c) && (code c <=? 90))%N eqn:Hup; [| reflexivity].
  apply andb_true_iff in Hup. destruct Hup as [Hlo Hhi].
  apply N.leb_le in Hlo, Hhi.
  unfold code. apply N_ascii_embedding. unfold code in Hhi. lia.
Qed.

Lemma lower_char_any_case (l c : ascii) :
  lower_char l = l -> (lower_char c = l <-> letter_in_any_case l c = true).
Proof.
  intros Hl. apply (f_equal code) in Hl. rewrite lower_char_code in Hl.
  assert (Hnot_upper : ((65 <=? code l) && (code l <=? 90))%N = false).
  { destruct ((65 <=? code l) && (code l <=? 90))%N; [lia | reflexivity]. }
  clear Hl. apply andb_false_iff in Hnot_upper.
  unfold letter_in_any_case.
  rewrite orb_true_iff, !andb_true_iff, !N.leb_le, N.eqb_eq.
  assert (Heqb : Ascii.eqb c l = true <-> code c = code l).
  { rewrite Ascii.eqb_eq. split; [now intros -> | apply code_inj]. }
  rewrite Heqb. clear Heqb.
  assert (Hlow : lower_char c = l <-> code (lower_char c) = code l).
  { split; [now intros <- | apply code_inj]. }
  rewrite Hlow, lower_char_code. clear Hlow.
  rewrite !N.leb_gt in Hnot_upper.
  destruct ((65 <=? code c) && (code c <=? 90))%N eqn:Hup.
  - apply andb_true_iff in Hup. destruct Hup as [Hlo Hhi].
    apply N.leb_le in Hlo, Hhi. lia.
  - apply andb_false_iff in Hup. rewrite !N.leb_gt in Hup. lia.
Qed.

Lemma toLowerCase_any_casing (label : string) :
  toLowerCase label = label ->
  forall s, toLowerCase s = label <-> in_any_casing label s = true.
Proof.
  induction label as [| l label IH]; intros Hlabel s.
  - destruct s as [| c s]; cbn; split; intros H; try reflexivity; discriminate H.
  - cbn [toLowerCase] in Hlabel. injection Hlabel as Hl Hrest.
    destruct s as [| c s]; cbn [toLowerCase in_any_casing].
    + split; intros H; discriminate H.
    + rewrite andb_true_iff, <- (IH Hrest s), <- (lower_char_any_case c Hl). split.
      * intros H. injection H as Hc Hs. split; assumption.
      * intros [-> ->]. reflexivity.
Qed.

Lemma status_of_text_entailed (s : string) :
  status_of_text s = entailed <-> in_any_casing "entailment" s = true.
Proof.
  rewrite <- toLowerCase_any_casing by reflexivity. unfold status_of_text.
  destruct (String.eqb_spec (toLowerCase s) "entailment") as [Heq | Hne].
  - tauto.
  - destruct (String.eqb _ "contradiction"); split; intros H;
      try discriminate H; contradiction.
Qed.

Lemma status_of_text_contradiction (s : string) :
  status_of_text s = contradiction <-> in_any_casing "contradiction" s = true.
Proof.
  rewrite <- toLowerCase_any_casing by reflexivity. unfold status_of_text.
  destruct (String.eqb_spec (toLowerCase s) "entailment") as [Heq | Hne].
  - rewrite Heq. split; intros H; discriminate H.
  - destruct (String.eqb_spec (toLowerCase s) "contradiction") as [Heq' | Hne'];
      split; intros H; try discriminate H; try reflexivity; tauto.
Qed.

Lemma status_of_text_neutral (s : string) :
  in_any_casing "entailment" s = false -> in_any_casing "contradiction" s = false ->
  status_of_text s = neutral.
Proof.
  intros Hne Hnc. destruct (status_of_text s) eqn:Hst; [| reflexivity |].
  - apply status_of_text_entailed in Hst. congruence.
  - apply status_of_text_contradiction in Hst. congruence.
Qed.

(** Induction on a value and, for an array, on its elements. *)
Lemma jsval_array_ind (P : jsval -> Prop) :
  P JUndefined -> P JNull -> (forall b, P (JBool b)) -> (forall n, P (JNum n)) ->
  (forall s, P (JStr s)) ->
  (forall items, Forall P items -> P (JArr items)) ->
  (forall fields, P (JObj fields)) ->
  forall v, P v.
Proof.
  intros Hundef Hnull Hbool Hnum Hstr Harr Hobj.
  fix self 1. intros [| | b | n | s | items | fields].
  - exact Hundef.
  - exact Hnull.
  - apply Hbool.
  - apply Hnum.
  - apply Hstr.
  - apply Harr. revert items. fix elements 1. intros [| x rest].
    + constructor.
    + constructor; [apply self | apply elements].
  - apply Hobj.
Qed.

Lemma String_of_throws (v : jsval) : String_of v = None <-> unconvertible v = true.
Proof.
  induction v as [| | b | n | s | items IH | fields] using jsval_array_ind.
  - cbn. split; intros H; discriminate H.
  - cbn. split; intros H; discriminate H.
  - destruct b; cbn; split; intros H; discriminate H.
  - cbn. split; intros H; discriminate H.
  - cbn. split; intros H; discriminate H.
  - cbn [String_of unconvertible].
    assert (Hjoin : traverse (fun x => match x with
                                       | JUndefined | JNull => Some EmptyString
                                       | _ => String_of x
                                       end) items = None
                    <-> existsb unconvertible items = true).
    { induction IH as [| x rest Hx _ IHrest]; cbn [traverse existsb].
      - split; intros H; discriminate H.
      - rewrite orb_true_iff, <- IHrest, <- Hx.
        set (step := traverse _ rest).
        assert (Hhead : match x with
                        | JUndefined | JNull => Some EmptyString
                        | _ => String_of x
                        end = None <-> String_of x = None).
        { destruct x as [| | b | n | s | inner | fields]; try reflexivity;
            try (destruct b); cbn [String_of]; split; intros H; discriminate H. }
        rewrite <- Hhead.
        destruct (match x with
                  | JUndefined | JNull => Some EmptyString
                  | _ => String_of x
                  end); destruct step;
          (split;
           [ intros H; first [discriminate H | now left | now right]
           | intros [H | H]; first [discriminate H | reflexivity] ]). }
    rewrite <- Hjoin. destruct (traverse _ items); cbn; split; intros H;
      try discriminate H; reflexivity.
  - cbn. destruct (assoc "toString" fields); split; intros H;
      try discriminate H; reflexivity.
Qed.

Lemma printable_unconvertible (v : jsval) : printable v = negb (unconvertible v).
Proof.
  unfold printable. destruct (String_of v) as [text |] eqn:Hv.
  - destruct (unconvertible v) eqn:Hu; [| reflexivity].
    apply String_of_throws in Hu. congruence.
  - apply String_of_throws in Hv. now rewrite Hv.
Qed.

Lemma mapRelToStatus_text (rel : jsval) (text : string) :
  String_of (coalesce rel (JStr "")) = Some text ->
  mapRelToStatus rel = Some (status_of_text text).
Proof. unfold mapRelToStatus. now intros ->. Qed.

Lemma unconvertible_coalesce (rel : jsval) :
  unconvertible (coalesce rel (JStr "")) = unconvertible rel.
Proof. now destruct rel. Qed.

Lemma unconvertible_js_or (rel : jsval) :
  unconvertible (js_or rel (JStr "")) = unconvertible rel.
Proof.
  destruct rel as [| | b | n | s | items | fields]; try reflexivity; unfold js_or; cbn [truthy].
  - now destruct b.
  - now destruct (negb (n =? 0)%Z).
  - now destruct (negb (String.eqb s "")).
Qed.

Lemma mapRelToStatus_throws (rel : jsval) :
  mapRelToStatus rel = None <-> unconvertible rel = true.
Proof.
  rewrite <- unconvertible_coalesce, <- String_of_throws. unfold mapRelToStatus.
  destruct (String_of (coalesce rel (JStr ""))); cbn; split; intros H;
    try discriminate H; reflexivity.
Qed.

Lemma reads_entailment_true (rel : jsval) :
  reads_entailment rel = Some true <->
  exists label, String_of (js_or rel (JStr "")) = Some label
                /\ in_any_casing "entailment" label = true.
Proof.
  unfold reads_entailment.
  destruct (String_of (js_or rel (JStr ""))) as [text |]; cbn [option_map].
  - split.
    + intros H. injection H as H. exists text. split; [reflexivity |].
      apply (@toLowerCase_any_casing "entailment" eq_refl). now apply String.eqb_eq.
    + intros [label [Heq Hl]]. injection Heq as ->. f_equal. apply String.eqb_eq.
      now apply (@toLowerCase_any_casing "entailment" eq_refl).
  - split; [intros H; discriminate H | intros [label [H _]]; discriminate H].
Qed.

Lemma reads_entailment_throws (rel : jsval) :
  reads_entailment rel = None <-> unconvertible rel = true.
Proof.
  rewrite <- unconvertible_js_or, <- String_of_throws. unfold reads_entailment.
  destruct (String_of (js_or rel (JStr ""))); cbn; split; intros H;
    try discriminate H; reflexivity.
Qed.

Lemma scan_support_seq (relation : nat -> jsval) (len : nat) :
  forall start,
    scan_support relation (seq start len) = Some true <->
    exists j, start <= j < start + len
              /\ reads_entailment (relation j) = Some true
              /\ forall k, start <= k < j -> reads_entailment (relation k) <> None.
Proof.
  induction len as [| len IH]; intros start; cbn [seq scan_support].
  - split; [intros H; discriminate H | intros [j [Hj _]]; lia].
  - destruct (reads_entailment (relation start)) as [[|] |] eqn:Hhead.
    + split; [intros _ | reflexivity].
      exists start. split; [lia |]. split; [exact Hhead |]. intros k Hk. lia.
    + rewrite IH. split.
      * intros [j [Hj [Hread Hbefore]]]. exists j. split; [lia |].
        split; [exact Hread |]. intros k Hk.
        destruct (Nat.eq_dec k start) as [-> | Hne]; [rewrite Hhead; discriminate |].
        apply Hbefore. lia.
      * intros [j [Hj [Hread Hbefore]]]. exists j.
        assert (j <> start) by (intros ->; congruence).
        split; [lia |]. split; [exact Hread |]. intros k Hk. apply Hbefore. lia.
    + split; [intros H; discriminate H |].
      intros [j [Hj [Hread Hbefore]]].
      destruct (Nat.eq_dec j start) as [-> | Hne]; [congruence |].
      exfalso. apply (Hbefore start); [lia | exact Hhead].
Qed.

Lemma supportedByChunk_spec (question : jsval) (i : nat) :
  supportedByChunk question i = Some true <->
  exists j, j < chunkCountOf question
            /\ reads_entailment (responseRelation question j i) = Some true
            /\ forall k, k < j -> reads_entailment (responseRelation question k i) <> None.
Proof.
  unfold supportedByChunk. rewrite scan_support_seq. split.
  - intros [j [Hj [Hread Hbefore]]]. exists j. split; [lia |].
    split; [exact Hread |]. intros k Hk. apply Hbefore. lia.
  - intros [j [Hj [Hread Hbefore]]]. exists j. split; [lia |].
    split; [exact Hread |]. intros k Hk. apply Hbefore. lia.
Qed.

(** C10 (amended). [mapRelToStatus] is case-insensitive: a string that is
    'entailment' in any casing maps to 'entailed', one that is
    'contradiction' in any casing maps to 'contradiction', every other
    string and [null] and [undefined] map to 'neutral'; any other value
    maps as its string form does.  It is not total: it throws exactly when
    [String] cannot convert the value.  The scan behind [supportedByChunk]
    finds support exactly when the relation of some chunk reads
    'entailment' in some casing and [String] converts the relation of
    every chunk before it.  The values that [String] cannot convert are
    the objects with an own [toString] property and the arrays that hold
    one. *)
Theorem mapRelToStatus_case_insensitive (rel : jsval) (question : jsval) (i : nat) :
  (forall s, mapRelToStatus (JStr s) = Some entailed
             <-> in_any_casing "entailment" s = true)
  /\ (forall s, mapRelToStatus (JStr s) = Some contradiction
                <-> in_any_casing "contradiction" s = true)
  /\ (forall s, in_any_casing "entailment" s = false ->
                in_any_casing "contradiction" s = false ->
                mapRelToStatus (JStr s) = Some neutral)
  /\ mapRelToStatus JNull = Some neutral
  /\ mapRelToStatus JUndefined = Some neutral
  /\ (forall text, String_of (coalesce rel (JStr "")) = Some text ->
                   mapRelToStatus rel = mapRelToStatus (JStr text))
  /\ (mapRelToStatus rel = None <-> unconvertible rel = true)
  /\ (supportedByChunk question i = Some true <->
      exists j, j < chunkCountOf question
        /\ (exists label,
               String_of (js_or (responseRelation question j i) (JStr "")) = Some label
               /\ in_any_casing "entailment" label = true)
        /\ forall k, k < j -> unconvertible (responseRelation question k i) = false).
Proof.
  assert (Hstr : forall s, mapRelToStatus (JStr s) = Some (status_of_text s))
    by (intros s; now apply mapRelToStatus_text).
  split.
  { intros s. rewrite Hstr, <- status_of_text_entailed.
    split; [intros H; now injection H | now intros ->]. }
  split.
  { intros s. rewrite Hstr, <- status_of_text_contradiction.
    split; [intros H; now injection H | now intros ->]. }
  split; [intros s Hne Hnc; now rewrite Hstr, status_of_text_neutral |].
  split; [reflexivity |].
  split; [reflexivity |].
  split; [intros text Htext; now rewrite Hstr, (mapRelToStatus_text rel Htext) |].
  split; [apply mapRelToStatus_throws |].
  rewrite supportedByChunk_spec.
  split; intros [j [Hj [Hread Hbefore]]]; exists j; (split; [exact Hj |]).
  - split; [now apply reads_entailment_true |].
    intros k Hk. specialize (Hbefore k Hk).
    destruct (unconvertible (responseRelation question k i)) eqn:Hu; [| reflexivity].
    now apply reads_entailment_throws in Hu.
  - split; [now apply reads_entailment_true |].
    intros k Hk Hnone. apply reads_entailment_throws in Hnone.
    rewrite (Hbefore k Hk) in Hnone. discriminate Hnone.
Qed.

Lemma mapRelToStatus_case_insensitive_witness :
  mapRelToStatus (JStr "eNtAiLmEnT") = Some entailed
  /\ mapRelToStatus (JStr "CONTRADICTION") = Some contradiction
  /\ mapRelToStatus (JStr "Neutral") = Some neutral
  /\ mapRelToStatus (JArr [JStr "Entailment"]) = Some entailed
  /\ supportedByChunk question_uppercase 0 = Some true.
Proof.
  pose proof (mapRelToStatus_case_insensitive (JArr [JStr "Entailment"]) question_uppercase 0)
    as [Hent [Hcon [Hother [_ [_ [Htext [_ Hscan]]]]]]].
  split; [now apply Hent |].
  split; [now apply Hcon |].
  split; [now apply Hother |].
  split; [rewrite (Htext "Entailment"%string eq_refl); now apply Hent |].
  apply Hscan. exists 0. split; [cbn; lia |].
  split; [exists "ENTAILMENT"%string; split; reflexivity |].
  intros k Hk. lia.
Defined.

(** C10 as stated fails on a value that [String] cannot convert: for an
    object with an own [toString] property that is not a function,
    [mapRelToStatus] throws instead of answering 'neutral'; and with such
    a relation on the first chunk the scan throws although the second
    chunk reads 'Entailment'. *)
Lemma mapRelToStatus_not_total_counterexample :
  unconvertible own_toString_object = true
  /\ mapRelToStatus own_toString_object = None
  /\ mapRelToStatus own_toString_object <> Some neutral
  /\ responseRelation question_scan_throws 1 0 = Entailment
  /\ supportedByChunk question_scan_throws 0 = None
  /\ supportedByChunk question_scan_throws 0 <> Some true.
Proof. repeat split; discriminate. Qed.

(* ===================================================================== *)
(** * Facts about [mapDirectStatuses] *)
(* ===================================================================== *)

Lemma traverse_length {A B : Type} (f : A -> option B) (l : list A) (out : list B) :
  traverse f l = Some out -> List.length out = List.length l.
Proof.
  revert out. induction l as [| x l IH]; intros out; cbn [traverse].
  - intros H. injection H as <-. reflexivity.
  - destruct (f x) as [y |]; [| intros H; discriminate H].
    destruct (traverse f l) as [ys |]; [| intros H; discriminate H].
    intros H. injection H as <-. cbn [List.length]. now rewrite (IH ys).
Qed.

Lemma traverse_nth {A B : Type} (f : A -> option B) (l : list A) (out : list B)
    (k : nat) (a : A) (b : B) :
  traverse f l = Some out -> k < List.length l -> f (nth k l a) = Some (nth k out b).
Proof.
  revert out k. induction l as [| x l IH]; intros out k; cbn [traverse List.length].
  - intros _ Hk. lia.
  - destruct (f x) as [y |] eqn:Hx; [| intros H; discriminate H].
    destruct (traverse f l) as [ys |]; [| intros H; discriminate H].
    intros H Hk. injection H as <-. destruct k as [| k]; cbn [nth].
    + exact Hx.
    + apply IH; [reflexivity | lia].
Qed.

Lemma traverse_returns {A B : Type} (f : A -> option B) (l : list A) :
  (forall x, In x l -> f x <> None) <-> exists out, traverse f l = Some out.
Proof.
  induction l as [| x l IH]; cbn [traverse].
  - split; [intros _; now exists [] | intros _ x []].
  - split.
    + intros Hall. destruct (f x) as [y |] eqn:Hx.
      * assert (Hrest : exists out, traverse f l = Some out).
        { apply IH. intros z Hz. apply Hall. now right. }
        destruct Hrest as [ys ->]. now exists (y :: ys).
      * exfalso. apply (Hall x); [now left | exact Hx].
    + intros [out Hout] z [<- | Hz].
      * destruct (f x); [discriminate | discriminate Hout].
      * destruct (f x); [| discriminate Hout].
        destruct (traverse f l) as [ys |] eqn:Hrest; [| discriminate Hout].
        apply (proj2 IH); [now exists ys | exact Hz].
Qed.

Lemma mapDirectStatuses_length (relations : jsval) (targetLen : nat)
    (statuses : list ClaimStatus) :
  mapDirectStatuses relations targetLen = Some statuses ->
  List.length statuses = targetLen.
Proof.
  unfold mapDirectStatuses. intros H. apply traverse_length in H.
  now rewrite length_seq in H.
Qed.

Lemma mapDirectStatuses_nth (relations : jsval) (targetLen i : nat)
    (statuses : list ClaimStatus) :
  mapDirectStatuses relations targetLen = Some statuses ->
  i < targetLen ->
  mapRelToStatus (first_cell (arr_get (array_or_empty relations) (Z.of_nat i)))
  = Some (nth i statuses neutral).
Proof.
  unfold mapDirectStatuses. intros H Hi.
  pose proof (@traverse_nth _ _ _ _ _ i 0 neutral H) as Hnth.
  rewrite length_seq, seq_nth in Hnth by exact Hi. now apply Hnth.
Qed.

Lemma mapDirectStatuses_returns (relations : jsval) (targetLen : nat) :
  (forall k, k < targetLen ->
     unconvertible (first_cell (arr_get (array_or_empty relations) (Z.of_nat k))) = false)
  <-> exists statuses, mapDirectStatuses relations targetLen = Some statuses.
Proof.
  unfold mapDirectStatuses. rewrite <- traverse_returns. split.
  - intros Hall k Hk Hnone. apply in_seq in Hk. apply mapRelToStatus_throws in Hnone.
    rewrite Hall in Hnone by lia. discriminate Hnone.
  - intros Hall k Hk.
    destruct (unconvertible _) eqn:Hu; [| reflexivity].
    apply mapRelToStatus_throws in Hu. exfalso. apply (Hall k); [apply in_seq; lia | exact Hu].
Qed.

Lemma gtClaimStatuses_length (question : jsval) :
  List.length (gtClaimStatuses question) = List.length (gtClaimsList question).
Proof.
  unfold gtClaimStatuses.
  destruct (mapDirectStatuses _ _) as [statuses |] eqn:Hrun.
  - now apply mapDirectStatuses_length in Hrun.
  - apply length_map.
Qed.

Lemma respClaimStatuses_length (question : jsval) :
  List.length (respClaimStatuses question) = List.length (responseClaimsList question).
Proof.
  unfold respClaimStatuses.
  destruct (mapDirectStatuses _ _) as [statuses |] eqn:Hrun.
  - now apply mapDirectStatuses_length in Hrun.
  - apply length_map.
Qed.

Lemma map_neutral_repeat {A : Type} (l : list A) :
  map (fun _ => neutral) l = repeat neutral (List.length l).
Proof. induction l as [| x l IH]; [reflexivity |]. cbn. now rewrite IH. Qed.

(** C4 (amended). For every claim, the disposition that
    [mapDirectStatuses] derives is that of the first cell of the claim's
    relation list: 'entailed' if the first cell is Entailment,
    'contradiction' if it is Contradiction, 'neutral' if it is Neutral; the
    later cells of the list are not read.  [mapDirectStatuses] returns
    these dispositions when [String] converts the first cell of every
    claim; when it does not, the call throws and the two status lists fall
    back to 'neutral' for every claim. *)
Theorem mapDirectStatuses_first_cell
    (relations : jsval) (targetLen i : nat) (first : jsval) (later : list jsval) :
  i < targetLen ->
  arr_get (array_or_empty relations) (Z.of_nat i) = JArr (first :: later) ->
  (forall statuses,
      mapDirectStatuses relations targetLen = Some statuses ->
      mapRelToStatus first = Some (nth i statuses neutral)
      /\ (first = Entailment -> nth i statuses neutral = entailed)
      /\ (first = Contradiction -> nth i statuses neutral = contradiction)
      /\ (first = Neutral -> nth i statuses neutral = neutral))
  /\ ((forall k, k < targetLen ->
         unconvertible (first_cell (arr_get (array_or_empty relations) (Z.of_nat k)))
         = false)
      <-> exists statuses, mapDirectStatuses relations targetLen = Some statuses)
  /\ (forall question,
        (forall statuses,
            mapDirectStatuses (js_prop_opt question "response2answer")
                              (List.length (gtClaimsList question)) = Some statuses ->
            gtClaimStatuses question = statuses)
        /\ (mapDirectStatuses (js_prop_opt question "response2answer")
                              (List.length (gtClaimsList question)) = None ->
            gtClaimStatuses question
            = repeat neutral (List.length (gtClaimsList question)))
        /\ (forall statuses,
               mapDirectStatuses (js_prop_opt question "answer2response")
                                 (List.length (responseClaimsList question)) = Some statuses ->
               respClaimStatuses question = statuses)
        /\ (mapDirectStatuses (js_prop_opt question "answer2response")
                              (List.length (responseClaimsList question)) = None ->
            respClaimStatuses question
            = repeat neutral (List.length (responseClaimsList question)))).
Proof.
  intros Hi Hcells. split; [| split].
  - intros statuses Hrun.
    pose proof (@mapDirectStatuses_nth relations targetLen i statuses Hrun Hi) as Hnth.
    rewrite Hcells in Hnth. cbn [first_cell arr_get Z.ltb Z.compare Z.to_nat nth] in Hnth.
    split; [exact Hnth |].
    repeat split; intros ->; cbn in Hnth; now injection Hnth as <-.
  - apply mapDirectStatuses_returns.
  - intros question. unfold gtClaimStatuses, respClaimStatuses.
    repeat split.
    + now intros statuses ->.
    + intros ->. apply map_neutral_repeat.
    + now intros statuses ->.
    + intros ->. apply map_neutral_repeat.
Qed.

Lemma mapDirectStatuses_first_cell_witness :
  mapDirectStatuses relations_late_entailment 2 = Some [neutral; contradiction]
  /\ mapRelToStatus Contradiction = Some contradiction
  /\ gtClaimStatuses question_unconvertible = [neutral; neutral].
Proof.
  destruct (@mapDirectStatuses_first_cell relations_late_entailment 2 1 Contradiction
              [Entailment]) as [Hfirst [_ Hlists]].
  - lia.
  - reflexivity.
  - split; [reflexivity |].
    destruct (Hfirst [neutral; contradiction] eq_refl) as [Hstatus _].
    split; [exact Hstatus |].
    destruct (Hlists question_unconvertible) as [_ [Hthrow _]].
    apply Hthrow. reflexivity.
Defined.

(** C4 as stated fails when the entailing cell is not the first one: the
    first claim of [relations_late_entailment] has the relation list
    [[Neutral, Entailment]]; some cell is Entailment, and the derived
    disposition is 'neutral'. *)
Lemma mapDirectStatuses_any_cell_counterexample :
  arr_get (array_or_empty relations_late_entailment) 0 = JArr [Neutral; Entailment]
  /\ spec_disposition [Neutral; Entailment] = entailed
  /\ mapDirectStatuses relations_late_entailment 2 = Some [neutral; contradiction]
  /\ nth 0 [neutral; contradiction] neutral <> spec_disposition [Neutral; Entailment].
Proof. repeat split. discriminate. Qed.

Close Scope string_scope.

(* ===================================================================== *)
(** * Facts about [getClaimSetsForChunk] *)
(* ===================================================================== *)

Lemma strict_eq_JStr (rel : jsval) (s : string) :
  strict_eq rel (JStr s) = true <-> rel = JStr s.
Proof.
  destruct rel as [| | b | n | t | items | fields]; cbn;
    try (split; intros H; discriminate H).
  rewrite String.eqb_eq. split; [intros -> | intros [= ->]]; reflexivity.
Qed.

Lemma trim_empty : trim EmptyString = EmptyString.
Proof. reflexivity. Qed.

Lemma is_claim_text_nonempty (x : jsval) :
  is_claim_text x = true -> nonempty (string_value x) = true.
Proof.
  destruct x as [| | b | n | t | items | fields]; cbn; try discriminate.
  destruct t; [discriminate | reflexivity].
Qed.

Lemma extractClaims_array_nonempty (raw : list jsval) (claims : list string) :
  extractClaims_array raw = Some claims ->
  Forall (fun s => nonempty s = true) claims.
Proof.
  unfold extractClaims_array.
  destruct (flat_traverse claims_of_item raw) as [out |]; cbn [option_map];
    [| intros H; discriminate H].
  intros H. injection H as <-. apply Forall_forall. intros s Hin.
  apply in_map_iff in Hin. destruct Hin as [x [<- Hx]].
  apply filter_In in Hx. now apply is_claim_text_nonempty.
Qed.

Lemma extractClaims_fuel_nonempty (fuel : nat) :
  forall raw claims,
    extractClaims_fuel fuel raw = Some claims ->
    Forall (fun s => nonempty s = true) claims.
Proof.
  induction fuel as [| fuel IH]; intros raw claims Hrun; [discriminate |].
  cbn [extractClaims_fuel] in Hrun.
  destruct (negb (truthy raw)).
  { injection Hrun as <-. constructor. }
  destruct (typeof_object raw && negb (Array_isArray raw)
            && Array_isArray (js_prop raw "claims")).
  { now apply (IH (js_prop raw "claims")). }
  destruct raw as [| | b | n | s | items | fields];
    try (injection Hrun as <-; constructor).
  - destruct (if bracketed (trim s) then JSON_parse (trim s) else None) as [parsed |].
    + now apply (IH parsed).
    + destruct (includes_newline (trim s)); injection Hrun as <-; [| constructor].
      apply Forall_forall. intros line Hin. now apply filter_In in Hin.
  - injection Hrun as <-.
    destruct (extractClaims_array items) as [found |] eqn:Harr; [| constructor].
    now apply (extractClaims_array_nonempty items).
Qed.

Lemma extractClaims_nonempty (raw : jsval) :
  Forall (fun s => nonempty s = true) (extractClaims raw).
Proof.
  unfold extractClaims.
  destruct (extractClaims_fuel 3 raw) as [claims |] eqn:Hrun; [| constructor].
  now apply (extractClaims_fuel_nonempty 3 raw).
Qed.

(** What one call of [pushByRel] does to the size of the neutral set. *)
Lemma pushByRel_neutrals (target : RelSets) (rel : jsval) (claim : string) :
  nonempty claim = true ->
  List.length (neutrals (pushByRel target rel claim))
  = List.length (neutrals target) + (if is_label "Neutral" rel then 1 else 0).
Proof.
  intros Hclaim. unfold pushByRel, is_label. rewrite Hclaim. cbn [negb orb].
  destruct rel as [| | b | n | s | items | fields]; cbn [truthy strict_eq negb];
    try (destruct b); try (destruct (n =? 0)%Z); cbn [negb]; try lia.
  destruct (String.eqb_spec s "Entailment") as [-> | HnE]; [cbn; lia |].
  destruct (String.eqb_spec s "Contradiction") as [-> | HnC]; [cbn; lia |].
  destruct (String.eqb_spec s "Neutral") as [-> | HnN].
  - cbn. rewrite length_app. reflexivity.
  - destruct (negb (String.eqb s "")); cbn; lia.
Qed.

(** An unresolved relation is pushed to no set. *)
Lemma pushByRel_unknown (target : RelSets) (claim : string) :
  pushByRel target JUndefined claim = target.
Proof.
  unfold pushByRel. cbn [truthy negb]. now rewrite orb_true_r.
Qed.

Section CollectSets.

Variables (matrix : jsval) (chunkIndex : Z) (chunkCount : nat) (claims : list string).
Hypothesis Hclaims : Forall (fun s => nonempty s = true) claims.

Let relation (i : nat) : jsval :=
  relAt matrix chunkIndex (Z.of_nat i)
        (JNum (Z.of_nat chunkCount)) (JNum (Z.of_nat (List.length claims))).

Let step (target : RelSets) (i : nat) : RelSets :=
  pushByRel target (relation i) (nth i claims EmptyString).

Lemma collect_fold_neutrals (idxs : list nat) :
  Forall (fun i => i < List.length claims) idxs ->
  forall acc,
    List.length (neutrals (fold_left step idxs acc))
    = List.length (neutrals acc)
      + List.length (filter (fun i => is_label "Neutral" (relation i)) idxs).
Proof.
  induction 1 as [| i idxs Hi _ IH]; intros acc; cbn [fold_left filter List.length].
  - lia.
  - rewrite IH. unfold step. rewrite pushByRel_neutrals.
    + destruct (is_label "Neutral" (relation i)); cbn [List.length]; lia.
    + rewrite Forall_forall in Hclaims. apply Hclaims, nth_In, Hi.
Qed.

Lemma collect_sets_neutrals :
  List.length (neutrals (collect_sets matrix chunkIndex chunkCount claims))
  = count_relation matrix chunkIndex chunkCount claims (is_label "Neutral").
Proof.
  unfold collect_sets, count_relation.
  change (fun target i => pushByRel target
            (relAt matrix chunkIndex (Z.of_nat i) (JNum (Z.of_nat chunkCount))
                   (JNum (Z.of_nat (List.length claims))))
            (nth i claims EmptyString)) with step.
  rewrite collect_fold_neutrals; [reflexivity |].
  apply Forall_forall. intros i Hin. apply in_seq in Hin. lia.
Qed.

End CollectSets.

(** C3 (amended). For every chunk, the neutral count that
    [getClaimSetsForChunk] produces, for the ground truth and for the
    response, is the number of claims whose resolved relation is exactly
    'Neutral'; a claim whose relation is unresolved ([undefined]) is added
    to no set. *)
Theorem neutral_count_exact (question : jsval) (chunkIndex : Z) :
  List.length (neutrals (gt (getClaimSetsForChunk question chunkIndex)))
  = count_relation (r2a_of question) chunkIndex (chunkCountOf question)
                   (gtClaimsList question) (is_label "Neutral")
  /\ List.length (neutrals (response (getClaimSetsForChunk question chunkIndex)))
     = count_relation (r2r_of question) chunkIndex (chunkCountOf question)
                      (responseClaimsList question) (is_label "Neutral")
  /\ (forall target claim, pushByRel target JUndefined claim = target).
Proof.
  unfold getClaimSetsForChunk. cbn [gt response].
  split; [| split].
  - apply collect_sets_neutrals, extractClaims_nonempty.
  - apply collect_sets_neutrals, extractClaims_nonempty.
  - apply pushByRel_unknown.
Qed.

(** C3 as stated fails on an unresolved relation: [question_unresolved]
    has one chunk, one ground-truth claim and no relation matrix; the
    relation of the claim resolves to [undefined], the claim counts as
    neutral in the specification's sense, and the neutral set of the chunk
    is empty. *)
Lemma neutral_count_unknown_counterexample :
  relAt (r2a_of question_unresolved) 0 0 (JNum 1) (JNum 1) = JUndefined
  /\ count_relation (r2a_of question_unresolved) 0 (chunkCountOf question_unresolved)
                    (gtClaimsList question_unresolved) spec_neutral_or_unknown = 1
  /\ List.length (neutrals (gt (getClaimSetsForChunk question_unresolved 0))) = 0.
Proof. repeat split. Qed.

(* ===================================================================== *)
(** * Facts about the hover selectors *)
(* ===================================================================== *)

Lemma Column_eqb_eq (a b : Column) : Column_eqb a b = true <-> a = b.
Proof. destruct a, b; cbn; split; intros H; try discriminate H; reflexivity. Qed.

Lemma end_is_spec (e : option NodeRef) (c : Column) (i : Z) :
  end_is e c i = true <-> e = Some {| col := c; index := i |}.
Proof.
  unfold end_is. destruct e as [[c' i'] |]; cbn [col index].
  - rewrite andb_true_iff, Column_eqb_eq, Z.eqb_eq. split.
    + intros [-> ->]. reflexivity.
    + intros [= -> ->]. split; reflexivity.
  - split; intros H; discriminate H.
Qed.

Lemma end_in_spec (e : option NodeRef) (c : Column) (s : list Z) :
  end_in e c s = true <-> exists i, In i s /\ e = Some {| col := c; index := i |}.
Proof.
  unfold end_in. destruct e as [[c' i'] |]; cbn [col index].
  - rewrite andb_true_iff, Column_eqb_eq, existsb_exists. split.
    + intros [-> [x [Hin Hx]]]. apply Z.eqb_eq in Hx. subst x.
      exists i'. split; [exact Hin | reflexivity].
    + intros [i [Hin [= -> ->]]]. split; [reflexivity |].
      exists i. split; [exact Hin | apply Z.eqb_refl].
  - split; [intros H; discriminate H | intros [i [_ H]]; discriminate H].
Qed.

Lemma index_if_nonneg (e : option NodeRef) (c : Column) (v : Z) :
  (0 <= v)%Z -> index_if e c = v <-> e = Some {| col := c; index := v |}.
Proof.
  intros Hv. unfold index_if. destruct e as [[c' i'] |]; cbn [col index].
  - destruct (Column_eqb c' c) eqn:Hc.
    + apply Column_eqb_eq in Hc. subst c'. split; [intros -> | intros [= ->]]; reflexivity.
    + split; [lia |]. intros [= -> ->].
      assert (Column_eqb c c = true) by now apply Column_eqb_eq. congruence.
  - split; [lia | intros H; discriminate H].
Qed.

Lemma in_combine_seq (l : list ConnPath) (start i : nat) (p : ConnPath) :
  In (i, p) (combine (seq start (List.length l)) l) <->
  start <= i /\ nth_error l (i - start) = Some p.
Proof.
  revert start. induction l as [| q l IH]; intros start; cbn [List.length seq combine In].
  - split; [tauto |]. intros [_ H]. now destruct (i - start).
  - rewrite IH. split.
    + intros [[= <- <-] | [Hle Hnth]].
      * rewrite Nat.sub_diag. split; [lia | reflexivity].
      * split; [lia |]. replace (i - start) with (S (i - S start)) by lia. exact Hnth.
    + intros [Hle Hnth]. destruct (Nat.eq_dec start i) as [<- | Hne].
      * left. rewrite Nat.sub_diag in Hnth. cbn in Hnth. now injection Hnth as <-.
      * right. split; [lia |].
        replace (i - start) with (S (i - S start)) in Hnth by lia. exact Hnth.
Qed.

Lemma indices_where_spec (test : ConnPath -> bool) (pathsOut : list ConnPath) (i : nat) :
  In i (indices_where test pathsOut) <->
  exists p, nth_error pathsOut i = Some p /\ test p = true.
Proof.
  unfold indices_where. rewrite in_map_iff. split.
  - intros [[k p] [Hk Hin]]. cbn [fst] in Hk. subst k.
    apply filter_In in Hin. destruct Hin as [Hin Htest].
    apply in_combine_seq in Hin. destruct Hin as [_ Hnth].
    rewrite Nat.sub_0_r in Hnth. exists p. split; assumption.
  - intros [p [Hnth Htest]]. exists (i, p). split; [reflexivity |].
    apply filter_In. split; [| exact Htest].
    apply in_combine_seq. rewrite Nat.sub_0_r. split; [lia | exact Hnth].
Qed.

Lemma indices_where_NoDup (test : ConnPath -> bool) (pathsOut : list ConnPath) :
  NoDup (indices_where test pathsOut).
Proof.
  unfold indices_where.
  assert (Hgen : forall l start,
             NoDup (map fst (filter (fun ip : nat * ConnPath => test (snd ip))
                                    (combine (seq start (List.length l)) l)))
             /\ forall k, In k (map fst (filter (fun ip : nat * ConnPath => test (snd ip))
                                              (combine (seq start (List.length l)) l))) ->
                          start <= k).
  { induction l as [| q l IH]; intros start; cbn [List.length seq combine filter map].
    - split; [constructor | intros k []].
    - destruct (IH (S start)) as [Hnd Hge].
      cbn [snd]. destruct (test q); cbn [map fst].
      + split.
        * constructor; [| exact Hnd]. intros Hin. apply Hge in Hin. lia.
        * intros k [<- | Hin]; [lia |]. apply Hge in Hin. lia.
      + split; [exact Hnd |]. intros k Hin. apply Hge in Hin. lia. }
  apply Hgen.
Qed.

Lemma set_order_In (xs seen : list nat) (x : nat) :
  In x (set_order seen xs) <-> In x xs /\ ~ In x seen.
Proof.
  revert seen. induction xs as [| y xs IH]; intros seen; cbn [set_order In].
  - tauto.
  - destruct (existsb (Nat.eqb y) seen) eqn:Hseen.
    + apply existsb_exists in Hseen. destruct Hseen as [z [Hz Hyz]].
      apply Nat.eqb_eq in Hyz. subst z. rewrite IH. split.
      * tauto.
      * intros [[-> | Hin] Hns]; [contradiction | tauto].
    + assert (Hy : ~ In y seen).
      { intros Hin. apply not_true_iff_false in Hseen. apply Hseen.
        apply existsb_exists. exists y. split; [exact Hin | apply Nat.eqb_refl]. }
      cbn [In]. rewrite IH. cbn [In]. split.
      * intros [<- | [Hin Hns]]; [tauto |]. split; [tauto |]. intros Hs. apply Hns. now right.
      * intros [[<- | Hin] Hns]; [now left |].
        destruct (Nat.eq_dec y x) as [-> | Hne]; [now left |].
        right. split; [exact Hin |]. intros [Heq | Hs]; [congruence | contradiction].
Qed.

Lemma set_order_NoDup (xs seen : list nat) : NoDup (set_order seen xs).
Proof.
  revert seen. induction xs as [| y xs IH]; intros seen; cbn [set_order].
  - constructor.
  - destruct (existsb (Nat.eqb y) seen); [apply IH |].
    constructor; [| apply IH].
    intros Hin. apply set_order_In in Hin. destruct Hin as [_ Hns]. apply Hns. now left.
Qed.

Lemma set_order_fresh (xs : list nat) (x : nat) : In x (set_order [] xs) <-> In x xs.
Proof. rewrite set_order_In. cbn [In]. tauto. Qed.

(** The chunk indices gathered from the direct edges: the non-negative
    indices of the chunk ends of the edges that pass the test. *)
Lemma chunk_indices_spec (pathsOut : list ConnPath) (test : ConnPath -> bool)
    (endpoint : ConnPath -> option NodeRef) (c : Z) :
  In c (filter (fun v => (0 <=? v)%Z)
          (map (fun i => index_if (match nth_error pathsOut i with
                                   | Some p => endpoint p
                                   | None => None
                                   end) col_chunk)
               (indices_where test pathsOut)))
  <-> (0 <= c)%Z
      /\ exists d, In d pathsOut /\ test d = true /\ endpoint d = Some (node col_chunk c).
Proof.
  rewrite filter_In, in_map_iff, Z.leb_le. split.
  - intros [[i [Hidx Hin]] Hc]. split; [exact Hc |].
    apply indices_where_spec in Hin. destruct Hin as [d [Hnth Htest]].
    rewrite Hnth in Hidx. exists d. split; [now apply nth_error_In with i |].
    split; [exact Htest |]. now apply index_if_nonneg.
  - intros [Hc [d [Hin [Htest Hend]]]]. split; [| exact Hc].
    apply In_nth_error in Hin. destruct Hin as [i Hnth].
    exists i. split.
    + rewrite Hnth. now apply index_if_nonneg.
    + apply indices_where_spec. exists d. split; assumption.
Qed.

Lemma selectForGT_spec (pathsOut : list ConnPath) (g i : nat) :
  In i (selectForGT pathsOut g) <->
  exists p, nth_error pathsOut i = Some p /\ selected_from_gt pathsOut g p.
Proof.
  unfold selectForGT, selected_from_gt, dst_at.
  rewrite set_order_fresh, in_app_iff, !indices_where_spec. split.
  - intros [[p [Hnth Hsrc]] | [p [Hnth Hchain]]]; exists p; (split; [exact Hnth |]).
    + left. now apply end_is_spec.
    + right. apply end_in_spec in Hchain. destruct Hchain as [c [Hc Hsrc]].
      apply (chunk_indices_spec pathsOut _ dst) in Hc.
      destruct Hc as [Hc [d [Hin [Htest Hdst]]]].
      exists d, c. apply end_is_spec in Htest. repeat split; assumption.
  - intros [p [Hnth [Hsrc | [d [c [Hin [Hsrc [Hdst [Hc Hp]]]]]]]]].
    + left. exists p. split; [exact Hnth | now apply end_is_spec].
    + right. exists p. split; [exact Hnth |]. apply end_in_spec.
      exists c. split; [| exact Hp].
      apply (chunk_indices_spec pathsOut _ dst). split; [exact Hc |].
      exists d. repeat split; try assumption. now apply end_is_spec.
Qed.

Lemma selectForChunk_spec (pathsOut : list ConnPath) (c i : nat) :
  In i (selectForChunk pathsOut (Z.of_nat c)) <->
  exists p, nth_error pathsOut i = Some p /\ selected_from_chunk c p.
Proof.
  unfold selectForChunk, selected_from_chunk. rewrite indices_where_spec.
  split; intros [p [Hnth Hsel]]; exists p; (split; [exact Hnth |]).
  - apply orb_true_iff in Hsel. now rewrite !end_is_spec in Hsel.
  - apply orb_true_iff. now rewrite !end_is_spec.
Qed.

Lemma selectForResp_spec (pathsOut : list ConnPath) (r i : nat) :
  In i (selectForResp pathsOut r) <->
  exists p, nth_error pathsOut i = Some p /\ selected_from_resp pathsOut r p.
Proof.
  unfold selectForResp, selected_from_resp, src_at.
  rewrite set_order_fresh, in_app_iff, !indices_where_spec. split.
  - intros [[p [Hnth Hdst]] | [p [Hnth Hchain]]]; exists p; (split; [exact Hnth |]).
    + left. now apply end_is_spec.
    + right. apply end_in_spec in Hchain. destruct Hchain as [c [Hc Hdst]].
      apply (chunk_indices_spec pathsOut _ src) in Hc.
      destruct Hc as [Hc [d [Hin [Htest Hsrc]]]].
      exists d, c. apply end_is_spec in Htest. repeat split; assumption.
  - intros [p [Hnth [Hdst | [d [c [Hin [Hdst [Hsrc [Hc Hp]]]]]]]]].
    + left. exists p. split; [exact Hnth | now apply end_is_spec].
    + right. exists p. split; [exact Hnth |]. apply end_in_spec.
      exists c. split; [| exact Hp].
      apply (chunk_indices_spec pathsOut _ src). split; [exact Hc |].
      exists d. repeat split; try assumption. now apply end_is_spec.
Qed.

(** C7 (amended). With no claim filtered out of the rendered lists:
    hovering a ground-truth claim selects exactly the edges that leave
    the claim together with every chunk-to-response edge that leaves a
    chunk reached by one of them; hovering a response claim selects exactly
    the edges that enter the claim together with every
    ground-truth-to-chunk edge that enters a chunk one of them leaves.
    Hovering a chunk selects exactly the edges at that chunk, one hop only.
    No edge is selected twice.  The hovered claim is the item at position
    [pos] of its list, and [claim] is the index that it carries. *)
Theorem hover_selection (pathsOut : list ConnPath) (gtNodes respNodes : list (option Z))
    (pos claim chunk i : nat) (attr : option Z) :
  (unfiltered gtNodes -> nth_error gtNodes pos = Some attr ->
   item_index attr pos = Z.of_nat claim ->
   (In i (hoverSelect pathsOut col_gt pos) <->
    exists p, nth_error pathsOut i = Some p /\ selected_from_gt pathsOut claim p))
  /\ (In i (hoverSelect pathsOut col_chunk chunk) <->
      exists p, nth_error pathsOut i = Some p /\ selected_from_chunk chunk p)
  /\ (unfiltered respNodes -> nth_error respNodes pos = Some attr ->
      item_index attr pos = Z.of_nat claim ->
      (In i (hoverSelect pathsOut col_resp pos) <->
       exists p, nth_error pathsOut i = Some p /\ selected_from_resp pathsOut claim p))
  /\ (forall c k, NoDup (hoverSelect pathsOut c k)).
Proof.
  assert (Hsame : forall nodes, unfiltered nodes -> nth_error nodes pos = Some attr ->
                                item_index attr pos = Z.of_nat claim -> claim = pos).
  { intros nodes Hall Hnode Hclaim. apply Nat2Z.inj.
    rewrite <- Hclaim. now apply (Hall pos attr). }
  split.
  { intros Hall Hnode Hclaim. rewrite (Hsame gtNodes Hall Hnode Hclaim).
    apply selectForGT_spec. }
  split; [apply selectForChunk_spec |].
  split.
  { intros Hall Hnode Hclaim. rewrite (Hsame respNodes Hall Hnode Hclaim).
    apply selectForResp_spec. }
  intros [| |] k; cbn [hoverSelect].
  - apply set_order_NoDup.
  - apply indices_where_NoDup.
  - apply set_order_NoDup.
Qed.

Lemma unfiltered_two : unfiltered [Some 0%Z; Some 1%Z].
Proof.
  intros [| [| pos]] attr Hnode; cbn in Hnode.
  - injection Hnode as <-. reflexivity.
  - injection Hnode as <-. reflexivity.
  - destruct pos; discriminate Hnode.
Qed.

Lemma hover_selection_witness :
  In 0 (hoverSelect [edge gtChunk Entailment col_gt 1 col_chunk 0] col_gt 1)
  <-> exists p, nth_error [edge gtChunk Entailment col_gt 1 col_chunk 0] 0 = Some p
                /\ selected_from_gt [edge gtChunk Entailment col_gt 1 col_chunk 0] 1 p.
Proof.
  destruct (@hover_selection [edge gtChunk Entailment col_gt 1 col_chunk 0]
              [Some 0%Z; Some 1%Z] [] 1 1 0 0 (Some 1%Z)) as [Hgt _].
  apply Hgt.
  - exact unfiltered_two.
  - reflexivity.
  - reflexivity.
Defined.

Example paths_fan_built :
  buildPaths question_fan [Some 0%Z] [Some 0; Some 1]%Z [] = Some paths_fan.
Proof. reflexivity. Qed.

(** C7 as stated fails for a hovered chunk: in [paths_fan] the claim GT 0
    is linked to chunk 0 (edge 0) and to chunk 1 (edge 1).  GT 0 is one hop
    from chunk 0, so the two-hop neighbourhood of chunk 0 contains edge 1;
    hovering chunk 0 selects edge 0 only. *)
Lemma hover_chunk_one_hop_counterexample :
  spec_two_hop paths_fan col_chunk 0 = [0; 1]
  /\ hoverSelect paths_fan col_chunk 0 = [0]
  /\ ~ (forall i, In i (hoverSelect paths_fan col_chunk 0) <->
                  In i (spec_two_hop paths_fan col_chunk 0)).
Proof.
  split; [reflexivity |]. split; [reflexivity |].
  intros Hsame. specialize (Hsame 1). cbn in Hsame.
  destruct Hsame as [_ Hback].
  destruct Hback as [H | []]; [now right; left | discriminate H].
Qed.

(** With every claim rendered, the connector of the second claim is edge 0
    and hovering the claim at position 1 selects it. *)
Example hover_all_claims_rendered :
  buildPaths question_two_claims [Some 0; Some 1]%Z [Some 0%Z] []
  = Some [edge gtChunk Entailment col_gt 1 col_chunk 0]
  /\ hoverSelect [edge gtChunk Entailment col_gt 1 col_chunk 0] col_gt 1 = [0].
Proof. split; reflexivity. Qed.

(** The selectors of the claims compare the edge ends with the position of
    the hovered item in the rendered list, while [compute] takes the index
    of a claim from its attribute, as its comment says, for the case that
    claims are filtered out.  When the neutral first claim is filtered out,
    the second claim is rendered at position 0 and keeps the index 1 on
    its connector: hovering it selects nothing.  The chunk selector
    compares with the index that the chunk carries. *)
Example hover_filtered_claim_position :
  ~ unfiltered [Some 1%Z]
  /\ buildPaths question_two_claims [Some 1%Z] [Some 0%Z] []
     = Some [edge gtChunk Entailment col_gt 1 col_chunk 0]
  /\ hoverSelect [edge gtChunk Entailment col_gt 1 col_chunk 0] col_gt 0 = [].
Proof.
  split; [| split; reflexivity].
  intros Hall. specialize (Hall 0 (Some 1%Z) eq_refl). discriminate Hall.
Qed.

(* ===================================================================== *)
(** * Facts about JSON texts *)
(* ===================================================================== *)

Open Scope string_scope.

Lemma append_assoc (s1 s2 s3 : string) : (s1 ++ s2) ++ s3 = s1 ++ (s2 ++ s3).
Proof. induction s1 as [| c s1 IH]; cbn; [reflexivity | now rewrite IH]. Qed.

Lemma length_append (s1 s2 : string) :
  String.length (s1 ++ s2) = (String.length s1 + String.length s2)%nat.
Proof. induction s1 as [| c s1 IH]; cbn; [reflexivity | now rewrite IH]. Qed.

(** Reading back the escape of one character gives the character. *)
Lemma quote_char_parses (c : ascii) (rest : string) :
  parse_chars (quote_char c ++ rest) = prepend (str1 c) (parse_chars rest).
Proof.
  destruct c as [[] [] [] [] [] [] [] []]; reflexivity.
Qed.

Lemma parse_chars_quote (s after : string) :
  parse_chars (quote_chars s ++ String char_dquote after) = Some (s, after).
Proof.
  induction s as [| c s IH].
  - reflexivity.
  - cbn [quote_chars]. rewrite append_assoc, quote_char_parses, IH. reflexivity.
Qed.

Lemma JSON_quote_append (s after : string) :
  JSON_quote s ++ after = String char_dquote (quote_chars s ++ String char_dquote after).
Proof.
  unfold JSON_quote. cbn [append]. now rewrite append_assoc.
Qed.

Lemma parse_value_quote (fuel : nat) (s after : string) :
  parse_value (S fuel) (JSON_quote s ++ after) = Some (JStr s, after).
Proof.
  rewrite JSON_quote_append.
  cbn [parse_value skip_space]. change (is_json_space char_dquote) with false.
  change (code char_dquote =? 91)%N with false.
  change (code char_dquote =? 123)%N with false.
  change (code char_dquote =? 34)%N with true.
  cbv iota. now rewrite parse_chars_quote.
Qed.

Lemma elements_text_cons (s : string) (a : list string) (after : string) :
  elements_text (s :: a) ++ after
  = JSON_quote s ++ match a with
                    | [] => after
                    | _ :: _ => String "," (elements_text a ++ after)
                    end.
Proof.
  unfold elements_text. destruct a as [| y a]; cbn [map String.concat]; [reflexivity |].
  now rewrite !append_assoc.
Qed.

Lemma parse_elements_step (fuel : nat) (acc : list jsval) (s : string) :
  parse_elements (S fuel) acc s
  = match parse_value fuel s with
    | Some (v, after) =>
        match skip_space after with
        | String c rest =>
            if (code c =? 44)%N then parse_elements fuel (acc ++ [v])%list rest
            else if (code c =? 93)%N then Some ((acc ++ [v])%list, rest)
            else None
        | EmptyString => None
        end
    | None => None
    end.
Proof. reflexivity. Qed.

Lemma parse_elements_strings (a : list string) :
  forall (s : string) (fuel : nat) (acc : list jsval) (after : string),
    (List.length a + 2 <= fuel)%nat ->
    parse_elements fuel acc (elements_text (s :: a) ++ String "]" after)
    = Some ((acc ++ map JStr (s :: a))%list, after).
Proof.
  induction a as [| y a IH]; intros s fuel acc after Hfuel;
    destruct fuel as [| [| fuel]]; cbn [List.length] in Hfuel; try lia;
    rewrite parse_elements_step, elements_text_cons, parse_value_quote.
  - reflexivity.
  - cbn [skip_space]. change (is_json_space ",") with false.
    change (code "," =? 44)%N with true. cbv iota.
    rewrite IH by lia. cbn [map]. now rewrite <- app_assoc.
Qed.

Lemma JSON_text_strings (a : list string) :
  JSON_text (JArr (map JStr a)) = String "[" (elements_text a ++ "]").
Proof.
  cbn [JSON_text]. rewrite map_map. reflexivity.
Qed.

Lemma elements_text_length (a : list string) :
  (List.length a <= String.length (elements_text a))%nat.
Proof.
  unfold elements_text. induction a as [| s [| y a] IH]; cbn [map String.concat List.length].
  - cbn. lia.
  - unfold JSON_quote. cbn. lia.
  - cbn [map String.concat List.length] in IH. rewrite !length_append.
    unfold JSON_quote at 1. cbn [String.length]. lia.
Qed.

(** Reading back the JSON text of an array of strings gives the array. *)
Theorem JSON_parse_stringify_strings (a : list string) :
  JSON_parse (JSON_text (JArr (map JStr a))) = Some (JArr (map JStr a)).
Proof.
  rewrite JSON_text_strings. unfold JSON_parse.
  set (fuel := (2 * String.length (String "[" (elements_text a ++ "]")) + 2)%nat).
  assert (Hfuel : (List.length a + 3 <= fuel)%nat).
  { subst fuel. cbn [String.length]. rewrite length_append.
    pose proof (elements_text_length a). lia. }
  destruct fuel as [| fuel]; [lia |].
  cbn [parse_value skip_space]. change (is_json_space "[") with false.
  change (code "[" =? 91)%N with true. cbv iota.
  destruct a as [| s a].
  - reflexivity.
  - rewrite elements_text_cons, JSON_quote_append.
    cbn [skip_space]. change (is_json_space char_dquote) with false.
    change (code char_dquote =? 93)%N with false. cbv iota.
    rewrite <- JSON_quote_append, <- elements_text_cons.
    rewrite (parse_elements_strings a s) by (cbn [List.length] in Hfuel; lia).
    reflexivity.
Qed.

(* ===================================================================== *)
(** * Facts about [trim] on bracketed texts *)
(* ===================================================================== *)

Lemma strip_space_open_bracket (r : string) : strip_space (String "[" r) = None.
Proof. destruct r as [| c2 [| c3 r3]]; reflexivity. Qed.

Lemma trimStart_open_bracket (r : string) : trimStart (String "[" r) = String "[" r.
Proof.
  unfold trimStart. cbn [String.length trimStart_fuel].
  now rewrite strip_space_open_bracket.
Qed.

(** Stripping one white-space character never eats a closing bracket at
    the end of the text. *)
Lemma strip_space_keeps_close (u rest : string) :
  strip_space (u ++ "]") = Some rest -> exists u', rest = u' ++ "]".
Proof.
  destruct u as [| c1 [| c2 [| c3 u3]]]; cbn [append]; unfold strip_space; intros H.
  - discriminate H.
  - destruct ((9 <=? code c1) && (code c1 <=? 13) || (code c1 =? 32))%N.
    + injection H as <-. now exists "".
    + change (code "]") with 93%N in H. cbn [N.eqb Pos.eqb] in H.
      rewrite andb_false_r in H. discriminate H.
  - destruct ((9 <=? code c1) && (code c1 <=? 13) || (code c1 =? 32))%N.
    + injection H as <-. now exists (str1 c2).
    + destruct ((code c1 =? 194) && (code c2 =? 160))%N.
      * injection H as <-. now exists "".
      * change (code "]") with 93%N in H.
        cbn [N.eqb N.leb N.compare Pos.eqb Pos.compare Pos.compare_cont andb orb] in H.
        rewrite !andb_false_r in H. discriminate H.
  - destruct ((9 <=? code c1) && (code c1 <=? 13) || (code c1 =? 32))%N.
    + injection H as <-. now exists (String c2 (String c3 u3)).
    + destruct ((code c1 =? 194) && (code c2 =? 160))%N.
      * injection H as <-. now exists (String c3 u3).
      * match type of H with
        | (if ?b then _ else _) = _ => destruct b
        end; [| discriminate H].
        injection H as <-. now exists u3.
Qed.

Lemma all_space_fuel_close (fuel : nat) :
  forall u, all_space_fuel fuel (u ++ "]") = false.
Proof.
  induction fuel as [| fuel IH]; intros u.
  - destruct u; reflexivity.
  - assert (Hstep : all_space_fuel (S fuel) (u ++ "]")
                    = match strip_space (u ++ "]") with
                      | Some rest => all_space_fuel fuel rest
                      | None => false
                      end)
      by (destruct u; reflexivity).
    rewrite Hstep.
    destruct (strip_space (u ++ "]")) as [rest |] eqn:Hstrip; [| reflexivity].
    apply strip_space_keeps_close in Hstrip. destruct Hstrip as [u' ->]. apply IH.
Qed.

Lemma trimEnd_close (u : string) : trimEnd (u ++ "]") = u ++ "]".
Proof.
  induction u as [| c u IH].
  - reflexivity.
  - cbn [append trimEnd]. unfold all_space.
    change (String c (u ++ "]")) with (String c u ++ "]") at 2.
    now rewrite all_space_fuel_close, IH.
Qed.

Lemma trim_brackets (body : string) :
  trim (String "[" (body ++ "]")) = String "[" (body ++ "]").
Proof.
  unfold trim. rewrite trimStart_open_bracket.
  change (String "[" (body ++ "]")) with (String "[" body ++ "]").
  apply trimEnd_close.
Qed.

Lemma endsWith_char_append (c : ascii) (u : string) : endsWith_char c (u ++ str1 c) = true.
Proof.
  induction u as [| d u IH].
  - cbn. apply Ascii.eqb_refl.
  - cbn [append]. destruct u as [| e u]; exact IH.
Qed.

Lemma bracketed_brackets (body : string) : bracketed (String "[" (body ++ "]")) = true.
Proof.
  unfold bracketed.
  change (String "[" (body ++ "]")) with (String "[" body ++ str1 "]") at 2.
  rewrite endsWith_char_append.
  unfold startsWith. cbn [String.prefix].
  destruct (ascii_dec "[" "[") as [_ | Hne]; [| now contradiction Hne].
  now destruct (body ++ "]").
Qed.

(* ===================================================================== *)
(** * Facts about [extractClaims] *)
(* ===================================================================== *)

Lemma extractClaims_fuel_array (fuel : nat) (items : list jsval) :
  extractClaims_fuel (S fuel) (JArr items)
  = Some (match extractClaims_array items with
          | Some claims => claims
          | None => []
          end).
Proof. reflexivity. Qed.

Lemma extractClaims_fuel_text (fuel : nat) (c : ascii) (s : string) :
  extractClaims_fuel (S fuel) (JStr (String c s))
  = match (if bracketed (trim (String c s)) then JSON_parse (trim (String c s)) else None) with
    | Some parsed => extractClaims_fuel fuel parsed
    | None =>
        if includes_newline (trim (String c s))
        then Some (filter nonempty (map trim (split_newline (trim (String c s)))))
        else Some []
    end.
Proof. reflexivity. Qed.

(** C8. For every array of strings [a], extracting the claims from
    [JSON.stringify(a)] gives the same sequence of claims as extracting
    them from [a] itself. *)
Theorem extractClaims_stringify_roundtrip (a : list string) :
  extractClaims (JSON_stringify (JArr (map JStr a))) = extractClaims (JArr (map JStr a)).
Proof.
  unfold extractClaims, JSON_stringify.
  rewrite extractClaims_fuel_array.
  pose proof (JSON_parse_stringify_strings a) as Hparse.
  rewrite JSON_text_strings in *.
  rewrite extractClaims_fuel_text, trim_brackets, bracketed_brackets, Hparse.
  now rewrite extractClaims_fuel_array.
Qed.

(** A text that opens with a bracket or a brace reads as an array or an
    object, if it reads at all. *)
Lemma parse_value_container (fuel : nat) (c : ascii) (r : string) (v : jsval) (rest : string) :
  (code c =? 91)%N || (code c =? 123)%N = true ->
  parse_value fuel (String c r) = Some (v, rest) ->
  is_container v = true.
Proof.
  intros Hopen Hparse. destruct fuel as [| fuel]; [discriminate Hparse |].
  cbn [parse_value skip_space] in Hparse.
  assert (Hspace : is_json_space c = false).
  { unfold is_json_space.
    destruct (code c =? 91)%N eqn:H91; [apply N.eqb_eq in H91; now rewrite H91 |].
    cbn [orb] in Hopen. apply N.eqb_eq in Hopen. now rewrite Hopen. }
  rewrite Hspace in Hparse.
  destruct (code c =? 91)%N.
  - destruct (skip_space r) as [| c' r']; [discriminate Hparse |].
    destruct (code c' =? 93)%N; [now injection Hparse as <- _ |].
    destruct (parse_elements fuel [] r) as [[items after] |]; [| discriminate Hparse].
    now injection Hparse as <- _.
  - cbn [orb] in Hopen. rewrite Hopen in Hparse.
    destruct (skip_space r) as [| c' r']; [discriminate Hparse |].
    destruct (code c' =? 125)%N; [now injection Hparse as <- _ |].
    destruct (parse_members fuel [] r) as [[fields after] |]; [| discriminate Hparse].
    now injection Hparse as <- _.
Qed.

Lemma bracketed_open (t : string) :
  bracketed t = true ->
  exists c r, t = String c r /\ (code c =? 91)%N || (code c =? 123)%N = true.
Proof.
  unfold bracketed, startsWith. destruct t as [| c r]; [discriminate |].
  cbn [String.prefix]. intros H. exists c, r. split; [reflexivity |].
  destruct (ascii_dec "[" c) as [<- | _]; [reflexivity |].
  destruct (ascii_dec "{" c) as [<- | _]; [reflexivity |].
  discriminate H.
Qed.

Lemma JSON_parse_container (t : string) (v : jsval) :
  bracketed t = true -> JSON_parse t = Some v -> is_container v = true.
Proof.
  intros Hb Hparse. apply bracketed_open in Hb. destruct Hb as [c [r [-> Hopen]]].
  unfold JSON_parse in Hparse.
  destruct (parse_value _ (String c r)) as [[v' rest] |] eqn:Hval; [| discriminate Hparse].
  destruct (skip_space rest); [| discriminate Hparse].
  injection Hparse as <-. now apply (parse_value_container _ _ _ Hopen Hval).
Qed.

(** On an array or an object two levels of calls are enough. *)
Lemma extractClaims_fuel_container (v : jsval) (fuel : nat) :
  is_container v = true ->
  exists claims,
    extractClaims_fuel 2 v = Some claims
    /\ extractClaims_fuel (S (S fuel)) v = Some claims.
Proof.
  destruct v as [| | b | n | s | items | fields]; try discriminate; intros _.
  - eexists. split; reflexivity.
  - cbn [extractClaims_fuel truthy negb typeof_object Array_isArray andb].
    destruct (js_prop (JObj fields) "claims") as [| | b | n | s | items |];
      cbn [Array_isArray]; try (exists []; split; reflexivity).
    eexists. split; reflexivity.
Qed.

(** [extractClaims] always returns: three levels of calls are enough on
    every input, and more fuel changes nothing. *)
Theorem extractClaims_fuel_enough (raw : jsval) (fuel : nat) :
  (3 <= fuel)%nat -> extractClaims_fuel fuel raw = Some (extractClaims raw).
Proof.
  intros Hfuel. destruct fuel as [| [| [| fuel]]]; try lia. clear Hfuel.
  unfold extractClaims.
  assert (Hsame : exists claims,
             extractClaims_fuel 3 raw = Some claims
             /\ extractClaims_fuel (S (S (S fuel))) raw = Some claims).
  { destruct raw as [| | b | n | s | items | fields].
    - exists []. split; reflexivity.
    - exists []. split; reflexivity.
    - exists []. destruct b; split; reflexivity.
    - exists []. cbn [extractClaims_fuel truthy typeof_object andb].
      destruct (negb (n =? 0)%Z); split; reflexivity.
    - destruct s as [| c s]; [exists []; split; reflexivity |].
      rewrite !extractClaims_fuel_text.
      destruct (bracketed (trim (String c s))) eqn:Hb.
      + destruct (JSON_parse (trim (String c s))) as [parsed |] eqn:Hparse.
        * apply (extractClaims_fuel_container parsed fuel).
          now apply (JSON_parse_container (trim (String c s))).
        * destruct (includes_newline (trim (String c s))); eexists; split; reflexivity.
      + destruct (includes_newline (trim (String c s))); eexists; split; reflexivity.
    - eexists. split; reflexivity.
    - destruct (extractClaims_fuel_container (JObj fields) (S fuel) eq_refl)
        as [claims [_ Hmore]].
      destruct (extractClaims_fuel_container (JObj fields) 1 eq_refl)
        as [claims' [Htwo Hthree]].
      exists claims'. split; [exact Hthree |].
      destruct (extractClaims_fuel_container (JObj fields) (S fuel) eq_refl)
        as [claims'' [Htwo' Hmore']].
      congruence. }
  destruct Hsame as [claims [Hthree Hmore]]. now rewrite Hmore, Hthree.
Qed.

Example extractClaims_of_stringified :
  JSON_stringify (JArr [JStr "a b"; JStr " "; JStr (String "x" (String char_dquote "y"))])
  = JStr (String "[" (String char_dquote (String "a" (String " " (String "b"
      (String char_dquote (String "," (String char_dquote (String " "
      (String char_dquote (String "," (String char_dquote (String "x"
      (String char_backslash (String char_dquote (String "y"
      (String char_dquote "]")))))))))))))))))
  /\ extractClaims
       (JSON_stringify (JArr [JStr "a b"; JStr " "; JStr (String "x" (String char_dquote "y"))]))
     = ["a b"; String "x" (String char_dquote "y")].
Proof. split; reflexivity. Qed.

(** The shapes that [extractClaims] accepts: an object with a [claims]
    array, tuples and objects with a text field inside an array, and a text
    of lines. *)
Example extractClaims_shapes :
  extractClaims
    (JObj [("claims",
            JArr [ JStr "plain";
                   JArr [JStr "subject"; JStr "relation"; JObj [("text", JStr "object")]];
                   JObj [("content", JStr "from an object")];
                   JStr "   ";
                   JNum 7 ])])
  = ["plain"; "subject — relation — object"; "from an object"]
  /\ extractClaims (JStr (" one " ++ String char_newline (String char_newline " two")))
     = ["one"; "two"]
  /\ extractClaims (JStr "no line break") = []
  /\ extractClaims JNull = [].
Proof. repeat split. Qed.

(** [trim] removes the no-break space U+00A0 (bytes 194 160) and the
    ideographic space U+3000 (bytes 227 128 128) like the ASCII blanks. *)
Example trim_unicode_spaces :
  trim (String "194" (String "160" (" a b " ++
          String "227" (String "128" (String "128" (String "009" EmptyString))))))
  = "a b".
Proof. reflexivity. Qed.

Close Scope string_scope.

(* ===================================================================== *)
(** * More facts about [relAt] *)
(* ===================================================================== *)

Lemma first_some_origin (candidates : list (bool * option jsval)) :
  first_some candidates = JUndefined
  \/ exists g, In (g, Some (first_some candidates)) candidates.
Proof.
  induction candidates as [| [g o] rest IH].
  - now left.
  - destruct o as [v |].
    + destruct g.
      * right. exists true. left. reflexivity.
      * rewrite first_some_skip by now left.
        destruct IH as [Hu | [g' Hin]]; [now left | right; exists g'; now right].
    + rewrite first_some_skip by now right.
      destruct IH as [Hu | [g' Hin]]; [now left | right; exists g'; now right].
Qed.

(** [relAt] is the ordered fall-back chain of the resolver: on a matrix that
    is not an array the result is [undefined]; on an array it is the first
    read that succeeds among rows-as-chunks when the outer length is the
    chunk count, rows-as-claims when it is the claim count, the same two
    decided by the length of the first row, and the two direct reads that
    stay within the row. *)
Theorem relAt_fallback_chain (matrix : jsval) (i j : Z) (cc kc : jsval) :
  relAt matrix i j cc kc
  = match matrix with
    | JArr m =>
        first_some
          [ (outer_is m cc, read2 m i j);
            (outer_is m kc, read2 m j i);
            (first_len_is m kc, read2 m i j);
            (first_len_is m cc, read2 m j i);
            (longer_row m i j, read2 m i j);
            (longer_row m j i, read2 m j i) ]
    | _ => JUndefined
    end.
Proof.
  destruct matrix as [| | b | n | s | m | fields];
    try (apply relAt_not_array; reflexivity).
  apply relAt_chain.
Qed.

Lemma relAt_cell_or_undefined (m : list jsval) (i j : Z) (cc kc : jsval) :
  relAt (JArr m) i j cc kc = JUndefined
  \/ read2 m i j = Some (relAt (JArr m) i j cc kc)
  \/ read2 m j i = Some (relAt (JArr m) i j cc kc).
Proof.
  rewrite relAt_chain.
  match goal with
  | |- first_some ?l = _ \/ _ => destruct (first_some_origin l) as [Hu | [g Hin]]
  end.
  - now left.
  - right. cbn [In] in Hin.
    repeat match type of Hin with
           | _ \/ _ => destruct Hin as [Hin | Hin]
           end;
      try contradiction;
      injection Hin as Hg Hread; auto.
Qed.

(** [relAt] never makes a value up: what it returns is [undefined], or the
    cell [m[chunkIdx][claimIdx]] or the cell [m[claimIdx][chunkIdx]] of a
    matrix that is an array, whatever the counts say. *)
Theorem relAt_reads_a_cell (matrix : jsval) (i j : Z) (cc kc : jsval) :
  relAt matrix i j cc kc = JUndefined
  \/ exists m, matrix = JArr m
               /\ (read2 m i j = Some (relAt matrix i j cc kc)
                   \/ read2 m j i = Some (relAt matrix i j cc kc)).
Proof.
  destruct matrix as [| | b | n | s | m | fields];
    try (left; apply relAt_not_array; reflexivity).
  destruct (relAt_cell_or_undefined m i j cc kc) as [Hu | Hcell]; [now left |].
  right. exists m. split; [reflexivity | exact Hcell].
Qed.

Lemma longer_row_in_range (rows : list (list jsval)) (r c : nat) (a b : Z) :
  shaped r c rows -> (0 <= a < Z.of_nat r)%Z ->
  longer_row (map JArr rows) a b = (b <? Z.of_nat c)%Z.
Proof.
  intros Hm Ha. pose proof Hm as [Hlen _]. unfold longer_row.
  rewrite row_in_range by lia.
  now rewrite (shaped_row_length Hm) by lia.
Qed.

Lemma read2_in_range_cell (rows : list (list jsval)) (r c : nat) (a b : Z) :
  shaped r c rows -> in_range r c a b ->
  read2 (map JArr rows) a b = Some (cell rows (Z.to_nat a) (Z.to_nat b)).
Proof.
  intros Hm [Ha Hb]. rewrite (read2_in_range Hm) by exact Ha.
  unfold arr_get, cell.
  destruct (Z.ltb_spec b 0) as [Hneg | _]; [lia | reflexivity].
Qed.

(** Without any count the resolver indexes directly, rows as chunks first:
    a coordinate of a well-formed matrix reads its own cell; a coordinate
    outside it whose swapped pair is inside reads the swapped cell; any
    other coordinate reads [undefined]. *)
Theorem relAt_without_counts (rows : list (list jsval)) (r c : nat) (i j : Z) :
  shaped r c rows ->
  (in_range r c i j ->
   relAt (matrix_of rows) i j JUndefined JUndefined
   = cell rows (Z.to_nat i) (Z.to_nat j))
  /\ (~ in_range r c i j -> in_range r c j i ->
      relAt (matrix_of rows) i j JUndefined JUndefined
      = cell rows (Z.to_nat j) (Z.to_nat i))
  /\ (~ in_range r c i j -> ~ in_range r c j i ->
      relAt (matrix_of rows) i j JUndefined JUndefined = JUndefined).
Proof.
  intros Hm. unfold matrix_of. rewrite relAt_chain.
  assert (Hno : forall m' , outer_is m' JUndefined = false) by reflexivity.
  assert (Hnf : forall m', first_len_is m' JUndefined = false).
  { intros m'. unfold first_len_is. now destruct (arr_get m' 0). }
  rewrite !Hno, !Hnf.
  rewrite !first_some_skip by now left.
  split; [| split].
  - intros Hin. pose proof Hin as [Hi Hj].
    rewrite (read2_in_range_cell Hm Hin), (@longer_row_in_range rows r c i j Hm Hi).
    replace (j <? Z.of_nat c)%Z with true by (symmetry; apply Z.ltb_lt; lia).
    apply first_some_hit.
  - intros Hout Hin. pose proof Hin as [Hj Hi].
    rewrite (read2_in_range_cell Hm Hin), (@longer_row_in_range rows r c j i Hm Hj).
    replace (i <? Z.of_nat c)%Z with true by (symmetry; apply Z.ltb_lt; lia).
    destruct (read2_outside Hm Hout) as [Hnone | Hund].
    + rewrite Hnone, first_some_skip by now right. apply first_some_hit.
    + (* the row exists, so the column is out of range and not negative *)
      assert (Hrow : (0 <= i < Z.of_nat r)%Z).
      { destruct (Z_lt_dec i 0) as [Hneg | Hnn]; [lia |].
        destruct (Z_le_dec (Z.of_nat r) i) as [Hbig | Hsm]; [| lia].
        rewrite (read2_out_of_range Hm) in Hund by lia. discriminate Hund. }
      rewrite (@longer_row_in_range rows r c i j Hm Hrow).
      replace (j <? Z.of_nat c)%Z with false
        by (symmetry; apply Z.ltb_ge; unfold in_range in Hout; lia).
      rewrite first_some_skip by now left. apply first_some_hit.
  - intros Hij Hji. apply first_some_undefined.
    pose proof (read2_outside Hm Hij). pose proof (read2_outside Hm Hji).
    repeat (apply Forall_cons; [cbn [snd]; assumption |]). apply Forall_nil.
Qed.

Lemma relAt_without_counts_witness :
  relAt (matrix_of matrix_2x3) 1 2 JUndefined JUndefined = Entailment
  /\ relAt (matrix_of matrix_2x3) 2 1 JUndefined JUndefined = Entailment
  /\ relAt (matrix_of matrix_2x3) 2 2 JUndefined JUndefined = JUndefined.
Proof.
  assert (Hm : shaped 2 3 matrix_2x3) by (split; [reflexivity | repeat constructor]).
  destruct (@relAt_without_counts matrix_2x3 2 3 1 2 Hm) as [Hin _].
  destruct (@relAt_without_counts matrix_2x3 2 3 2 1 Hm) as [_ [Hswap _]].
  destruct (@relAt_without_counts matrix_2x3 2 3 2 2 Hm) as [_ [_ Hout]].
  split; [apply Hin; unfold in_range; lia |].
  split; [apply Hswap; unfold in_range; lia |].
  apply Hout; unfold in_range; lia.
Defined.

(** One matching count is enough to fix the orientation: with only the
    chunk count given and equal to the outer length the rows are chunks,
    with only the claim count given and equal to the outer length the rows
    are claims. *)
Theorem relAt_single_count (rows : list (list jsval)) (r c i j : nat) :
  shaped r c rows ->
  (i < r ->
   relAt (matrix_of rows) (Z.of_nat i) (Z.of_nat j) (JNum (Z.of_nat r)) JUndefined
   = cell rows i j)
  /\ (j < r ->
      relAt (matrix_of rows) (Z.of_nat i) (Z.of_nat j) JUndefined (JNum (Z.of_nat r))
      = cell rows j i).
Proof.
  intros Hm. unfold matrix_of. split; intros Hlt; rewrite relAt_chain.
  - rewrite (outer_is_rows Hm), Nat.eqb_refl, (read2_cell Hm) by exact Hlt.
    apply first_some_hit.
  - rewrite (outer_is_rows Hm), Nat.eqb_refl, (@read2_cell rows r c Hm j i Hlt).
    rewrite first_some_skip by now left. apply first_some_hit.
Qed.

Lemma relAt_single_count_witness :
  relAt (matrix_of (transpose 3 matrix_2x3)) 1 2 JUndefined (JNum 3)
  = cell (transpose 3 matrix_2x3) 2 1.
Proof.
  apply (@relAt_single_count (transpose 3 matrix_2x3) 3 2 1 2).
  - split; [reflexivity | repeat constructor].
  - lia.
Defined.

(** Resolver symmetry: on a matrix of shape [chunkCount x claimCount] with
    both counts supplied, square or not, a valid chunk index reads its own
    row; a claim index past the row reads [undefined]. *)
Theorem relAt_resolver_symmetry (m : list (list jsval)) (chunkCount claimCount i j : nat) :
  shaped chunkCount claimCount m -> i < chunkCount ->
  relAt (matrix_of m) (Z.of_nat i) (Z.of_nat j)
        (JNum (Z.of_nat chunkCount)) (JNum (Z.of_nat claimCount)) = cell m i j
  /\ (claimCount <= j ->
      relAt (matrix_of m) (Z.of_nat i) (Z.of_nat j)
            (JNum (Z.of_nat chunkCount)) (JNum (Z.of_nat claimCount)) = JUndefined).
Proof.
  intros Hm Hi. rewrite (@relAt_rows_as_chunks m chunkCount claimCount i j Hm Hi). split; [reflexivity |].
  intros Hj. unfold cell. apply nth_overflow.
  now rewrite (shaped_row_length Hm).
Qed.

Lemma relAt_resolver_symmetry_witness :
  relAt (matrix_of matrix_2x2) 1 0 (JNum 2) (JNum 2) = cell matrix_2x2 1 0.
Proof.
  apply (@relAt_resolver_symmetry matrix_2x2 2 2 1 0).
  - split; [reflexivity | repeat constructor].
  - lia.
Defined.

Lemma relAt_transposed_square_witness :
  relAt (matrix_of (transpose 2 matrix_2x2)) 0 1 (JNum 2) (JNum 2) = cell matrix_2x2 1 0.
Proof.
  apply (@relAt_transposed_square matrix_2x2 2 0 1).
  - split; [reflexivity | repeat constructor].
  - lia.
  - lia.
Defined.

Lemma relAt_outside_swapped_witness :
  relAt (matrix_of matrix_2x3) 2 0 (JNum 2) (JNum 3) = cell matrix_2x3 0 2.
Proof.
  apply (@relAt_outside_swapped matrix_2x3 2 3 2 0).
  - split; [reflexivity | repeat constructor].
  - lia.
  - lia.
  - lia.
Defined.

(* ===================================================================== *)
(** * More facts about the claim lists *)
(* ===================================================================== *)

Lemma flat_traverse_strings (a : list string) :
  flat_traverse claims_of_item (map JStr a) = Some (map JStr a).
Proof.
  induction a as [| s a IH]; [reflexivity |].
  cbn [map flat_traverse claims_of_item]. now rewrite IH.
Qed.

Lemma extractClaims_array_strings (a : list string) :
  extractClaims_array (map JStr a) = Some (filter (fun s => nonempty (trim s)) a).
Proof.
  unfold extractClaims_array. rewrite flat_traverse_strings. cbn [option_map]. f_equal.
  induction a as [| s a IH]; [reflexivity |].
  cbn [map filter is_claim_text].
  destruct (nonempty (trim s)); cbn [map string_value]; now rewrite IH.
Qed.

(** An array of strings is taken as it is: the claims are the strings that
    are not blank, in their order and untrimmed. *)
Theorem extractClaims_string_array (a : list string) :
  extractClaims (JArr (map JStr a)) = filter (fun s => nonempty (trim s)) a.
Proof.
  unfold extractClaims. cbn [extractClaims_fuel truthy negb typeof_object Array_isArray andb].
  now rewrite extractClaims_array_strings.
Qed.

(** No extracted claim is the empty string, whatever the input. *)
Theorem extractClaims_no_empty_claim (raw : jsval) :
  ~ In EmptyString (extractClaims raw).
Proof.
  intros Hin. pose proof (extractClaims_nonempty raw) as Hall.
  rewrite Forall_forall in Hall. specialize (Hall _ Hin). discriminate Hall.
Qed.

Lemma claims_of_item_length (item : jsval) (out : list jsval) :
  claims_of_item item = Some out -> List.length out <= 1.
Proof.
  destruct item as [| | b | n | s | items | fields]; cbn [claims_of_item];
    repeat match goal with
           | |- context [if ?c then _ else _] => destruct c
           | |- context [match traverse ?f ?l with _ => _ end] => destruct (traverse f l)
           | |- context [option_map _ ?o] => destruct o; cbn [option_map]
           end;
    intros H; try discriminate H; injection H as <-; cbn [List.length]; lia.
Qed.

Lemma flat_traverse_claims_length (items : list jsval) (out : list jsval) :
  flat_traverse claims_of_item items = Some out -> List.length out <= List.length items.
Proof.
  revert out. induction items as [| item items IH]; intros out; cbn [flat_traverse].
  - intros H. injection H as <-. cbn. lia.
  - destruct (claims_of_item item) as [found |] eqn:Hitem; [| intros H; discriminate H].
    destruct (flat_traverse claims_of_item items) as [rest |]; [| intros H; discriminate H].
    intros H. injection H as <-. rewrite length_app. cbn [List.length].
    pose proof (claims_of_item_length item Hitem). specialize (IH rest eq_refl). lia.
Qed.

(** An array gives at most one claim for each of its items: a tuple is
    joined to one claim, an object gives its text, anything else is
    dropped. *)
Theorem extractClaims_one_per_item (items : list jsval) :
  List.length (extractClaims (JArr items)) <= List.length items.
Proof.
  unfold extractClaims. cbn [extractClaims_fuel truthy negb typeof_object Array_isArray andb].
  unfold extractClaims_array.
  destruct (flat_traverse claims_of_item items) as [out |] eqn:Hout; cbn [option_map].
  - rewrite length_map.
    pose proof (filter_length_le is_claim_text out).
    pose proof (flat_traverse_claims_length items Hout). lia.
  - cbn. lia.
Qed.

Lemma traverse_throws {A B : Type} (f : A -> option B) (l : list A) :
  traverse f l = None <-> exists x, In x l /\ f x = None.
Proof.
  induction l as [| x l IH]; cbn [traverse In].
  - split; [intros H; discriminate H | intros [x [[] _]]].
  - destruct (f x) as [y |] eqn:Hx.
    + destruct (traverse f l) as [ys |].
      * split; [intros H; discriminate H |].
        intros [z [[<- | Hz] Hnone]]; [congruence |].
        assert (Hex : exists x0, In x0 l /\ f x0 = None) by (exists z; now split).
        apply IH in Hex. discriminate Hex.
      * split; [intros _ | reflexivity].
        destruct (proj1 IH eq_refl) as [z [Hz Hnone]]. exists z. split; [now right | exact Hnone].
    + split; [intros _ | reflexivity]. exists x. split; [now left | exact Hx].
Qed.

Lemma flat_traverse_throws {A B : Type} (f : A -> option (list B)) (l : list A) :
  flat_traverse f l = None <-> exists x, In x l /\ f x = None.
Proof.
  induction l as [| x l IH]; cbn [flat_traverse In].
  - split; [intros H; discriminate H | intros [x [[] _]]].
  - destruct (f x) as [ys |] eqn:Hx.
    + destruct (flat_traverse f l) as [zs |].
      * split; [intros H; discriminate H |].
        intros [z [[<- | Hz] Hnone]]; [congruence |].
        assert (Hex : exists x0, In x0 l /\ f x0 = None) by (exists z; now split).
        apply IH in Hex. discriminate Hex.
      * split; [intros _ | reflexivity].
        destruct (proj1 IH eq_refl) as [z [Hz Hnone]]. exists z. split; [now right | exact Hnone].
    + split; [intros _ | reflexivity]. exists x. split; [now left | exact Hx].
Qed.

Lemma tuple_part_returns (p : jsval) : tuple_part p <> None.
Proof.
  destruct p as [| | b | n | s | items | fields]; cbn; try discriminate.
  - destruct b; discriminate.
  - destruct (negb (n =? 0)%Z); discriminate.
Qed.

Lemma claims_of_item_throws (item : jsval) :
  claims_of_item item = None <->
  exists fields, item = JObj fields
                 /\ unconvertible (text_field item JNull) = true.
Proof.
  split.
  - destruct item as [| | b | n | s | items | fields]; cbn [claims_of_item];
      try (intros H; discriminate H).
    + destruct b; intros H; discriminate H.
    + destruct (truthy (JNum n) && typeof_object (JNum n)); intros H; discriminate H.
    + destruct (traverse tuple_part items) as [mapped |] eqn:Hparts;
        [intros H; discriminate H |].
      apply traverse_throws in Hparts. destruct Hparts as [p [_ Hp]].
      now apply tuple_part_returns in Hp.
    + cbn [truthy typeof_object andb]. intros H. exists fields.
      split; [reflexivity |].
      destruct (nullish (text_field (JObj fields) JNull)); cbn [negb] in H;
        [discriminate H |].
      apply String_of_throws.
      now destruct (String_of (text_field (JObj fields) JNull)).
  - intros [fields [-> Hcand]]. cbn [claims_of_item truthy typeof_object andb].
    assert (Hnullish : nullish (text_field (JObj fields) JNull) = false).
    { destruct (text_field (JObj fields) JNull); try reflexivity; discriminate Hcand. }
    rewrite Hnullish. cbn [negb]. apply String_of_throws in Hcand. now rewrite Hcand.
Qed.

(** The one statement of the array case that can throw is the conversion
    of the text of an object item; tuple parts are converted only when
    they are primitive.  One object item whose text [String] cannot convert
    makes the array give no claim at all, whatever its other items are. *)
Theorem extractClaims_unconvertible_item (items : list jsval) :
  (extractClaims_array items = None <->
   exists fields, In (JObj fields) items
                  /\ unconvertible (text_field (JObj fields) JNull) = true)
  /\ (extractClaims_array items = None -> extractClaims (JArr items) = []).
Proof.
  split.
  - unfold extractClaims_array.
    assert (Hmap : option_map (fun out => map string_value (filter is_claim_text out))
                              (flat_traverse claims_of_item items) = None
                   <-> flat_traverse claims_of_item items = None).
    { destruct (flat_traverse claims_of_item items); cbn; split; intros H;
        try discriminate H; reflexivity. }
    rewrite Hmap, flat_traverse_throws. split.
    + intros [item [Hin Hthrow]]. apply claims_of_item_throws in Hthrow.
      destruct Hthrow as [fields [-> Hcand]]. exists fields. now split.
    + intros [fields [Hin Hcand]]. exists (JObj fields). split; [exact Hin |].
      apply claims_of_item_throws. exists fields. now split.
  - intros Hthrow. unfold extractClaims.
    cbn [extractClaims_fuel truthy negb typeof_object Array_isArray andb].
    now rewrite Hthrow.
Qed.

(** An object is looked through only when its [claims] property is an
    array, and then the claims are those of the array; any other object
    gives no claim. *)
Theorem extractClaims_claims_wrapper (fields : list (string * jsval)) :
  (forall items, assoc "claims" fields = Some (JArr items) ->
     extractClaims (JObj fields) = extractClaims (JArr items))
  /\ (Array_isArray (js_prop (JObj fields) "claims") = false ->
      extractClaims (JObj fields) = []).
Proof.
  unfold extractClaims. split.
  - intros items Hclaims.
    cbn [extractClaims_fuel truthy negb typeof_object Array_isArray andb js_prop].
    rewrite Hclaims. reflexivity.
  - intros Hnot.
    cbn [extractClaims_fuel truthy negb typeof_object Array_isArray andb].
    rewrite Hnot. reflexivity.
Qed.

(** The recursion of [extractClaims] is at most three calls deep: from a
    text to the value it parses to, and from an object to its [claims]
    array.  With room for three calls or more the bounded function returns
    the result, never running out. *)
Theorem extractClaims_three_levels (raw : jsval) (fuel : nat) :
  3 <= fuel -> extractClaims_fuel fuel raw = Some (extractClaims raw).
Proof. apply extractClaims_fuel_enough. Qed.

Lemma extractClaims_three_levels_witness :
  extractClaims_fuel 7 (JSON_stringify (JObj [("claims"%string, JArr [JStr "a"; JStr "b"])]))
  = Some ["a"%string; "b"%string].
Proof.
  apply (@extractClaims_three_levels
           (JSON_stringify (JObj [("claims"%string, JArr [JStr "a"; JStr "b"])])) 7).
  lia.
Defined.

(* ===================================================================== *)
(** * More facts about the claim statuses *)
(* ===================================================================== *)

(** [mapDirectStatuses] pads with 'neutral': relations that are not an
    array give 'neutral' for every claim, and a claim past the end of the
    relation array is 'neutral'.  It reads the first [targetLen] entries
    only, and it throws exactly when [String] cannot convert the first cell
    of one of them; otherwise it returns one status for each claim. *)
Theorem mapDirectStatuses_padding (relations : jsval) (targetLen : nat) :
  (Array_isArray relations = false ->
   mapDirectStatuses relations targetLen = Some (repeat neutral targetLen))
  /\ (forall statuses i,
        mapDirectStatuses relations targetLen = Some statuses ->
        List.length (array_or_empty relations) <= i -> i < targetLen ->
        nth i statuses entailed = neutral)
  /\ (forall statuses,
        mapDirectStatuses relations targetLen = Some statuses ->
        List.length statuses = targetLen)
  /\ (mapDirectStatuses relations targetLen = None <->
      exists k, k < targetLen
                /\ unconvertible (first_cell (arr_get (array_or_empty relations)
                                                      (Z.of_nat k))) = true).
Proof.
  split; [| split; [| split]].
  - intros Hnot. unfold mapDirectStatuses.
    replace (array_or_empty relations) with (@nil jsval)
      by (destruct relations; try reflexivity; discriminate Hnot).
    generalize 0. induction targetLen as [| n IH]; intros k; [reflexivity |].
    cbn [seq traverse repeat]. rewrite IH.
    unfold arr_get. destruct (Z.of_nat k <? 0)%Z; [reflexivity |].
    now destruct (Z.to_nat (Z.of_nat k)).
  - intros statuses i Hrun Hlen Hi.
    rewrite (nth_indep _ entailed neutral)
      by now rewrite (mapDirectStatuses_length _ _ Hrun).
    pose proof (@mapDirectStatuses_nth relations targetLen i statuses Hrun Hi) as Hnth.
    rewrite arr_get_out in Hnth by lia. cbn in Hnth. now injection Hnth as <-.
  - intros statuses Hrun. now apply (mapDirectStatuses_length _ _ Hrun).
  - unfold mapDirectStatuses. rewrite traverse_throws. split.
    + intros [k [Hk Hnone]]. apply in_seq in Hk. exists k. split; [lia |].
      now apply mapRelToStatus_throws.
    + intros [k [Hk Hp]]. exists k. split; [apply in_seq; lia |].
      now apply mapRelToStatus_throws.
Qed.

Lemma count_status_total (statuses : list ClaimStatus) :
  forall acc,
    n_entailed (fold_left count_status statuses acc)
    + n_neutral (fold_left count_status statuses acc)
    + n_contradiction (fold_left count_status statuses acc)
    = n_entailed acc + n_neutral acc + n_contradiction acc + List.length statuses.
Proof.
  induction statuses as [| s statuses IH]; intros acc; cbn [fold_left List.length]; [lia |].
  rewrite IH. destruct s; cbn [count_status n_entailed n_neutral n_contradiction]; lia.
Qed.

(** The three counters of [gtCounts] add up to the number of ground-truth
    claims, and those of [respCounts] to the number of response claims:
    every claim is counted once, with or without relation data. *)
Theorem status_counts_total (question : jsval) :
  n_entailed (gtCounts question) + n_neutral (gtCounts question)
  + n_contradiction (gtCounts question) = List.length (gtClaimsList question)
  /\ n_entailed (respCounts question) + n_neutral (respCounts question)
     + n_contradiction (respCounts question) = List.length (responseClaimsList question).
Proof.
  unfold gtCounts, respCounts, countStatuses.
  rewrite !count_status_total, gtClaimStatuses_length, respClaimStatuses_length.
  cbn [n_entailed n_neutral n_contradiction]. lia.
Qed.

Lemma count_status_each (statuses : list ClaimStatus) :
  forall acc,
    n_entailed (fold_left count_status statuses acc)
    = n_entailed acc + List.length (filter (fun s => claimStatus_eqb s entailed) statuses)
    /\ n_neutral (fold_left count_status statuses acc)
       = n_neutral acc + List.length (filter (fun s => claimStatus_eqb s neutral) statuses)
    /\ n_contradiction (fold_left count_status statuses acc)
       = n_contradiction acc
         + List.length (filter (fun s => claimStatus_eqb s contradiction) statuses).
Proof.
  induction statuses as [| s statuses IH]; intros acc; cbn [fold_left filter List.length].
  - lia.
  - destruct (IH (count_status acc s)) as [He [Hn Hc]]. rewrite He, Hn, Hc.
    destruct s; cbn [count_status claimStatus_eqb n_entailed n_neutral n_contradiction
                     List.length]; lia.
Qed.

Lemma filter_step {A : Type} (test : A -> bool) (x : A) (l : list A) :
  filter test (x :: l) = if test x then x :: filter test l else filter test l.
Proof. reflexivity. Qed.

Lemma filter_by_index {A : Type} (test : A -> bool) (d : A) (l : list A) :
  forall k,
    List.length (filter (fun i => test (nth (i - k) l d)) (seq k (List.length l)))
    = List.length (filter test l).
Proof.
  induction l as [| x l IH]; intros k; [reflexivity |].
  change (seq k (List.length (x :: l))) with (k :: seq (S k) (List.length l)).
  assert (Hrest : filter (fun i => test (nth (i - k) (x :: l) d)) (seq (S k) (List.length l))
                  = filter (fun i => test (nth (i - S k) l d)) (seq (S k) (List.length l))).
  { apply filter_ext_in. intros i Hin. apply in_seq in Hin.
    replace (i - k) with (S (i - S k)) by lia. reflexivity. }
  rewrite !filter_step, Hrest, Nat.sub_diag. cbn [nth].
  destruct (test x); cbn [List.length]; now rewrite IH.
Qed.

(** The number of claims that the list renders under a filter is the sum
    of the counters of the enabled statuses: with every toggle on all the
    claims are rendered, with every toggle off none. *)
Theorem renderedClaims_count (filters : ClaimFilters) (statuses : list ClaimStatus) :
  List.length (renderedClaims filters statuses)
  = (if show_entailed filters then n_entailed (countStatuses statuses) else 0)
    + (if show_neutral filters then n_neutral (countStatuses statuses) else 0)
    + (if show_contradiction filters then n_contradiction (countStatuses statuses) else 0).
Proof.
  unfold renderedClaims, countStatuses.
  destruct (count_status_each statuses
              {| n_entailed := 0; n_neutral := 0; n_contradiction := 0 |}) as [He [Hn Hc]].
  rewrite He, Hn, Hc. cbn [n_entailed n_neutral n_contradiction Nat.add].
  transitivity
    (List.length (filter (fun s => negb (claimFilteredOut filters s)) statuses)).
  { rewrite <- (filter_by_index (fun s => negb (claimFilteredOut filters s)) neutral statuses 0).
    f_equal. apply filter_ext. intros i. now rewrite Nat.sub_0_r. }
  clear He Hn Hc.
  unfold claimFilteredOut.
  induction statuses as [| s statuses IH]; cbn [filter List.length].
  - now destruct (show_entailed filters), (show_neutral filters), (show_contradiction filters).
  - destruct s, (show_entailed filters), (show_neutral filters), (show_contradiction filters);
      cbn [claimStatus_eqb negb andb orb List.length] in *; lia.
Qed.

(** The usage badge of a chunk: 'contradicting' as soon as the chunk
    contradicts a response claim, whatever it entails; otherwise 'grounded'
    when it entails one; otherwise 'unused'. *)
Theorem usageStatus_precedence (sets : ClaimSets) :
  (usageStatusForSets sets = contradicting <-> contradictions (response sets) <> [])
  /\ (usageStatusForSets sets = grounded <->
      contradictions (response sets) = [] /\ entailments (response sets) <> [])
  /\ (usageStatusForSets sets = unused <->
      contradictions (response sets) = [] /\ entailments (response sets) = []).
Proof.
  unfold usageStatusForSets.
  destruct (contradictions (response sets)) as [| x l];
    destruct (entailments (response sets)) as [| y l']; cbn;
    repeat split; intros; try discriminate; try reflexivity;
    repeat match goal with
           | H : _ /\ _ |- _ => destruct H
           | H : ?a <> ?a |- _ => now contradiction H
           end; try discriminate.
Qed.

(** Of the six flags of a chunk exactly one of relevant, irrelevant and
    harming is set, and exactly one of grounded and unused; contradicting
    is set together with one of these two, and it is the flag that the
    usage badge shows. *)
Theorem flags_of_a_chunk (sets : ClaimSets) :
  let flags := flagsForSets sets in
  Nat.b2n (is_relevant flags) + Nat.b2n (is_irrelevant flags) + Nat.b2n (is_harming flags) = 1
  /\ is_grounded flags = negb (is_unused flags)
  /\ (is_contradicting flags = true <-> usageStatusForSets sets = contradicting)
  /\ (usageStatusForSets sets = grounded -> is_grounded flags = true)
  /\ (usageStatusForSets sets = unused -> is_unused flags = true).
Proof.
  unfold flagsForSets, usageStatusForSets.
  cbn [is_relevant is_irrelevant is_harming is_grounded is_unused is_contradicting].
  split; [now destruct (chunkStatusForSets sets) |].
  destruct (contradictions (response sets)) as [| x l];
    destruct (entailments (response sets)) as [| y l']; cbn;
    repeat split; intros; try discriminate; try reflexivity.
Qed.

Lemma hidden_visible (chunkFilters flags : ChunkFlags) :
  hidden chunkFilters flags = false <->
  (is_relevant flags = true -> is_relevant chunkFilters = true)
  /\ (is_irrelevant flags = true -> is_irrelevant chunkFilters = true)
  /\ (is_harming flags = true -> is_harming chunkFilters = true)
  /\ (is_grounded flags = true -> is_grounded chunkFilters = true)
  /\ (is_unused flags = true -> is_unused chunkFilters = true)
  /\ (is_contradicting flags = true -> is_contradicting chunkFilters = true).
Proof.
  assert (Hone : forall a b, negb a && b = false <-> (b = true -> a = true)).
  { intros [|] [|]; cbn; split; intros H; try reflexivity; try discriminate;
      try (intros _; reflexivity); try (intros H'; discriminate H').
    now specialize (H eq_refl). }
  unfold hidden. rewrite !orb_false_iff, !Hone. tauto.
Qed.

(** A chunk stays in the list exactly when the toggle of its quality badge
    is on, the toggle of grounded or unused, whichever applies, is on, and,
    if it contradicts a response claim, the toggle of contradicting is on.
    One toggle that is off hides the chunk whatever the others say. *)
Theorem chunk_visible_iff (chunkFilters : ChunkFlags) (sets : ClaimSets) :
  hidden chunkFilters (flagsForSets sets) = false <->
  match chunkStatusForSets sets with
  | relevant => is_relevant chunkFilters
  | irrelevant => is_irrelevant chunkFilters
  | harming => is_harming chunkFilters
  end = true
  /\ (if is_unused (flagsForSets sets)
      then is_unused chunkFilters else is_grounded chunkFilters) = true
  /\ (contradictions (response sets) <> [] -> is_contradicting chunkFilters = true).
Proof.
  rewrite hidden_visible. unfold flagsForSets.
  cbn [is_relevant is_irrelevant is_harming is_grounded is_unused is_contradicting].
  rewrite <- (length_pos_nonnil (contradictions (response sets))).
  destruct (chunkStatusForSets sets); cbn [chunkStatus_eqb];
    destruct (entailments (response sets)) as [| y l']; cbn [List.length Nat.eqb Nat.ltb Nat.leb];
    intuition congruence.
Qed.

(** A response claim carries at most one of the two tags: none when some
    chunk supports it, and otherwise 'Self Knowledge' when it is entailed
    by the ground truth and 'Hallucination' when it is not.  When the scan
    for support throws there is no tag at all. *)
Theorem claim_tags_exclusive (question : jsval) (i : nat) :
  (supportedByChunk question i = Some true ->
   showSelfKnowledge question i = Some false /\ showHallucination question i = Some false)
  /\ (supportedByChunk question i = Some false ->
      exists tag,
        showSelfKnowledge question i = Some tag
        /\ showHallucination question i = Some (negb tag)
        /\ (tag = true <-> nth i (respClaimStatuses question) neutral = entailed))
  /\ (supportedByChunk question i = None ->
      showSelfKnowledge question i = None /\ showHallucination question i = None).
Proof.
  unfold showSelfKnowledge, showHallucination.
  destruct (supportedByChunk question i) as [[|] |]; cbn [option_map negb];
    (split; [| split]); intros H; try discriminate H.
  - now rewrite !andb_false_r.
  - exists (claimStatus_eqb (nth i (respClaimStatuses question) neutral) entailed).
    rewrite !andb_true_r. split; [reflexivity |]. split; [reflexivity |].
    destruct (nth i (respClaimStatuses question) neutral); cbn;
      split; intros H'; try reflexivity; discriminate H'.
  - split; reflexivity.
Qed.

(* ===================================================================== *)
(** * More facts about [getClaimSetsForChunk] *)
(* ===================================================================== *)

Lemma is_label_exclusive (rel : jsval) :
  Nat.b2n (is_label "Entailment" rel) + Nat.b2n (is_label "Contradiction" rel)
  + Nat.b2n (is_label "Neutral" rel) = Nat.b2n (known_label rel).
Proof.
  unfold known_label, is_label.
  destruct rel as [| | b | n | s | items | fields]; cbn [strict_eq]; try reflexivity.
  destruct (String.eqb_spec s "Entailment") as [-> | HnE]; [reflexivity |].
  destruct (String.eqb_spec s "Contradiction") as [-> | HnC]; [reflexivity |].
  destruct (String.eqb_spec s "Neutral") as [-> | HnN]; reflexivity.
Qed.

(** What one call of [pushByRel] does with a claim that is not empty. *)
Lemma pushByRel_by_label (target : RelSets) (rel : jsval) (claim : string) :
  nonempty claim = true ->
  pushByRel target rel claim
  = {| entailments :=
         entailments target ++ (if is_label "Entailment" rel then [claim] else []);
       contradictions :=
         contradictions target ++ (if is_label "Contradiction" rel then [claim] else []);
       neutrals :=
         neutrals target ++ (if is_label "Neutral" rel then [claim] else []) |}.
Proof.
  intros Hclaim. unfold pushByRel, is_label. rewrite Hclaim. cbn [negb orb].
  destruct target as [E C N]. cbn [entailments contradictions neutrals].
  destruct rel as [| | b | n | s | items | fields]; cbn [truthy strict_eq negb];
    try (destruct b); try (destruct (n =? 0)%Z); cbn [negb];
    rewrite ?app_nil_r; try reflexivity.
  destruct (String.eqb_spec s "Entailment") as [-> | HnE];
    [cbn; now rewrite ?app_nil_r |].
  destruct (String.eqb_spec s "Contradiction") as [-> | HnC];
    [cbn; now rewrite ?app_nil_r |].
  destruct (String.eqb_spec s "Neutral") as [-> | HnN];
    [cbn; now rewrite ?app_nil_r |].
  destruct (negb (String.eqb s "")); cbn; now rewrite ?app_nil_r.
Qed.

Lemma pushByRel_other_label (target : RelSets) (rel : jsval) (claim : string) :
  known_label rel = false -> pushByRel target rel claim = target.
Proof.
  unfold known_label. rewrite !orb_false_iff. intros [[HE HC] HN].
  unfold pushByRel. unfold is_label in HE, HC, HN. rewrite HE, HC, HN.
  now destruct (negb (nonempty claim) || negb (truthy rel)).
Qed.

Section CollectLabelled.

Variables (matrix : jsval) (chunkIndex : Z) (chunkCount : nat) (claims : list string).
Hypothesis Hclaims : Forall (fun s => nonempty s = true) claims.

Let relation (i : nat) : jsval :=
  relAt matrix chunkIndex (Z.of_nat i)
        (JNum (Z.of_nat chunkCount)) (JNum (Z.of_nat (List.length claims))).

Let step (target : RelSets) (i : nat) : RelSets :=
  pushByRel target (relation i) (nth i claims EmptyString).

Let labelled (label : string) (idxs : list nat) : list string :=
  map (fun i => nth i claims EmptyString)
      (filter (fun i => is_label label (relation i)) idxs).

Lemma collect_fold_labelled (idxs : list nat) :
  Forall (fun i => i < List.length claims) idxs ->
  forall acc,
    fold_left step idxs acc
    = {| entailments := entailments acc ++ labelled "Entailment" idxs;
         contradictions := contradictions acc ++ labelled "Contradiction" idxs;
         neutrals := neutrals acc ++ labelled "Neutral" idxs |}.
Proof.
  induction 1 as [| i idxs Hi _ IH]; intros acc; cbn [fold_left].
  - unfold labelled. cbn [filter map]. rewrite !app_nil_r. now destruct acc.
  - rewrite IH. unfold step. rewrite pushByRel_by_label.
    + cbn [entailments contradictions neutrals]. unfold labelled. cbn [filter].
      rewrite <- !app_assoc.
      destruct (is_label "Entailment" (relation i)),
               (is_label "Contradiction" (relation i)),
               (is_label "Neutral" (relation i)); reflexivity.
    + rewrite Forall_forall in Hclaims. apply Hclaims, nth_In, Hi.
Qed.

Lemma collect_sets_labelled :
  collect_sets matrix chunkIndex chunkCount claims
  = {| entailments := claims_labelled matrix chunkIndex chunkCount claims "Entailment";
       contradictions := claims_labelled matrix chunkIndex chunkCount claims "Contradiction";
       neutrals := claims_labelled matrix chunkIndex chunkCount claims "Neutral" |}.
Proof.
  unfold collect_sets.
  change (fun target i => pushByRel target
            (relAt matrix chunkIndex (Z.of_nat i) (JNum (Z.of_nat chunkCount))
                   (JNum (Z.of_nat (List.length claims))))
            (nth i claims EmptyString)) with step.
  rewrite collect_fold_labelled; [reflexivity |].
  apply Forall_forall. intros i Hin. apply in_seq in Hin. lia.
Qed.

Lemma labelled_total (idxs : list nat) :
  List.length (labelled "Entailment" idxs) + List.length (labelled "Contradiction" idxs)
  + List.length (labelled "Neutral" idxs)
  = List.length (filter (fun i => known_label (relation i)) idxs).
Proof.
  unfold labelled. rewrite !length_map.
  induction idxs as [| i idxs IH]; cbn [filter List.length]; [reflexivity |].
  pose proof (is_label_exclusive (relation i)) as Hex.
  destruct (is_label "Entailment" (relation i)),
           (is_label "Contradiction" (relation i)),
           (is_label "Neutral" (relation i)),
           (known_label (relation i)); cbn [Nat.b2n] in Hex; cbn [List.length]; lia.
Qed.

Lemma collect_sets_total :
  List.length (entailments (collect_sets matrix chunkIndex chunkCount claims))
  + List.length (contradictions (collect_sets matrix chunkIndex chunkCount claims))
  + List.length (neutrals (collect_sets matrix chunkIndex chunkCount claims))
  = count_relation matrix chunkIndex chunkCount claims known_label.
Proof.
  rewrite collect_sets_labelled. cbn [entailments contradictions neutrals].
  unfold count_relation. apply labelled_total.
Qed.

End CollectLabelled.

(** Each set that [getClaimSetsForChunk] builds holds the claims whose
    resolved relation to the chunk is exactly the label of the set, in the
    order of the claim list; a claim that occurs twice is listed twice. *)
Theorem claim_sets_listing (question : jsval) (chunkIndex : Z) :
  gt (getClaimSetsForChunk question chunkIndex)
  = {| entailments := claims_labelled (r2a_of question) chunkIndex (chunkCountOf question)
                                      (gtClaimsList question) "Entailment";
       contradictions := claims_labelled (r2a_of question) chunkIndex (chunkCountOf question)
                                         (gtClaimsList question) "Contradiction";
       neutrals := claims_labelled (r2a_of question) chunkIndex (chunkCountOf question)
                                   (gtClaimsList question) "Neutral" |}
  /\ response (getClaimSetsForChunk question chunkIndex)
     = {| entailments := claims_labelled (r2r_of question) chunkIndex (chunkCountOf question)
                                         (responseClaimsList question) "Entailment";
          contradictions := claims_labelled (r2r_of question) chunkIndex (chunkCountOf question)
                                            (responseClaimsList question) "Contradiction";
          neutrals := claims_labelled (r2r_of question) chunkIndex (chunkCountOf question)
                                      (responseClaimsList question) "Neutral" |}.
Proof.
  unfold getClaimSetsForChunk. cbn [gt response].
  split; apply collect_sets_labelled, extractClaims_nonempty.
Qed.

(** A claim lands in at most one set of a chunk: the sizes of the three
    sets add up to the number of claims whose resolved relation is one of
    the three labels as written, which is at most the number of claims.
    Any other relation, such as a label in another case, adds the claim to
    no set. *)
Theorem claim_sets_total (question : jsval) (chunkIndex : Z) :
  let sets := getClaimSetsForChunk question chunkIndex in
  List.length (entailments (gt sets)) + List.length (contradictions (gt sets))
  + List.length (neutrals (gt sets))
  = count_relation (r2a_of question) chunkIndex (chunkCountOf question)
                   (gtClaimsList question) known_label
  /\ List.length (entailments (gt sets)) + List.length (contradictions (gt sets))
     + List.length (neutrals (gt sets)) <= List.length (gtClaimsList question)
  /\ List.length (entailments (response sets)) + List.length (contradictions (response sets))
     + List.length (neutrals (response sets))
     = count_relation (r2r_of question) chunkIndex (chunkCountOf question)
                      (responseClaimsList question) known_label
  /\ List.length (entailments (response sets)) + List.length (contradictions (response sets))
     + List.length (neutrals (response sets)) <= List.length (responseClaimsList question)
  /\ (forall target rel claim, known_label rel = false -> pushByRel target rel claim = target).
Proof.
  cbn zeta. unfold getClaimSetsForChunk. cbn [gt response].
  rewrite !collect_sets_total by apply extractClaims_nonempty.
  assert (Hle : forall m claims, count_relation m chunkIndex (chunkCountOf question) claims
                                                known_label <= List.length claims).
  { intros m claims. unfold count_relation.
    etransitivity; [apply filter_length_le | now rewrite length_seq]. }
  repeat split; try apply Hle. apply pushByRel_other_label.
Qed.

(* ===================================================================== *)
(** * More facts about the chunk summary *)
(* ===================================================================== *)

Lemma filter_length_split (f g h : nat -> bool) (l : list nat) :
  (forall x, Nat.b2n (f x) = Nat.b2n (g x) + Nat.b2n (h x)) ->
  List.length (filter f l) = List.length (filter g l) + List.length (filter h l).
Proof.
  intros Hsplit. induction l as [| x l IH]; cbn [filter List.length]; [reflexivity |].
  specialize (Hsplit x).
  destruct (f x), (g x), (h x); cbn [Nat.b2n] in Hsplit; cbn [List.length]; lia.
Qed.

(** The counters of the summary row against the quality badges of the
    chunks.  Harming counts the 'harming' badges.  Relevant counts every
    chunk that entails a ground-truth claim: the 'relevant' badges and the
    chunks that also contradict one, whose badge is 'harming'.  Irrelevant
    counts the 'irrelevant' badges but for the chunks without any resolved
    ground-truth relation. *)
Theorem summary_against_badges (question : jsval) :
  sum_harm (chunkSummary question)
  = count_chunks question (fun sets => chunkStatus_eqb (chunkStatusForSets sets) harming)
  /\ sum_rel (chunkSummary question)
     = count_chunks question (fun sets => chunkStatus_eqb (chunkStatusForSets sets) relevant)
       + count_chunks question
           (fun sets => (0 <? List.length (entailments (gt sets)))
                        && (0 <? List.length (contradictions (gt sets))))
  /\ count_chunks question (fun sets => chunkStatus_eqb (chunkStatusForSets sets) irrelevant)
     = sum_irr (chunkSummary question)
       + count_chunks question
           (fun sets => (List.length (entailments (gt sets)) =? 0)
                        && (List.length (contradictions (gt sets)) =? 0)
                        && (List.length (neutrals (gt sets)) =? 0)).
Proof.
  rewrite sum_irr_counts.
  assert (Hharm : sum_harm (chunkSummary question)
                  = count_chunks question
                      (fun sets => 0 <? List.length (contradictions (gt sets)))).
  { unfold chunkSummary, count_chunks.
    now rewrite (@fold_bump question sum_harm
                   (fun sets => 0 <? List.length (contradictions (gt sets)))). }
  assert (Hrel : sum_rel (chunkSummary question)
                 = count_chunks question
                     (fun sets => 0 <? List.length (entailments (gt sets)))).
  { unfold chunkSummary, count_chunks.
    now rewrite (@fold_bump question sum_rel
                   (fun sets => 0 <? List.length (entailments (gt sets)))). }
  rewrite Hharm, Hrel. unfold count_chunks.
  split; [| split].
  - f_equal. apply filter_ext. intros idx. unfold chunkStatusForSets.
    destruct (contradictions (gt (getClaimSetsForChunk question (Z.of_nat idx))));
      [| reflexivity].
    now destruct (entailments (gt (getClaimSetsForChunk question (Z.of_nat idx)))).
  - apply filter_length_split. intros idx. unfold chunkStatusForSets.
    destruct (contradictions (gt (getClaimSetsForChunk question (Z.of_nat idx))));
      destruct (entailments (gt (getClaimSetsForChunk question (Z.of_nat idx))));
      reflexivity.
  - apply filter_length_split. intros idx. unfold chunkStatusForSets, isIrrelevantFromSets.
    destruct (contradictions (gt (getClaimSetsForChunk question (Z.of_nat idx))));
      destruct (entailments (gt (getClaimSetsForChunk question (Z.of_nat idx))));
      destruct (neutrals (gt (getClaimSetsForChunk question (Z.of_nat idx))));
      reflexivity.
Qed.

(* ===================================================================== *)
(** * Facts about the expanded chunks *)
(* ===================================================================== *)

Lemma set_has_delete (s : list nat) (idx x : nat) :
  set_has (set_delete s idx) x = negb (Nat.eqb x idx) && set_has s x.
Proof.
  unfold set_has, set_delete. induction s as [| y s IH]; cbn [filter existsb].
  - now rewrite andb_false_r.
  - destruct (Nat.eqb y idx) eqn:Hy; cbn [negb existsb]; rewrite IH.
    + apply Nat.eqb_eq in Hy. subst y. now destruct (Nat.eqb x idx).
    + destruct (Nat.eqb x y) eqn:Hxy; cbn [orb]; [| reflexivity].
      apply Nat.eqb_eq in Hxy. subst x. now rewrite Hy.
Qed.

Lemma set_has_add (s : list nat) (idx x : nat) :
  set_has (set_add s idx) x = Nat.eqb x idx || set_has s x.
Proof.
  unfold set_add. destruct (set_has s idx) eqn:Hhas.
  - destruct (Nat.eqb_spec x idx) as [-> | Hx]; [now rewrite Hhas | reflexivity].
  - unfold set_has. rewrite existsb_app. cbn [existsb]. rewrite orb_false_r.
    apply orb_comm.
Qed.

(** Toggling a chunk flips whether that chunk is expanded and leaves every
    other chunk as it was; toggling it twice restores the set. *)
Theorem toggleChunkExpanded_flips (prev : list nat) (idx x : nat) :
  set_has (toggleChunkExpanded prev idx) x
  = (if Nat.eqb x idx then negb (set_has prev idx) else set_has prev x)
  /\ set_has (toggleChunkExpanded (toggleChunkExpanded prev idx) idx) x = set_has prev x.
Proof.
  assert (Hone : forall s y,
             set_has (toggleChunkExpanded s idx) y
             = if Nat.eqb y idx then negb (set_has s idx) else set_has s y).
  { intros s y. unfold toggleChunkExpanded. destruct (set_has s idx) eqn:Hhas.
    - rewrite set_has_delete. now destruct (Nat.eqb_spec y idx).
    - rewrite set_has_add. destruct (Nat.eqb_spec y idx); reflexivity. }
  split; [apply Hone |].
  rewrite !Hone, Nat.eqb_refl.
  destruct (Nat.eqb_spec x idx) as [Heq | Hne];
    [rewrite Heq; apply negb_involutive | reflexivity].
Qed.

(* ===================================================================== *)
(** * Facts about the callers of [isIrrelevantFromCounts] *)
(* ===================================================================== *)

Lemma clamp_count_idempotent (x : option Z) :
  clamp_count (Some (clamp_count x)) = clamp_count x.
Proof. unfold clamp_count. destruct x; lia. Qed.

Lemma enhanced_verdict (raw : GtCounters) :
  isIrrelevantFromCounts (gt_entailments (enhanceCounters raw))
                         (gt_neutrals (enhanceCounters raw))
                         (gt_contradictions (enhanceCounters raw))
  = isIrrelevantFromCounts (gt_entailments raw) (gt_neutrals raw) (gt_contradictions raw).
Proof.
  unfold enhanceCounters, isIrrelevantFromCounts.
  cbn [gt_entailments gt_neutrals gt_contradictions].
  now rewrite !clamp_count_idempotent.
Qed.

(** The chunk analysis stores clamped counters and clamps them again in
    [isIrrelevantFromCounts]; the second clamp changes nothing, so the
    number of chunks reported as not relevant is the number of raw records
    whose verdict is irrelevant. *)
Theorem notRelevantCount_of_raw (raws : list GtCounters) :
  notRelevantCount (map enhanceCounters raws)
  = List.length
      (filter (fun raw => isIrrelevantFromCounts (gt_entailments raw) (gt_neutrals raw)
                                                 (gt_contradictions raw)) raws).
Proof.
  unfold notRelevantCount. induction raws as [| raw raws IH]; [reflexivity |].
  change (map enhanceCounters (raw :: raws))
    with (enhanceCounters raw :: map enhanceCounters raws).
  rewrite !filter_step, enhanced_verdict.
  destruct (isIrrelevantFromCounts (gt_entailments raw) (gt_neutrals raw)
                                   (gt_contradictions raw)); cbn [List.length]; now rewrite IH.
Qed.

(** The number of rows of the chunk tables always lies between 1 and 1000:
    a value in that range is kept, a larger one is cut to 1000, a negative
    one is raised to 1, and an absent or zero one is replaced by 20. *)
Theorem validTopN_bounds (topN : option Z) :
  (1 <= validTopN topN <= 1000)%Z
  /\ (forall k, (1 <= k <= 1000)%Z -> validTopN (Some k) = k)
  /\ (forall k, (1000 < k)%Z -> validTopN (Some k) = 1000%Z)
  /\ (forall k, (k < 0)%Z -> validTopN (Some k) = 1%Z)
  /\ validTopN None = 20%Z /\ validTopN (Some 0%Z) = 20%Z.
Proof.
  unfold validTopN. repeat split; try reflexivity;
    try (intros k Hk; destruct (Z.eqb_spec k 0); lia).
  - destruct topN as [k |]; cbn; [destruct (Z.eqb_spec k 0) |]; lia.
  - destruct topN as [k |]; cbn; [destruct (Z.eqb_spec k 0) |]; lia.
Qed.

(* ===================================================================== *)
(** * More facts about the overlay *)
(* ===================================================================== *)

Lemma flat_traverse_app {A B : Type} (f : A -> option (list B)) (l1 l2 : list A) :
  flat_traverse f (l1 ++ l2)
  = match flat_traverse f l1, flat_traverse f l2 with
    | Some out1, Some out2 => Some (out1 ++ out2)
    | _, _ => None
    end.
Proof.
  induction l1 as [| x l1 IH]; cbn [app flat_traverse].
  - now destruct (flat_traverse f l2).
  - destruct (f x) as [ys |]; [| reflexivity]. rewrite IH.
    destruct (flat_traverse f l1) as [out1 |]; [| reflexivity].
    destruct (flat_traverse f l2) as [out2 |]; [| reflexivity].
    now rewrite app_assoc.
Qed.

Lemma flat_traverse_map {A B C : Type} (g : A -> B) (f : B -> option (list C)) (l : list A) :
  flat_traverse f (map g l) = flat_traverse (fun x => f (g x)) l.
Proof.
  induction l as [| x l IH]; cbn [map flat_traverse]; [reflexivity |]. now rewrite IH.
Qed.

(** Two nested loops are one loop over the pairs, the outer index moving
    slowest. *)
Lemma flat_traverse_pairs {A B C : Type} (h : A -> B -> option (list C))
    (xs : list A) (ys : list B) :
  flat_traverse (fun x => flat_traverse (h x) ys) xs
  = flat_traverse (fun pair => h (fst pair) (snd pair)) (list_prod xs ys).
Proof.
  induction xs as [| x xs IH]; cbn [flat_traverse list_prod]; [reflexivity |].
  rewrite flat_traverse_app, flat_traverse_map, <- IH. cbn [fst snd].
  destruct (flat_traverse (h x) ys) as [out |] eqn:Hrow.
  - replace (flat_traverse (fun y => h x y) ys) with (Some out). reflexivity.
  - replace (flat_traverse (fun y => h x y) ys) with (@None (list C)). reflexivity.
Qed.

(** A loop that pushes one item for each element that passes a test and
    can be converted: the items of the elements that pass, in order, unless
    one of them cannot be converted. *)
Lemma flat_traverse_guarded {A B : Type} (skip ok : A -> bool) (item : A -> B) (l : list A) :
  flat_traverse (fun x => if skip x then Some []
                          else if ok x then Some [item x] else None) l
  = if forallb ok (filter (fun x => negb (skip x)) l)
    then Some (map item (filter (fun x => negb (skip x)) l))
    else None.
Proof.
  induction l as [| x l IH]; cbn [flat_traverse filter]; [reflexivity |].
  rewrite IH. destruct (skip x); cbn [negb].
  - now destruct (forallb ok (filter (fun y => negb (skip y)) l)).
  - cbn [forallb map]. destruct (ok x); cbn [andb]; [| reflexivity].
    now destruct (forallb ok (filter (fun y => negb (skip y)) l)).
Qed.

Lemma connector_guarded (k : PathKind) (r : jsval) (c1 : Column) (i1 : Z) (c2 : Column)
    (i2 : Z) :
  connector k r c1 i1 c2 i2
  = if skipped r then Some []
    else if negb (unconvertible r) then Some [edge k r c1 i1 c2 i2] else None.
Proof.
  rewrite <- printable_unconvertible. unfold connector, printable.
  now destruct (String_of r).
Qed.

(** The connectors that [compute] sets, as a list: one from a rendered
    ground-truth claim to a rendered chunk for each such pair whose
    relation in [retrieved2answer] is truthy and not 'Neutral', in the
    order of the claims and, for one claim, of the chunks; then one from a
    rendered chunk to a rendered response claim for each such pair whose
    relation in [retrieved2response] is, in the order of the response
    claims.  When [String] cannot convert the relation of one of these
    pairs [compute] throws and sets nothing. *)
Theorem buildPaths_exact (question : jsval) (gtNodes chunkNodes respNodes : list (option Z)) :
  let gtPairs := drawn_pairs (gtChunkRelation question gtNodes chunkNodes)
                             gtNodes chunkNodes in
  let respPairs := drawn_pairs (chunkRespRelation question chunkNodes)
                               respNodes chunkNodes in
  buildPaths question gtNodes chunkNodes respNodes
  = if forallb (fun pair => negb (unconvertible (gtChunkRelation question gtNodes chunkNodes
                                                       (fst pair) (snd pair)))) gtPairs
       && forallb (fun pair => negb (unconvertible (chunkRespRelation question chunkNodes
                                                            (fst pair) (snd pair)))) respPairs
    then Some (map (fun pair =>
                      edge gtChunk
                           (gtChunkRelation question gtNodes chunkNodes (fst pair) (snd pair))
                           col_gt (item_index (snd (fst pair)) (fst (fst pair)))
                           col_chunk (item_index (snd (snd pair)) (fst (snd pair))))
                   gtPairs
               ++ map (fun pair =>
                         edge chunkResp
                              (chunkRespRelation question chunkNodes (fst pair) (snd pair))
                              col_chunk (item_index (snd (snd pair)) (fst (snd pair)))
                              col_resp (item_index (snd (fst pair)) (fst (fst pair))))
                      respPairs)
    else None.
Proof.
  cbv zeta. unfold buildPaths, drawn_pairs.
  rewrite (flat_traverse_pairs
             (fun g ch => connector gtChunk (gtChunkRelation question gtNodes chunkNodes g ch)
                                    col_gt (item_index (snd g) (fst g))
                                    col_chunk (item_index (snd ch) (fst ch)))).
  rewrite (flat_traverse_pairs
             (fun rn ch => connector chunkResp (chunkRespRelation question chunkNodes rn ch)
                                     col_chunk (item_index (snd ch) (fst ch))
                                     col_resp (item_index (snd rn) (fst rn)))).
  assert (Hgt : forall l,
             flat_traverse
               (fun pair : (nat * option Z) * (nat * option Z) =>
                  connector gtChunk
                            (gtChunkRelation question gtNodes chunkNodes (fst pair) (snd pair))
                            col_gt (item_index (snd (fst pair)) (fst (fst pair)))
                            col_chunk (item_index (snd (snd pair)) (fst (snd pair)))) l
             = flat_traverse
                 (fun pair =>
                    if skipped (gtChunkRelation question gtNodes chunkNodes
                                                (fst pair) (snd pair))
                    then Some []
                    else if negb (unconvertible (gtChunkRelation question gtNodes chunkNodes
                                                       (fst pair) (snd pair)))
                         then Some [edge gtChunk
                                      (gtChunkRelation question gtNodes chunkNodes
                                                       (fst pair) (snd pair))
                                      col_gt (item_index (snd (fst pair)) (fst (fst pair)))
                                      col_chunk (item_index (snd (snd pair)) (fst (snd pair)))]
                         else None) l).
  { induction l as [| pair l IH]; cbn [flat_traverse]; [reflexivity |].
    now rewrite IH, connector_guarded. }
  assert (Hresp : forall l,
             flat_traverse
               (fun pair : (nat * option Z) * (nat * option Z) =>
                  connector chunkResp
                            (chunkRespRelation question chunkNodes (fst pair) (snd pair))
                            col_chunk (item_index (snd (snd pair)) (fst (snd pair)))
                            col_resp (item_index (snd (fst pair)) (fst (fst pair)))) l
             = flat_traverse
                 (fun pair =>
                    if skipped (chunkRespRelation question chunkNodes (fst pair) (snd pair))
                    then Some []
                    else if negb (unconvertible (chunkRespRelation question chunkNodes
                                                         (fst pair) (snd pair)))
                         then Some [edge chunkResp
                                      (chunkRespRelation question chunkNodes
                                                         (fst pair) (snd pair))
                                      col_chunk (item_index (snd (snd pair)) (fst (snd pair)))
                                      col_resp (item_index (snd (fst pair)) (fst (fst pair)))]
                         else None) l).
  { induction l as [| pair l IH]; cbn [flat_traverse]; [reflexivity |].
    now rewrite IH, connector_guarded. }
  rewrite Hgt, Hresp.
  rewrite (flat_traverse_guarded
             (fun pair => skipped (gtChunkRelation question gtNodes chunkNodes
                                                   (fst pair) (snd pair)))
             (fun pair => negb (unconvertible (gtChunkRelation question gtNodes chunkNodes
                                                     (fst pair) (snd pair))))).
  rewrite (flat_traverse_guarded
             (fun pair => skipped (chunkRespRelation question chunkNodes (fst pair) (snd pair)))
             (fun pair => negb (unconvertible (chunkRespRelation question chunkNodes
                                                       (fst pair) (snd pair))))).
  destruct (forallb _ _); [| reflexivity].
  destruct (forallb _ _); reflexivity.
Qed.

Lemma arr_get_In (items : list jsval) (i : Z) :
  arr_get items i = JUndefined \/ In (arr_get items i) items.
Proof.
  unfold arr_get. destruct (i <? 0)%Z; [now left |].
  destruct (nth_in_or_default (Z.to_nat i) items JUndefined) as [Hin | Hd];
    [now right | now left].
Qed.

Lemma read2_neutral (m : list jsval) (a b : Z) (v : jsval) :
  neutral_matrix m -> read2 m a b = Some v -> v = JUndefined \/ v = Neutral.
Proof.
  intros Hm. unfold read2.
  destruct (arr_get_In m a) as [Hu | Hin].
  - rewrite Hu. intros H. discriminate H.
  - destruct (arr_get m a) as [| | b' | n | s | row | fields]; try (intros H; discriminate H).
    intros H. injection H as <-.
    destruct (arr_get_In row b) as [Hu | Hcell]; [now left | right].
    now apply (Hm row).
Qed.

Lemma relAt_neutral_skipped (m : list jsval) (i j : Z) (cc kc : jsval) :
  neutral_matrix m -> skipped (relAt (JArr m) i j cc kc) = true.
Proof.
  intros Hm.
  assert (Hv : relAt (JArr m) i j cc kc = JUndefined \/ relAt (JArr m) i j cc kc = Neutral).
  { destruct (relAt_cell_or_undefined m i j cc kc) as [Hu | [Hread | Hread]].
    - now left.
    - exact (read2_neutral _ _ Hm Hread).
    - exact (read2_neutral _ _ Hm Hread). }
  destruct Hv as [-> | ->]; reflexivity.
Qed.

Lemma flat_traverse_all_nil {A B : Type} (f : A -> option (list B)) (l : list A) :
  (forall x, f x = Some []) -> flat_traverse f l = Some [].
Proof.
  intros Hnil. induction l as [| x l IH]; [reflexivity |].
  cbn [flat_traverse]. now rewrite Hnil, IH.
Qed.

(** Neutral links are not drawn: when every cell of both relation matrices
    is 'Neutral', or the matrices are missing, [compute] draws no connector
    at all, whatever is rendered. *)
Theorem buildPaths_neutral_matrices (question : jsval)
    (gtNodes chunkNodes respNodes : list (option Z)) :
  neutral_matrix (array_or_empty (js_prop question "retrieved2answer")) ->
  neutral_matrix (array_or_empty (js_prop question "retrieved2response")) ->
  buildPaths question gtNodes chunkNodes respNodes = Some [].
Proof.
  intros Ha Hr. unfold buildPaths, gtChunkRelation, chunkRespRelation, r2a_of, r2r_of.
  rewrite (flat_traverse_all_nil _ (with_positions gtNodes)).
  - rewrite (flat_traverse_all_nil _ (with_positions respNodes)); [reflexivity |].
    intros rn. apply flat_traverse_all_nil. intros ch. unfold connector.
    now rewrite (relAt_neutral_skipped _ _ _ _ Hr).
  - intros g. apply flat_traverse_all_nil. intros ch. unfold connector.
    now rewrite (relAt_neutral_skipped _ _ _ _ Ha).
Qed.

Lemma buildPaths_neutral_matrices_witness :
  buildPaths question_all_neutral [Some 0; Some 1]%Z [Some 0; Some 1]%Z [Some 0; Some 1]%Z
  = Some [].
Proof.
  apply buildPaths_neutral_matrices; intros cells x Hrow Hcell; cbn in Hrow;
    repeat match goal with
           | H : _ \/ _ |- _ => destruct H
           | H : False |- _ => destruct H
           | H : JArr _ = JArr _ |- _ => injection H as <-; cbn in Hcell
           | H : _ = _ |- _ => symmetry; exact H
           end.
Defined.

Lemma highlightTargets_In (paths : list ConnPath) (hoverIdx : option nat)
    (hoverPathSet : list nat) (n : NodeRef) :
  In n (highlightTargets paths hoverIdx hoverPathSet) <->
  exists i p, (In i hoverPathSet \/ hoverIdx = Some i)
              /\ nth_error paths i = Some p
              /\ (src p = Some n \/ dst p = Some n).
Proof.
  unfold highlightTargets. cbv zeta. rewrite in_flat_map.
  assert (Hends : forall p, In n (ends_of p) <-> src p = Some n \/ dst p = Some n).
  { intros p. unfold ends_of. rewrite in_app_iff.
    destruct (src p) as [s |], (dst p) as [d |]; cbn [In]; split;
      intros H; repeat match goal with
                       | H : _ \/ _ |- _ => destruct H
                       | H : False |- _ => destruct H
                       | H : Some _ = Some _ |- _ => injection H as ->
                       | H : None = Some _ |- _ => discriminate H
                       | H : ?a = n |- _ => subst a
                       end; auto. }
  assert (Hidx : forall i, In i (hoverPathSet ++ match hoverIdx with
                                                  | Some k => [k]
                                                  | None => []
                                                  end)
                           <-> In i hoverPathSet \/ hoverIdx = Some i).
  { intros i. rewrite in_app_iff. destruct hoverIdx as [k |]; cbn [In]; split.
    - intros [H | [<- | []]]; [now left | now right].
    - intros [H | H]; [now left | right; left; now injection H].
    - intros [H | []]; now left.
    - intros [H | H]; [now left | discriminate H]. }
  split.
  - intros [i [Hi Hin]]. apply set_order_fresh, Hidx in Hi.
    destruct (nth_error paths i) as [p |] eqn:Hnth; [| destruct Hin].
    exists i, p. split; [exact Hi |]. split; [exact Hnth | now apply Hends].
  - intros [i [p [Hi [Hnth Hn]]]]. exists i. split.
    + now apply set_order_fresh, Hidx.
    + rewrite Hnth. now apply Hends.
Qed.

(** Hovering an item highlights the items at the two ends of every
    connector its selector picks, and nothing else: for a chunk these are
    the chunk and its direct neighbours, for a claim also the items on the
    far side of its chunks.  An item without a selected connector lights
    nothing up, not even itself. *)
Theorem hover_highlights (pathsOut : list ConnPath) (k : nat) (n : NodeRef) :
  (In n (highlightTargets pathsOut None (hoverSelect pathsOut col_gt k)) <->
   exists p, In p pathsOut /\ selected_from_gt pathsOut k p
             /\ (src p = Some n \/ dst p = Some n))
  /\ (In n (highlightTargets pathsOut None (hoverSelect pathsOut col_chunk k)) <->
      exists p, In p pathsOut /\ selected_from_chunk k p
                /\ (src p = Some n \/ dst p = Some n))
  /\ (In n (highlightTargets pathsOut None (hoverSelect pathsOut col_resp k)) <->
      exists p, In p pathsOut /\ selected_from_resp pathsOut k p
                /\ (src p = Some n \/ dst p = Some n)).
Proof.
  assert (Hgen : forall (select : list nat) (chosen : ConnPath -> Prop),
             (forall i, In i select <->
                        exists p, nth_error pathsOut i = Some p /\ chosen p) ->
             In n (highlightTargets pathsOut None select) <->
             exists p, In p pathsOut /\ chosen p /\ (src p = Some n \/ dst p = Some n)).
  { intros select chosen Hsel. rewrite highlightTargets_In. split.
    - intros [i [p [[Hi | Hi] [Hnth Hn]]]]; [| discriminate Hi].
      apply Hsel in Hi. destruct Hi as [q [Hq Hchosen]].
      rewrite Hnth in Hq. injection Hq as <-.
      exists p. split; [now apply nth_error_In with i |]. split; assumption.
    - intros [p [Hin [Hchosen Hn]]]. apply In_nth_error in Hin.
      destruct Hin as [i Hnth]. exists i, p. split; [left | split; assumption].
      apply Hsel. exists p. split; assumption. }
  cbn [hoverSelect]. split; [| split]; apply Hgen; intros i.
  - apply selectForGT_spec.
  - apply selectForChunk_spec.
  - apply selectForResp_spec.
Qed.
